(** * A shallow embedding of [src/ac3.py] (Sudoku AC-3 solver)

    The Python module defines a class [SudokuCSP] holding a puzzle, a
    dictionary of per-cell domains and a dictionary of per-cell neighbour
    sets, the AC-3 propagation ([ac3], [revise]), a backtracking search with
    the MRV / LCV heuristics, and the driver [solve_sudoku].

    Modelling choices.
    - Python integers are [Z]; coordinates produced by [range(9)] are [nat].
    - A grid is a [list (list Z)], read with Python indexing; an index out of
      range raises [IndexError], modelled as [None].
    - The domain dictionary is total on the 81 cells it is built with; it is
      a function [cell -> list Z].  A domain is a Python set of small ints:
      CPython iterates such a set in ascending order, so it is the ascending
      list of its elements (removal keeps the order).
    - A neighbour set is a set of tuples.  Its contents are the list of its
      elements in insertion order; the order in which CPython iterates it is
      hash-dependent, so it is left abstract ([set_iter], [diff_iter]):
      every result below holds for every such iteration order.
    - The [SudokuCSP] object, together with the program's standard output
      and a record of the search decisions, is the state of a state monad.
*)

From Stdlib Require Import String List Bool ZArith Lia Arith Permutation Sorted.
Import ListNotations.


(** ** Cells and grids *)

Definition cell := (nat * nat)%type.
Definition arc := (cell * cell)%type.
Definition grid := list (list Z).

Definition cell_eqb (a b : cell) : bool :=
  Nat.eqb (fst a) (fst b) && Nat.eqb (snd a) (snd b).

Definition cell_eq_dec (a b : cell) : {a = b} + {a <> b}.
Proof. decide equality; apply Nat.eq_dec. Defined.

(** [for i in range(9): for j in range(9)] : the insertion order of the
    domain dictionary (row-major). *)
Definition cells : list cell := list_prod (seq 0 9) (seq 0 9).

(** [puzzle[i][j]] *)
Definition py_get2 (p : grid) (i j : nat) : option Z :=
  match nth_error p i with
  | Some row => nth_error row j
  | None => None
  end.

(** ** Sets of cells ([set.add]) *)

Definition set_mem (c : cell) (s : list cell) : bool := existsb (cell_eqb c) s.

Definition set_add (c : cell) (s : list cell) : list cell :=
  if set_mem c s then s else s ++ [c].

(** [initialize_neighbors]: the body of the loop for the key [(i, j)]. *)
Definition row_col_step (i j : nat) (s : list cell) (k : nat) : list cell :=
  let s := if negb (Nat.eqb k j) then set_add (i, k) s else s in
  if negb (Nat.eqb k i) then set_add (k, j) s else s.

Definition block_step (i j : nat) (s : list cell) (rc : cell) : list cell :=
  if negb (cell_eqb rc (i, j)) then set_add rc s else s.

Definition neighbors_of (i j : nat) : list cell :=
  let s := fold_left (row_col_step i j) (seq 0 9) [] in
  let start_row := 3 * (i / 3) in
  let start_col := 3 * (j / 3) in
  fold_left (block_step i j) (list_prod (seq start_row 3) (seq start_col 3)) s.

(** The [defaultdict(set)] built by [initialize_neighbors]: keys outside the
    grid map to the default empty set.  It reads no puzzle value. *)
Definition initialize_neighbors : cell -> list cell :=
  fun c => if Nat.ltb (fst c) 9 && Nat.ltb (snd c) 9 then neighbors_of (fst c) (snd c)
           else [].

(** ** Domains *)

Definition store := cell -> list Z.

Definition upd (d : store) (k : cell) (v : list Z) : store :=
  fun c => if cell_eqb c k then v else d c.

(** [set(range(1, 10))] *)
Definition full_domain : list Z := [1; 2; 3; 4; 5; 6; 7; 8; 9]%Z.

(** [initialize_domains]: [IndexError] on a grid smaller than 9x9. *)
Fixpoint init_doms (p : grid) (cs : list cell) (d : store) : option store :=
  match cs with
  | [] => Some d
  | (i, j) :: cs' =>
      match py_get2 p i j with
      | None => None
      | Some v =>
          init_doms p cs' (upd d (i, j) (if Z.eqb v 0 then full_domain else [v]))
      end
  end.

Definition initialize_domains (p : grid) : option store :=
  init_doms p cells (fun _ => []).

(** ** The solver object and the state monad *)

(** Observable events: the program's [print] output, and a record of the
    decisions of the backtracking search (entry of [backtrack] with the
    size of the assignment, the selected cell, each value committed and each
    value withdrawn). *)
Inductive event :=
| Out (s : string)
| Backtrack_call (n : nat)
| Select (c : cell)
| Assign (c : cell) (v : Z)
| Unassign (c : cell).

(** The fields of a [SudokuCSP] object, and the event log (most recent
    event first). *)
Record state := mk_state {
  puzzle : grid;
  domains : store;
  neighbors : cell -> list cell;
  log : list event
}.

Definition M (A : Type) := state -> A * state.

Definition ret {A} (a : A) : M A := fun s => (a, s).
Definition bind {A B} (m : M A) (k : A -> M B) : M B :=
  fun s => let (a, s') := m s in k a s'.

Notation "x <- m ;; k" := (bind m (fun x => k))
  (at level 61, m at next level, right associativity).
Notation "m ;;; k" := (bind m (fun _ => k))
  (at level 61, right associativity).

Definition gets {A} (f : state -> A) : M A := fun s => (f s, s).

Definition set_domains (d : store) (s : state) : state :=
  mk_state (puzzle s) d (neighbors s) (log s).

Definition modify_domains (f : store -> store) : M unit :=
  fun s => (tt, set_domains (f (domains s)) s).

Definition emit (e : event) : M unit :=
  fun s => (tt, mk_state (puzzle s) (domains s) (neighbors s) (e :: log s)).

Definition print (msg : string) : M unit := emit (Out msg).

(** [SudokuCSP(puzzle)] *)
Definition SudokuCSP (p : grid) : option state :=
  match initialize_domains p with
  | Some d => Some (mk_state p d initialize_neighbors [])
  | None => None
  end.

(** [constraint_satisfied] *)
Definition constraint_satisfied (x y : Z) : bool := negb (Z.eqb x y).

(** [set.remove] on a domain *)
Definition set_remove (x : Z) (l : list Z) : list Z :=
  filter (fun y => negb (Z.eqb y x)) l.

Section Solver.

(** CPython's iteration order of a set of cells whose elements were
    inserted in the order of the list, and of the set difference
    [s - {x}]; only their contents are known. *)
Variable set_iter : list cell -> list cell.
Variable diff_iter : list cell -> cell -> list cell.

(** *** AC-3 *)

(** The loop of [revise] over the copy [set(self.domains[xi])]; the domain
    of [xj] is read afresh for each [x]. *)
Fixpoint revise_loop (xi xj : cell) (xs : list Z) (revised : bool) : M bool :=
  match xs with
  | [] => ret revised
  | x :: xs' =>
      d <- gets domains ;;
      if negb (existsb (fun y => constraint_satisfied x y) (d xj)) then
        modify_domains (fun d => upd d xi (set_remove x (d xi))) ;;;
        revise_loop xi xj xs' true
      else revise_loop xi xj xs' revised
  end.

Definition revise (xi xj : cell) : M bool :=
  d <- gets domains ;;
  revise_loop xi xj (d xi) false.

(** The initial worklist. *)
Definition initial_queue (nb : cell -> list cell) : list arc :=
  flat_map (fun xi => map (fun xj => (xi, xj)) (set_iter (nb xi))) cells.

(** One iteration of the [while] loop after [popleft]: [None] is
    [return False] (after the print), [Some q] the new worklist. *)
Definition ac3_body (xi xj : cell) (q : list arc) : M (option (list arc)) :=
  r <- revise xi xj ;;
  if r then
    d <- gets domains ;;
    match d xi with
    | [] => print "Puzzle has no solution"%string ;;; ret None
    | _ :: _ =>
        nb <- gets neighbors ;;
        ret (Some (q ++ map (fun xk => (xk, xi)) (diff_iter (nb xi) xj)))
    end
  else ret (Some q).

(** The [while queue] loop, with its trace [queue_lengths].  The fuel is
    never exhausted (see [ac3_loop_enough_fuel]). *)
Fixpoint ac3_loop (fuel : nat) (q : list arc) : M (bool * list nat) :=
  match fuel with
  | O => ret (false, [])
  | S f =>
      match q with
      | [] => ret (true, [])
      | (xi, xj) :: q' =>
          r <- ac3_body xi xj q' ;;
          match r with
          | None => ret (false, [length q])
          | Some q'' =>
              res <- ac3_loop f q'' ;;
              ret (fst res, length q :: snd res)
          end
      end
  end.

Fixpoint sum_cells (f : cell -> nat) (l : list cell) : nat :=
  match l with
  | [] => 0
  | c :: l' => f c + sum_cells f l'
  end.

(** A bound on the number of iterations: each iteration pops an arc, and an
    iteration that pushes arcs removes a value from a domain. *)
Definition ac3_measure (nb : cell -> list cell) (d : store) (q : list arc) : nat :=
  length q + sum_cells (fun c => length (d c) * S (length (nb c))) cells.

Definition ac3 : M (bool * list nat) :=
  nb <- gets neighbors ;;
  d <- gets domains ;;
  let q := initial_queue nb in
  ac3_loop (S (ac3_measure nb d q)) q.

(** The state after [n] iterations of the [while] loop (a [return False]
    empties the worklist, which ends the loop). *)
Fixpoint ac3_iter (n : nat) (q : list arc) (s : state) : list arc * state :=
  match n with
  | O => (q, s)
  | S n' =>
      match q with
      | [] => (q, s)
      | (xi, xj) :: q' =>
          match ac3_body xi xj q' s with
          | (Some q'', s') => ac3_iter n' q'' s'
          | (None, s') => ([], s')
          end
      end
  end.

Definition is_solved : M bool :=
  d <- gets domains ;;
  ret (forallb (fun c => Nat.eqb (length (d c)) 1) cells).

(** [next(iter(s))] of a non-empty set (the empty set, where Python raises
    [StopIteration], is not read: [get_solution] runs after [is_solved]). *)
Definition py_next (l : list Z) : Z := hd 0%Z l.

Definition get_solution : M (list (list Z)) :=
  d <- gets domains ;;
  ret (map (fun i => map (fun j => py_next (d (i, j))) (seq 0 9)) (seq 0 9)).

(** *** Backtracking search *)

(** The assignment dictionary: a key occurs at most once; its key order is
    never observed. *)
Definition assignment := list (cell * Z).

Fixpoint asg_find (c : cell) (a : assignment) : option Z :=
  match a with
  | [] => None
  | (k, v) :: a' => if cell_eqb k c then Some v else asg_find c a'
  end.

(** [v in assignment] *)
Definition asg_mem (c : cell) (a : assignment) : bool :=
  match asg_find c a with Some _ => true | None => false end.

(** [min(l, key=f)]: the first element of least key. *)
Fixpoint py_min_by (f : cell -> nat) (best : cell) (l : list cell) : cell :=
  match l with
  | [] => best
  | x :: l' => if f x <? f best then py_min_by f x l' else py_min_by f best l'
  end.

(** [select_unassigned_variable]; [None] stands for the [ValueError] of
    [min] on an empty sequence. *)
Definition select_unassigned_variable (a : assignment) : M (option cell) :=
  d <- gets domains ;;
  let unassigned_variables := filter (fun v => negb (asg_mem v a)) cells in
  match unassigned_variables with
  | [] => ret None
  | v :: vs => ret (Some (py_min_by (fun var => length (d var)) v vs))
  end.

Definition is_consistent (var : cell) (value : Z) (a : assignment) : M bool :=
  nb <- gets neighbors ;;
  ret (forallb (fun n => match asg_find n a with
                         | Some w => negb (Z.eqb w value)
                         | None => true
                         end) (set_iter (nb var))).

Definition count_constraints (var : cell) (value : Z) (a : assignment) : M nat :=
  nb <- gets neighbors ;;
  d <- gets domains ;;
  ret (fold_left (fun count n =>
         if asg_mem n a then count
         else count + length (filter (fun nv => negb (constraint_satisfied value nv)) (d n)))
       (set_iter (nb var)) 0).

(** [list.sort(key=k)]: a stable sort, written as an insertion sort. *)
Fixpoint insert_by {A} (k : A -> nat) (x : A) (l : list A) : list A :=
  match l with
  | [] => [x]
  | y :: l' => if k x <? k y then x :: l else y :: insert_by k x l'
  end.

Definition sort_by_key {A} (k : A -> nat) (l : list A) : list A :=
  fold_left (fun acc x => insert_by k x acc) l [].

Definition least_constraining_values (var : cell) (a : assignment) : M (list Z) :=
  d <- gets domains ;;
  st <- gets (fun s => s) ;;
  let values := d var in
  ret (sort_by_key (fun value => fst (count_constraints var value a st)) values).

(** The [for value in ...] loop of [backtrack]; [bt] is the recursive
    call. *)
Fixpoint try_values (bt : assignment -> M (option assignment))
    (var : cell) (a : assignment) (vs : list Z) : M (option assignment) :=
  match vs with
  | [] => ret None
  | value :: vs' =>
      ok <- is_consistent var value a ;;
      if ok then
        emit (Assign var value) ;;;
        result <- bt ((var, value) :: a) ;;
        match result with
        | Some r => ret (Some r)
        | None => emit (Unassign var) ;;; try_values bt var a vs'
        end
      else try_values bt var a vs'
  end.

(** [backtrack]: the fuel bounds the recursion depth, which is at most
    [81 - len(assignment)]; it is never exhausted from
    [backtracking_search].  The [None] of [select_unassigned_variable]
    (the [ValueError] of [min]) is mapped to [None] here; it cannot occur
    from an assignment of distinct cells of the grid ([select_some_keys]),
    the only assignments [backtracking_search] builds. *)
Fixpoint backtrack (fuel : nat) (a : assignment) : M (option assignment) :=
  emit (Backtrack_call (length a)) ;;;
  if Nat.eqb (length a) 81 then ret (Some a) else
  match fuel with
  | O => ret None
  | S f =>
      ov <- select_unassigned_variable a ;;
      match ov with
      | None => ret None
      | Some var =>
          emit (Select var) ;;;
          vals <- least_constraining_values var a ;;
          try_values (backtrack f) var a vals
      end
  end.

Definition backtracking_search : M (option assignment) := backtrack 82 [].

(** [solution.get((i, j), 0)] *)
Definition asg_get (c : cell) (a : assignment) (default : Z) : Z :=
  match asg_find c a with Some v => v | None => default end.

(** ** [solve_sudoku] *)

Definition solve_m : M (option (list (list Z)) * list nat) :=
  res <- ac3 ;;
  let ac3_result := fst res in
  let queue_lengths := snd res in
  if ac3_result then
    solved <- is_solved ;;
    if solved then
      print "Sudoku fully solved by CSP....Printing queue lengths at each step of the AC-3 Algorithm in an array"%string ;;;
      g <- get_solution ;;
      ret (Some g, queue_lengths)
    else
      print "Sudoku not fully solved by CSP....Running Backtrack algorithm"%string ;;;
      solution <- backtracking_search ;;
      match solution with
      | Some ((_ :: _) as sol) =>
          ret (Some (map (fun i => map (fun j => asg_get (i, j) sol 0%Z) (seq 0 9)) (seq 0 9)),
               queue_lengths)
      | _ => ret (None, queue_lengths)
      end
  else ret (None, queue_lengths).

(** [solve_sudoku(puzzle)]: [None] is the [IndexError] of a grid smaller
    than 9x9; otherwise the returned pair and the events of the run. *)
Definition solve_sudoku (p : grid) : option (option (list (list Z)) * list nat * list event) :=
  match SudokuCSP p with
  | None => None
  | Some st =>
      let (r, st') := solve_m st in
      Some (fst r, snd r, log st')
  end.

End Solver.

(** ** The specification's notions of a solved grid *)

(** [g[i][j]] of a grid read as the specification reads it. *)
Definition cell_val (g : list (list Z)) (c : cell) : Z :=
  nth (snd c) (nth (fst c) g []) 0%Z.

Definition is_9x9 (g : list (list Z)) : Prop :=
  length g = 9 /\ Forall (fun row => length row = 9) g.

(** Input grids: 0 for an empty cell, 1-9 for a clue. *)
Definition well_formed (p : grid) : Prop :=
  is_9x9 p /\ forall i j, i < 9 -> j < 9 -> (0 <= cell_val p (i, j) <= 9)%Z.

Definition row_cells (i : nat) : list cell := map (fun j => (i, j)) (seq 0 9).
Definition col_cells (j : nat) : list cell := map (fun i => (i, j)) (seq 0 9).
Definition block_cells (b : nat) : list cell :=
  map (fun k => (3 * (b / 3) + k / 3, 3 * (b mod 3) + k mod 3)) (seq 0 9).

Definition units : list (list cell) :=
  map row_cells (seq 0 9) ++ map col_cells (seq 0 9) ++ map block_cells (seq 0 9).

Definition each_once (vals : list Z) : Prop :=
  forall v, (1 <= v <= 9)%Z -> count_occ Z.eq_dec vals v = 1.

(** Every row, column and 3x3 block holds each of 1-9 exactly once. *)
Definition sudoku_solved (g : list (list Z)) : Prop :=
  is_9x9 g /\ forall u, In u units -> each_once (map (cell_val g) u).

Definition keeps_clues (p g : list (list Z)) : Prop :=
  forall i j, i < 9 -> j < 9 -> cell_val p (i, j) <> 0%Z ->
  cell_val g (i, j) = cell_val p (i, j).

Definition valid_completion (p g : list (list Z)) : Prop :=
  sudoku_solved g /\ keeps_clues p g.

Definition shares_unit (a b : cell) : Prop :=
  fst a = fst b \/ snd a = snd b \/
  (fst a / 3 = fst b / 3 /\ snd a / 3 = snd b / 3).

(** Decision procedures used to check the 81 cells. *)
Definition shares_unitb (a b : cell) : bool :=
  Nat.eqb (fst a) (fst b) || Nat.eqb (snd a) (snd b) ||
  (Nat.eqb (fst a / 3) (fst b / 3) && Nat.eqb (snd a / 3) (snd b / 3)).

Fixpoint nodupb (l : list cell) : bool :=
  match l with
  | [] => true
  | x :: l' => negb (set_mem x l') && nodupb l'
  end.

Definition nbrs_check (c : cell) : bool :=
  let n := initialize_neighbors c in
  Nat.eqb (length n) 20 && nodupb n &&
  forallb (fun c' => set_mem c' cells && negb (cell_eqb c' c) &&
                     set_mem c (initialize_neighbors c')) n.

Definition nbrs_exact (c : cell) : bool :=
  forallb (fun c' => Bool.eqb (set_mem c' (initialize_neighbors c))
                              (negb (cell_eqb c' c) && shares_unitb c c')) cells.

Definition unit_check (u : list cell) : bool :=
  Nat.eqb (length u) 9 && nodupb u &&
  forallb (fun a => set_mem a cells &&
             forallb (fun b => cell_eqb a b || set_mem b (initialize_neighbors a)) u) u.

(** Every neighbour pair lies in a common unit, every cell in some unit. *)
Definition nb_unit (a : cell) : bool :=
  forallb (fun b => existsb (fun u => set_mem a u && set_mem b u) units)
          (initialize_neighbors a).

Definition in_some_unit (c : cell) : bool := existsb (fun u => set_mem c u) units.

(** The grid [g] with [g[i][j] = f (i, j)]. *)
Definition grid_of (f : cell -> Z) : list (list Z) :=
  map (fun i => map (fun j => f (i, j)) (seq 0 9)) (seq 0 9).

(** * Proofs *)

(** ** Cells and the neighbour relation *)

Lemma cell_eqb_spec (a b : cell) : reflect (a = b) (cell_eqb a b).
Proof.
  destruct a as [i j], b as [k l]; unfold cell_eqb; simpl.
  destruct (Nat.eqb_spec i k), (Nat.eqb_spec j l); simpl; constructor;
    congruence.
Qed.

Lemma cell_eqb_refl (a : cell) : cell_eqb a a = true.
Proof. destruct (cell_eqb_spec a a); congruence. Qed.

Lemma set_mem_spec (c : cell) (s : list cell) : set_mem c s = true <-> In c s.
Proof.
  unfold set_mem; rewrite existsb_exists; split.
  - intros [x [Hx He]]; destruct (cell_eqb_spec c x); subst; congruence.
  - intros H; exists c; split; auto using cell_eqb_refl.
Qed.

Lemma nodupb_spec (l : list cell) : nodupb l = true -> NoDup l.
Proof.
  induction l as [|x l IH]; simpl; intros H; constructor.
  - apply andb_prop in H as [H _]; rewrite <- set_mem_spec; destruct (set_mem x l);
      simpl in *; congruence.
  - apply andb_prop in H as [_ H]; auto.
Qed.

Lemma in_cells (i j : nat) : In (i, j) cells <-> i < 9 /\ j < 9.
Proof.
  unfold cells; rewrite in_prod_iff, !in_seq; lia.
Qed.

Lemma cells_nodup : NoDup cells.
Proof. apply nodupb_spec; vm_compute; reflexivity. Qed.

Lemma cells_length : length cells = 81.
Proof. reflexivity. Qed.

Lemma nbrs_all : forallb nbrs_check cells = true.
Proof. vm_compute; reflexivity. Qed.

Lemma nbrs_exact_all : forallb nbrs_exact cells = true.
Proof. vm_compute; reflexivity. Qed.

Lemma units_all : forallb unit_check units = true.
Proof. vm_compute; reflexivity. Qed.

Lemma nb_src_cells (a b : cell) : In b (initialize_neighbors a) -> In a cells.
Proof.
  destruct a as [i j]; unfold initialize_neighbors; simpl.
  destruct (Nat.ltb_spec i 9), (Nat.ltb_spec j 9); simpl; try tauto.
  intros _; apply in_cells; auto.
Qed.

Lemma nbrs_check_of (a : cell) : In a cells -> nbrs_check a = true.
Proof.
  intros H; pose proof nbrs_all as A; rewrite forallb_forall in A; auto.
Qed.

Lemma nb_facts (a b : cell) : In b (initialize_neighbors a) ->
  In b cells /\ b <> a /\ In a (initialize_neighbors b).
Proof.
  intros H; pose proof (nbrs_check_of a (nb_src_cells a b H)) as C.
  unfold nbrs_check in C; apply andb_prop in C as [_ C].
  rewrite forallb_forall in C; specialize (C b H).
  apply andb_prop in C as [C C3]; apply andb_prop in C as [C1 C2].
  rewrite set_mem_spec in C1, C3; split; [auto|split; [|auto]].
  destruct (cell_eqb_spec b a); simpl in C2; congruence.
Qed.

Lemma nb_in_cells (a b : cell) : In b (initialize_neighbors a) -> In b cells.
Proof. intros H; apply (nb_facts a b H). Qed.

Lemma nb_irrefl (a b : cell) : In b (initialize_neighbors a) -> b <> a.
Proof. intros H; apply (nb_facts a b H). Qed.

Lemma nb_sym (a b : cell) : In b (initialize_neighbors a) -> In a (initialize_neighbors b).
Proof. intros H; apply (nb_facts a b H). Qed.

Lemma nb_nodup (a : cell) : NoDup (initialize_neighbors a).
Proof.
  destruct (in_dec cell_eq_dec a cells) as [H|H].
  - pose proof (nbrs_check_of a H) as C; unfold nbrs_check in C.
    apply andb_prop in C as [C _]; apply andb_prop in C as [_ C].
    apply nodupb_spec; auto.
  - destruct (initialize_neighbors a) as [|b l] eqn:E; [constructor|].
    exfalso; apply H, (nb_src_cells a b); rewrite E; left; auto.
Qed.

Lemma nb_length (a : cell) : In a cells -> length (initialize_neighbors a) = 20.
Proof.
  intros H; pose proof (nbrs_check_of a H) as C; unfold nbrs_check in C.
  apply andb_prop in C as [C _]; apply andb_prop in C as [C _].
  apply Nat.eqb_eq; auto.
Qed.

Lemma shares_unitb_spec (a b : cell) : shares_unitb a b = true <-> shares_unit a b.
Proof.
  unfold shares_unitb, shares_unit.
  rewrite !orb_true_iff, andb_true_iff, !Nat.eqb_eq; tauto.
Qed.

Lemma nbrs_exact_of (a : cell) : In a cells -> nbrs_exact a = true.
Proof.
  intros H; pose proof nbrs_exact_all as A; rewrite forallb_forall in A; auto.
Qed.

(** ** C9 *)

(** C9: for a cell [(i, j)] of the grid, [initialize_neighbors] gives exactly
    the other cells of its row, its column and its 3x3 block; the relation is
    symmetric, every cell has 20 distinct neighbours, and the solver object
    built from any puzzle holds this same relation (no puzzle value is
    read). *)
Theorem initialize_neighbors_spec (i j : nat) : i < 9 -> j < 9 ->
  (forall c', In c' (initialize_neighbors (i, j)) <->
     (fst c' < 9 /\ snd c' < 9 /\ c' <> (i, j) /\ shares_unit (i, j) c')) /\
  (forall c', In c' (initialize_neighbors (i, j)) -> In (i, j) (initialize_neighbors c')) /\
  NoDup (initialize_neighbors (i, j)) /\
  length (initialize_neighbors (i, j)) = 20 /\
  (forall p st, SudokuCSP p = Some st -> neighbors st = initialize_neighbors).
Proof.
  intros Hi Hj.
  assert (Hc : In (i, j) cells) by (apply in_cells; auto).
  pose proof (nbrs_exact_of _ Hc) as E; unfold nbrs_exact in E.
  rewrite forallb_forall in E.
  split; [|split; [|split; [|split]]].
  - intros [k l]; simpl. split.
    + intros H. pose proof (nb_in_cells _ _ H) as Hk.
      specialize (E _ Hk). rewrite (proj2 (set_mem_spec _ _) H) in E.
      apply Bool.eqb_prop in E. symmetry in E. apply andb_prop in E as [E1 E2].
      apply in_cells in Hk. rewrite shares_unitb_spec in E2.
      destruct (cell_eqb_spec (k, l) (i, j)); simpl in E1; [congruence|].
      tauto.
    + intros (Hk & Hl & Hne & Hs).
      assert (Hkl : In (k, l) cells) by (apply in_cells; auto).
      specialize (E _ Hkl). apply set_mem_spec.
      rewrite <- shares_unitb_spec in Hs.
      destruct (cell_eqb_spec (k, l) (i, j)); [congruence|].
      rewrite Hs in E; simpl in E.
      apply Bool.eqb_prop in E; auto.
  - intros c' H; apply nb_sym; auto.
  - apply nb_nodup.
  - apply nb_length; auto.
  - intros p st H; unfold SudokuCSP in H.
    destruct (initialize_domains p); inversion H; reflexivity.
Qed.

Lemma initialize_neighbors_spec_witness :
  4 < 9 /\ 7 < 9 /\ length (initialize_neighbors (4, 7)) = 20.
Proof.
  split; [lia|]. split; [lia|].
  destruct (initialize_neighbors_spec 4 7 ltac:(lia) ltac:(lia)) as (_ & _ & _ & H & _).
  exact H.
Defined.

(** ** List helpers *)

Lemma filter_filter_comm {A} (f g : A -> bool) (l : list A) :
  filter f (filter g l) = filter (fun x => g x && f x) l.
Proof.
  induction l as [|x l IH]; simpl; auto.
  destruct (g x); simpl; [destruct (f x); simpl; rewrite IH|]; auto.
Qed.

Lemma filter_all_true {A} (f : A -> bool) (l : list A) :
  (forall x, In x l -> f x = true) -> filter f l = l.
Proof.
  induction l as [|x l IH]; simpl; intros H; auto.
  rewrite H by auto; f_equal; auto.
Qed.

Lemma filter_length_lt {A} (f : A -> bool) (l : list A) :
  existsb (fun x => negb (f x)) l = true -> length (filter f l) < length l.
Proof.
  induction l as [|x l IH]; simpl; [discriminate|].
  pose proof (filter_length_le f l) as Hle.
  destruct (f x); simpl; intros H; [apply IH in H; lia|lia].
Qed.

(** Composition of removals: a domain is always a filter of an earlier one. *)
Definition filtered_from (l l' : list Z) : Prop := exists P, l' = filter P l.

Lemma filtered_from_refl (l : list Z) : filtered_from l l.
Proof. exists (fun _ => true); rewrite filter_all_true; auto. Qed.

Lemma filtered_from_trans (l1 l2 l3 : list Z) :
  filtered_from l1 l2 -> filtered_from l2 l3 -> filtered_from l1 l3.
Proof.
  intros [P ->] [Q ->]; exists (fun x => P x && Q x).
  apply filter_filter_comm.
Qed.

Lemma filtered_from_incl (l l' : list Z) : filtered_from l l' -> incl l' l.
Proof. intros [P ->] x Hx; apply filter_In in Hx; tauto. Qed.

Lemma filtered_from_length (l l' : list Z) :
  filtered_from l l' -> length l' <= length l.
Proof. intros [P ->]; apply filter_length_le. Qed.

Ltac unfold_m := unfold bind, ret, gets, modify_domains, emit, print, set_domains in *.

Section Proofs.

Variable set_iter : list cell -> list cell.
Variable diff_iter : list cell -> cell -> list cell.
Hypothesis set_iter_perm : forall l, Permutation (set_iter l) l.
Hypothesis diff_iter_perm :
  forall l x, Permutation (diff_iter l x) (filter (fun c => negb (cell_eqb c x)) l).

(** ** [revise] *)

(** [x] has a support in the domain of [xj]. *)
Definition supported (d : store) (xj : cell) (x : Z) : bool :=
  existsb (fun y => constraint_satisfied x y) (d xj).

Lemma supported_upd (d : store) (xi xj : cell) (v : list Z) :
  xj <> xi -> supported (upd d xi v) xj = supported d xj.
Proof.
  intros H; unfold supported, upd.
  destruct (cell_eqb_spec xj xi); [congruence|reflexivity].
Qed.

Lemma revise_loop_spec (xi xj : cell) (xs : list Z) (rev : bool) (st : state) :
  xi <> xj ->
  let '(r, st') := revise_loop xi xj xs rev st in
  r = rev || existsb (fun x => negb (supported (domains st) xj x)) xs /\
  puzzle st' = puzzle st /\ neighbors st' = neighbors st /\ log st' = log st /\
  (forall c, c <> xi -> domains st' c = domains st c) /\
  domains st' xi =
    filter (fun y => negb (existsb (Z.eqb y) xs && negb (supported (domains st) xj y)))
           (domains st xi).
Proof.
  intros Hne; revert rev st; induction xs as [|x xs IH]; intros rev st.
  - simpl. rewrite orb_false_r, filter_all_true by auto.
    repeat split; auto.
  - cbn [revise_loop]; unfold bind, gets.
    fold (supported (domains st) xj x).
    destruct (supported (domains st) xj x) eqn:Hs; simpl.
    + specialize (IH rev st).
      destruct (revise_loop xi xj xs rev st) as [r st'].
      destruct IH as (Hr & H1 & H2 & H3 & H4 & H5).
      repeat split; auto.
      * rewrite Hr; cbn [existsb]; rewrite Hs; reflexivity.
      * rewrite H5; apply filter_ext; intros y.
        destruct (Z.eqb_spec y x); subst; simpl; [rewrite Hs|]; simpl;
          [rewrite andb_false_r|]; reflexivity.
    + unfold modify_domains, set_domains; simpl.
      set (st1 := mk_state (puzzle st) (upd (domains st) xi (set_remove x (domains st xi)))
                           (neighbors st) (log st)).
      specialize (IH true st1).
      destruct (revise_loop xi xj xs true st1) as [r st'].
      destruct IH as (Hr & H1 & H2 & H3 & H4 & H5).
      subst st1; cbn [domains puzzle neighbors log] in *.
      rewrite supported_upd in H5 by auto.
      repeat split; auto.
      * rewrite Hr; cbn [existsb]; rewrite Hs; cbn [negb orb].
        rewrite orb_true_r; reflexivity.
      * intros c Hc; rewrite H4 by auto; unfold upd.
        destruct (cell_eqb_spec c xi); [congruence|reflexivity].
      * rewrite H5; unfold upd; rewrite cell_eqb_refl; unfold set_remove.
        rewrite filter_filter_comm; apply filter_ext; intros y.
        destruct (Z.eqb_spec y x); subst; simpl; [rewrite Hs|]; reflexivity.
Qed.

Lemma revise_spec (xi xj : cell) (st : state) :
  xi <> xj ->
  let '(r, st') := revise xi xj st in
  r = existsb (fun x => negb (supported (domains st) xj x)) (domains st xi) /\
  puzzle st' = puzzle st /\ neighbors st' = neighbors st /\ log st' = log st /\
  (forall c, c <> xi -> domains st' c = domains st c) /\
  domains st' xi = filter (supported (domains st) xj) (domains st xi).
Proof.
  intros Hne; unfold revise, bind, gets.
  pose proof (revise_loop_spec xi xj (domains st xi) false st Hne) as H.
  destruct (revise_loop xi xj (domains st xi) false st) as [r st'].
  destruct H as (Hr & H1 & H2 & H3 & H4 & H5).
  repeat split; auto.
  rewrite H5; apply filter_ext_in; intros y Hy.
  assert (E : existsb (Z.eqb y) (domains st xi) = true).
  { apply existsb_exists; exists y; split; auto; apply Z.eqb_refl. }
  rewrite E; simpl; apply negb_involutive.
Qed.

(** Every removal only shrinks the domain of [xi], whatever the arc. *)
Lemma revise_loop_shrinks (xi xj : cell) (xs : list Z) (rev : bool) (st : state) :
  let '(r, st') := revise_loop xi xj xs rev st in
  puzzle st' = puzzle st /\ neighbors st' = neighbors st /\ log st' = log st /\
  forall c, filtered_from (domains st c) (domains st' c).
Proof.
  revert rev st; induction xs as [|x xs IH]; intros rev st.
  - simpl; repeat split; auto using filtered_from_refl.
  - cbn [revise_loop]; unfold bind, gets.
    destruct (negb (existsb (fun y => constraint_satisfied x y) (domains st xj))); simpl.
    + unfold modify_domains, set_domains; simpl.
      set (st1 := mk_state (puzzle st) (upd (domains st) xi (set_remove x (domains st xi)))
                           (neighbors st) (log st)).
      specialize (IH true st1).
      destruct (revise_loop xi xj xs true st1) as [r st'].
      destruct IH as (H1 & H2 & H3 & H4); subst st1; simpl in *.
      repeat split; auto.
      intros c; eapply filtered_from_trans; [|apply H4].
      unfold upd; destruct (cell_eqb_spec c xi); subst.
      * exists (fun y => negb (Z.eqb y x)); reflexivity.
      * apply filtered_from_refl.
    + apply IH.
Qed.


(** ** One iteration of the AC-3 loop *)

Definition only_out (l : list event) : Prop :=
  Forall (fun e => match e with Out _ => True | _ => False end) l.

(** The state [st'] follows [st] in an AC-3 run: same puzzle and neighbour
    relation, domains only filtered, only printed lines logged. *)
Definition ac3_frame (st st' : state) : Prop :=
  puzzle st' = puzzle st /\ neighbors st' = neighbors st /\
  (forall c, filtered_from (domains st c) (domains st' c)) /\
  exists l, log st' = l ++ log st /\ only_out l.

Lemma ac3_frame_refl (st : state) : ac3_frame st st.
Proof.
  repeat split; auto using filtered_from_refl.
  exists []; split; [reflexivity|constructor].
Qed.

Lemma ac3_frame_trans (s1 s2 s3 : state) :
  ac3_frame s1 s2 -> ac3_frame s2 s3 -> ac3_frame s1 s3.
Proof.
  intros (A1 & A2 & A3 & l1 & A4 & A5) (B1 & B2 & B3 & l2 & B4 & B5).
  repeat split; try congruence.
  - intros c; eapply filtered_from_trans; eauto.
  - exists (l2 ++ l1); split; [rewrite B4, A4, app_assoc; reflexivity|].
    apply Forall_app; auto.
Qed.

Lemma revise_frame (xi xj : cell) (st : state) :
  ac3_frame st (snd (revise xi xj st)).
Proof.
  unfold revise, bind, gets.
  pose proof (revise_loop_shrinks xi xj (domains st xi) false st) as H.
  destruct (revise_loop xi xj (domains st xi) false st) as [r st'].
  unfold ac3_frame; cbn [snd].
  destruct H as (H1 & H2 & H3 & H4); repeat split; auto.
  exists []; rewrite H3; split; [reflexivity|constructor].
Qed.

Lemma ac3_body_frame (xi xj : cell) (q : list arc) (st : state) :
  ac3_frame st (snd (ac3_body diff_iter xi xj q st)).
Proof.
  unfold ac3_body, bind.
  pose proof (revise_frame xi xj st) as H.
  destruct (revise xi xj st) as [r st1]; simpl in H.
  destruct r; [|exact H].
  unfold gets; destruct (domains st1 xi); unfold_m; simpl; [|exact H].
  eapply ac3_frame_trans; [exact H|].
  repeat split; auto using filtered_from_refl.
  exists [Out "Puzzle has no solution"%string]; split; [reflexivity|].
  repeat constructor.
Qed.

(** The removal test of [revise] found an unsupported value. *)
Definition revises (d : store) (xi xj : cell) : bool :=
  existsb (fun x => negb (supported d xj x)) (d xi).

Lemma ac3_body_spec (xi xj : cell) (q : list arc) (st : state) :
  In xj (initialize_neighbors xi) -> neighbors st = initialize_neighbors ->
  let '(r, st') := ac3_body diff_iter xi xj q st in
  (forall c, c <> xi -> domains st' c = domains st c) /\
  domains st' xi = filter (supported (domains st) xj) (domains st xi) /\
  ((r = None /\ revises (domains st) xi xj = true /\ domains st' xi = []) \/
   (r = Some q /\ revises (domains st) xi xj = false) \/
   (r = Some (q ++ map (fun xk => (xk, xi)) (diff_iter (initialize_neighbors xi) xj)) /\
    revises (domains st) xi xj = true /\ domains st' xi <> [])).
Proof.
  intros Hn Hnb.
  assert (Hne : xi <> xj) by (intros E; subst; exact (nb_irrefl _ _ Hn eq_refl)).
  unfold ac3_body, bind.
  pose proof (revise_spec xi xj st Hne) as H.
  destruct (revise xi xj st) as [r st1].
  destruct H as (Hr & H1 & H2 & H3 & H4 & H5).
  unfold revises; rewrite <- Hr.
  destruct r.
  - unfold gets; destruct (domains st1 xi) as [|z zs] eqn:E; unfold_m; simpl.
    + split; [auto|split; [congruence|left; auto]].
    + split; [auto|split; [congruence|]].
      right; right; rewrite H2, Hnb; split; [reflexivity|split; [reflexivity|congruence]].
  - unfold ret; repeat split; auto.
Qed.


(** ** The AC-3 loop *)

(** Every arc of the worklist is a pair of neighbours. *)
Definition arcs_ok (q : list arc) : Prop :=
  forall a, In a q -> In (snd a) (initialize_neighbors (fst a)).

Lemma ac3_body_arcs_ok (xi xj : cell) (q : list arc) (st : state) :
  arcs_ok ((xi, xj) :: q) -> neighbors st = initialize_neighbors ->
  forall q', fst (ac3_body diff_iter xi xj q st) = Some q' -> arcs_ok q'.
Proof.
  intros Hq Hnb q'.
  assert (Hn : In xj (initialize_neighbors xi)) by (apply (Hq (xi, xj)); left; auto).
  pose proof (ac3_body_spec xi xj q st Hn Hnb) as H.
  destruct (ac3_body diff_iter xi xj q st) as [r st']; simpl.
  intros ->. destruct H as (_ & _ & [(E & _)|[(E & _)|(E & _)]]); try discriminate;
    injection E as E; subst q'; intros a Ha.
  - apply (Hq a); right; auto.
  - apply in_app_or in Ha as [Ha|Ha]; [apply (Hq a); right; auto|].
    apply in_map_iff in Ha as [xk [<- Hk]]; simpl.
    apply (Permutation_in _ (diff_iter_perm _ _)) in Hk.
    apply filter_In in Hk as [Hk _]; apply nb_sym; auto.
Qed.

Lemma ac3_loop_frame (f : nat) (q : list arc) (st : state) :
  ac3_frame st (snd (ac3_loop diff_iter f q st)).
Proof.
  revert q st; induction f as [|f IH]; intros q st; [apply ac3_frame_refl|].
  destruct q as [|[xi xj] q]; [apply ac3_frame_refl|].
  cbn [ac3_loop]; unfold bind.
  pose proof (ac3_body_frame xi xj q st) as H.
  destruct (ac3_body diff_iter xi xj q st) as [[q'|] st1]; simpl in *; [|exact H].
  specialize (IH q' st1).
  destruct (ac3_loop diff_iter f q' st1) as [res st2]; simpl in *.
  eapply ac3_frame_trans; eauto.
Qed.

(** An invariant of the states of a run, kept by every iteration. *)
Lemma ac3_loop_inv_all (Q : state -> Prop) :
  (forall xi xj q st, arcs_ok ((xi, xj) :: q) -> neighbors st = initialize_neighbors ->
     Q st -> Q (snd (ac3_body diff_iter xi xj q st))) ->
  forall f q st, arcs_ok q -> neighbors st = initialize_neighbors -> Q st ->
  Q (snd (ac3_loop diff_iter f q st)).
Proof.
  intros HQ f; induction f as [|f IH]; intros q st Hq Hnb HS; [exact HS|].
  destruct q as [|[xi xj] q]; [exact HS|].
  cbn [ac3_loop]; unfold bind.
  pose proof (HQ xi xj q st Hq Hnb HS) as H1.
  pose proof (ac3_body_arcs_ok xi xj q st Hq Hnb) as H2.
  pose proof (ac3_body_frame xi xj q st) as (_ & H3 & _).
  destruct (ac3_body diff_iter xi xj q st) as [[q'|] st1]; simpl in *; [|exact H1].
  specialize (IH q' st1 (H2 q' eq_refl) ltac:(congruence) H1).
  destruct (ac3_loop diff_iter f q' st1) as [res st2]; exact IH.
Qed.

(** An invariant of the worklist and the state, kept by every iteration that
    does not fail, holds when the loop succeeds. *)
Lemma ac3_loop_success (P : list arc -> state -> Prop) :
  (forall xi xj q st q' st', P ((xi, xj) :: q) st ->
     ac3_body diff_iter xi xj q st = (Some q', st') -> P q' st') ->
  forall f q st, P q st -> fst (fst (ac3_loop diff_iter f q st)) = true ->
  P [] (snd (ac3_loop diff_iter f q st)).
Proof.
  intros HP f; induction f as [|f IH]; intros q st HS; [discriminate|].
  destruct q as [|[xi xj] q]; [intros; exact HS|].
  cbn [ac3_loop]; unfold bind.
  destruct (ac3_body diff_iter xi xj q st) as [[q'|] st1] eqn:E; simpl; [|discriminate].
  specialize (IH q' st1 (HP _ _ _ _ _ _ HS E)).
  destruct (ac3_loop diff_iter f q' st1) as [[b l] st2]; exact IH.
Qed.

(** *** Termination *)

Lemma sum_cells_ext (f g : cell -> nat) (l : list cell) :
  (forall c, In c l -> f c = g c) -> sum_cells f l = sum_cells g l.
Proof.
  induction l as [|c l IH]; simpl; intros H; [reflexivity|].
  f_equal; auto.
Qed.

Lemma sum_cells_change (f g : cell -> nat) (l : list cell) (x : cell) :
  NoDup l -> In x l -> (forall c, c <> x -> f c = g c) ->
  sum_cells f l + g x = sum_cells g l + f x.
Proof.
  induction l as [|y l IH]; simpl; intros Hnd Hx Hfg; [contradiction|].
  inversion Hnd as [|? ? Hy Hnd']; subst.
  destruct Hx as [->|Hx].
  - rewrite (sum_cells_ext f g l); [lia|].
    intros c Hc; apply Hfg; intros ->; contradiction.
  - assert (y <> x) by (intros ->; contradiction).
    rewrite Hfg by auto. specialize (IH Hnd' Hx Hfg). lia.
Qed.

Lemma ac3_body_measure (xi xj : cell) (q q' : list arc) (st st' : state) :
  arcs_ok ((xi, xj) :: q) -> neighbors st = initialize_neighbors ->
  ac3_body diff_iter xi xj q st = (Some q', st') ->
  ac3_measure initialize_neighbors (domains st') q' <
  ac3_measure initialize_neighbors (domains st) ((xi, xj) :: q).
Proof.
  intros Hq Hnb E.
  assert (Hn : In xj (initialize_neighbors xi)) by (apply (Hq (xi, xj)); left; auto).
  assert (Hxi : In xi cells) by (apply (nb_src_cells _ _ Hn)).
  pose proof (ac3_body_spec xi xj q st Hn Hnb) as H; rewrite E in H.
  destruct H as (H1 & H2 & [(E' & _)|[(E' & Hr)|(E' & Hr & _)]]); try discriminate;
    injection E' as E'; subst q'; unfold ac3_measure;
    change (length ((xi, xj) :: q)) with (S (length q)).
  - assert (Hd : domains st' xi = domains st xi).
    { rewrite H2; apply filter_all_true; intros x Hx.
      unfold revises in Hr. destruct (supported (domains st) xj x) eqn:Es; auto.
      rewrite <- Hr; apply existsb_exists; exists x; rewrite Es; auto. }
    rewrite (sum_cells_ext (fun c => length (domains st' c) * S (length (initialize_neighbors c)))
                           (fun c => length (domains st c) * S (length (initialize_neighbors c))));
      [lia|].
    intros c _; destruct (cell_eq_dec c xi); [subst; rewrite Hd|rewrite H1]; auto.
  - rewrite length_app, length_map.
    rewrite (Permutation_length (diff_iter_perm _ _)).
    pose proof (filter_length_le (fun c => negb (cell_eqb c xj)) (initialize_neighbors xi)).
    assert (Hlt : length (domains st' xi) < length (domains st xi))
      by (rewrite H2; apply filter_length_lt; exact Hr).
    pose proof (sum_cells_change (fun c => length (domains st c) * S (length (initialize_neighbors c)))
                  (fun c => length (domains st' c) * S (length (initialize_neighbors c)))
                  cells xi cells_nodup Hxi) as Hs.
    assert (Hfg : forall c, c <> xi ->
      length (domains st c) * S (length (initialize_neighbors c)) =
      length (domains st' c) * S (length (initialize_neighbors c)))
      by (intros c Hc; rewrite H1; auto).
    specialize (Hs Hfg); cbv beta in Hs.
    set (n := length (initialize_neighbors xi)) in *.
    set (a := length (domains st' xi)) in *.
    set (b := length (domains st xi)) in *.
    assert (b * S n >= a * S n + S n) by nia.
    lia.
Qed.

(** The fuel given by [ac3] is never exhausted: a run that returns
    [False] has emptied a domain. *)
Lemma ac3_loop_false (f : nat) (q : list arc) (st : state) :
  arcs_ok q -> neighbors st = initialize_neighbors ->
  ac3_measure initialize_neighbors (domains st) q < f ->
  fst (fst (ac3_loop diff_iter f q st)) = false ->
  exists c, In c cells /\ domains (snd (ac3_loop diff_iter f q st)) c = [].
Proof.
  revert q st; induction f as [|f IH]; intros q st Hq Hnb Hm; [lia|].
  destruct q as [|[xi xj] q]; [discriminate|].
  assert (Hn : In xj (initialize_neighbors xi)) by (apply (Hq (xi, xj)); left; auto).
  cbn [ac3_loop]; unfold bind.
  pose proof (ac3_body_spec xi xj q st Hn Hnb) as H.
  pose proof (ac3_body_arcs_ok xi xj q st Hq Hnb) as Hq'.
  pose proof (ac3_body_frame xi xj q st) as (_ & Hnb' & _).
  destruct (ac3_body diff_iter xi xj q st) as [[q'|] st1] eqn:E; cbn [fst snd] in *.
  - pose proof (ac3_body_measure xi xj q q' st st1 Hq Hnb E) as Hm'.
    assert (Hlt : ac3_measure initialize_neighbors (domains st1) q' < f).
    { eapply Nat.lt_le_trans; [exact Hm'|]. apply Nat.lt_succ_r; exact Hm. }
    specialize (IH q' st1 (Hq' q' eq_refl) ltac:(congruence) Hlt).
    destruct (ac3_loop diff_iter f q' st1) as [[b l] st2]; exact IH.
  - intros _; exists xi; split; [apply (nb_src_cells _ _ Hn)|].
    destruct H as (_ & _ & [(_ & _ & He)|[(E' & _)|(E' & _)]]); [exact He|discriminate..].
Qed.

(** *** Arc consistency at the end of a successful run *)

Definition arc_consistent (d : store) (xi xj : cell) : Prop :=
  forall x, In x (d xi) -> supported d xj x = true.

(** Every arc is pending or consistent. *)
Definition ac_inv (q : list arc) (st : state) : Prop :=
  neighbors st = initialize_neighbors /\ arcs_ok q /\
  (forall xi xj, In xj (initialize_neighbors xi) ->
     In (xi, xj) q \/ arc_consistent (domains st) xi xj).

Lemma supported_ext (d d' : store) (b : cell) (x : Z) :
  d' b = d b -> supported d' b x = supported d b x.
Proof. intros H; unfold supported; rewrite H; reflexivity. Qed.

Lemma supported_spec (d : store) (b : cell) (x : Z) :
  supported d b x = true <-> exists y, In y (d b) /\ x <> y.
Proof.
  unfold supported, constraint_satisfied; rewrite existsb_exists.
  split; intros [y [Hy H]]; exists y; split; auto.
  - destruct (Z.eqb_spec x y); simpl in H; congruence.
  - destruct (Z.eqb_spec x y); simpl; congruence.
Qed.

Lemma revises_false_same (d : store) (xi xj : cell) :
  revises d xi xj = false -> filter (supported d xj) (d xi) = d xi.
Proof.
  intros Hr; apply filter_all_true; intros x Hx.
  unfold revises in Hr. destruct (supported d xj x) eqn:Es; auto.
  rewrite <- Hr; apply existsb_exists; exists x; rewrite Es; auto.
Qed.

Lemma ac3_body_ac_inv (xi xj : cell) (q q' : list arc) (st st' : state) :
  ac_inv ((xi, xj) :: q) st ->
  ac3_body diff_iter xi xj q st = (Some q', st') -> ac_inv q' st'.
Proof.
  intros (Hnb & Hq & Hac) E.
  assert (Hn : In xj (initialize_neighbors xi)) by (apply (Hq (xi, xj)); left; auto).
  assert (Hij : xi <> xj) by (intros ->; exact (nb_irrefl _ _ Hn eq_refl)).
  pose proof (ac3_body_arcs_ok xi xj q st Hq Hnb q') as Hq'.
  rewrite E in Hq'; specialize (Hq' eq_refl).
  pose proof (ac3_body_frame xi xj q st) as (_ & Hnb' & _); rewrite E in Hnb'.
  cbn [snd] in Hnb'.
  pose proof (ac3_body_spec xi xj q st Hn Hnb) as H; rewrite E in H.
  destruct H as (H1 & H2 & [(E' & _)|[(E' & Hr)|(E' & Hr & Hnz)]]);
    try discriminate; injection E' as E'; subst q'.
  - (* nothing removed *)
    assert (Hd : forall c, domains st' c = domains st c).
    { intros c; destruct (cell_eq_dec c xi) as [->|Hc]; [|apply H1; auto].
      rewrite H2; apply revises_false_same; exact Hr. }
    split; [congruence|split; [exact Hq'|]].
    intros a b Hab; destruct (Hac a b Hab) as [[Ea|Ea]|Ea].
    + injection Ea as Ea1 Ea2; subst a b; right; intros x Hx.
      rewrite (supported_ext (domains st)) by apply Hd.
      rewrite Hd, <- (revises_false_same _ _ _ Hr) in Hx.
      apply filter_In in Hx; tauto.
    + left; auto.
    + right; intros x Hx; rewrite Hd in Hx.
      rewrite (supported_ext (domains st)) by apply Hd; auto.
  - (* some value removed from the domain of xi *)
    split; [congruence|split; [exact Hq'|]].
    assert (Hxj : domains st' xj = domains st xj) by (apply H1; auto).
    intros a b Hab.
    destruct (Hac a b Hab) as [[Ea|Ea]|Ea].
    + injection Ea as Ea1 Ea2; subst a b; right; intros x Hx.
      rewrite (supported_ext (domains st)) by exact Hxj.
      rewrite H2 in Hx; apply filter_In in Hx; tauto.
    + left; apply in_or_app; left; auto.
    + destruct (cell_eq_dec b xi) as [->|Hb].
      * destruct (cell_eq_dec a xj) as [->|Ha].
        -- right; intros w Hw. rewrite Hxj in Hw.
           unfold revises in Hr; apply existsb_exists in Hr as [x0 [Hx0 Hs0]].
           destruct (supported (domains st) xj x0) eqn:Es0; [discriminate|].
           assert (Hz : exists z, In z (domains st' xi)).
           { destruct (domains st' xi) as [|z zs]; [congruence|exists z; left; auto]. }
           destruct Hz as [z Hz].
           apply supported_spec; exists z; split; [exact Hz|].
           rewrite H2 in Hz; apply filter_In in Hz as [_ Hz].
           intros <-.
           assert (Hw0 : w = x0).
           { destruct (Z.eq_dec w x0) as [|Hne']; auto.
             assert (supported (domains st) xj x0 = true)
               by (apply supported_spec; exists w; auto).
             congruence. }
           subst w; congruence.
        -- left; apply in_or_app; right; apply in_map_iff; exists a; split; auto.
           apply (Permutation_in _ (Permutation_sym (diff_iter_perm _ _))).
           apply filter_In; split; [apply nb_sym; auto|].
           destruct (cell_eqb_spec a xj); [congruence|reflexivity].
      * right; intros x Hx.
        rewrite (supported_ext (domains st)) by (apply H1; auto).
        apply Ea.
        destruct (cell_eq_dec a xi) as [->|Ha].
        -- rewrite H2 in Hx; apply filter_In in Hx; tauto.
        -- rewrite H1 in Hx; auto.
Qed.

Lemma initial_queue_arcs_ok : arcs_ok (initial_queue set_iter initialize_neighbors).
Proof.
  intros [a b] H; unfold initial_queue in H; apply in_flat_map in H as [xi [_ H]].
  apply in_map_iff in H as [xj [E H]]; injection E as -> ->.
  apply (Permutation_in _ (set_iter_perm _)) in H; exact H.
Qed.

Lemma initial_queue_ac_inv (st : state) :
  neighbors st = initialize_neighbors ->
  ac_inv (initial_queue set_iter initialize_neighbors) st.
Proof.
  intros Hnb; split; [auto|split; [apply initial_queue_arcs_ok|]].
  intros xi xj H; left; unfold initial_queue; apply in_flat_map.
  exists xi; split; [apply (nb_src_cells _ _ H)|].
  apply in_map_iff; exists xj; split; [reflexivity|].
  apply (Permutation_in _ (Permutation_sym (set_iter_perm _))); exact H.
Qed.

(** A successful run ends arc consistent. *)
Lemma ac3_success_consistent (st : state) :
  neighbors st = initialize_neighbors ->
  fst (fst (ac3 set_iter diff_iter st)) = true ->
  ac_inv [] (snd (ac3 set_iter diff_iter st)).
Proof.
  intros Hnb; unfold ac3, bind, gets; rewrite Hnb.
  apply ac3_loop_success; [intros; eapply ac3_body_ac_inv; eauto|].
  apply initial_queue_ac_inv; auto.
Qed.

(** A run that returns [False] has emptied a domain. *)
Lemma ac3_false_empty (st : state) :
  neighbors st = initialize_neighbors ->
  fst (fst (ac3 set_iter diff_iter st)) = false ->
  exists c, In c cells /\ domains (snd (ac3 set_iter diff_iter st)) c = [].
Proof.
  intros Hnb; unfold ac3, bind, gets; rewrite Hnb.
  apply ac3_loop_false; [apply initial_queue_arcs_ok|auto|lia].
Qed.

Lemma ac3_frame_run (st : state) :
  ac3_frame st (snd (ac3 set_iter diff_iter st)).
Proof. unfold ac3, bind, gets; apply ac3_loop_frame. Qed.

(** A state invariant kept by every iteration is kept by the whole run. *)
Lemma ac3_inv_run (Q : state -> Prop) :
  (forall xi xj q st, arcs_ok ((xi, xj) :: q) -> neighbors st = initialize_neighbors ->
     Q st -> Q (snd (ac3_body diff_iter xi xj q st))) ->
  forall st, neighbors st = initialize_neighbors -> Q st ->
  Q (snd (ac3 set_iter diff_iter st)).
Proof.
  intros HQ st Hnb HS; unfold ac3, bind, gets; rewrite Hnb.
  apply ac3_loop_inv_all; auto using initial_queue_arcs_ok.
Qed.

(** The trace of a run lists the lengths of worklists that satisfy an
    invariant kept by the successful iterations. *)
Lemma ac3_loop_trace (P : list arc -> state -> Prop) :
  (forall xi xj q st q' st', P ((xi, xj) :: q) st ->
     ac3_body diff_iter xi xj q st = (Some q', st') -> P q' st') ->
  forall f q st, P q st -> forall n, In n (snd (fst (ac3_loop diff_iter f q st))) ->
  exists q' st', P q' st' /\ n = length q'.
Proof.
  intros HP f; induction f as [|f IH]; intros q st HS n; [simpl; tauto|].
  destruct q as [|[xi xj] q]; [simpl; tauto|].
  cbn [ac3_loop]; unfold bind.
  destruct (ac3_body diff_iter xi xj q st) as [[q'|] st1] eqn:E.
  - specialize (IH q' st1 (HP _ _ _ _ _ _ HS E) n).
    destruct (ac3_loop diff_iter f q' st1) as [[b l] st2]; cbn [fst snd ret].
    intros [<-|Hn]; [exists ((xi, xj) :: q), st; auto|auto].
  - unfold ret; cbn [fst snd]; intros [<-|[]]; exists ((xi, xj) :: q), st; auto.
Qed.

(** No domain is empty. *)
Definition nonempty (st : state) : Prop := forall c, In c cells -> domains st c <> [].

Lemma ac3_body_nonempty (xi xj : cell) (q q' : list arc) (st st' : state) :
  arcs_ok ((xi, xj) :: q) -> neighbors st = initialize_neighbors -> nonempty st ->
  ac3_body diff_iter xi xj q st = (Some q', st') -> nonempty st'.
Proof.
  intros Hq Hnb Hne E c Hc.
  assert (Hn : In xj (initialize_neighbors xi)) by (apply (Hq (xi, xj)); left; auto).
  pose proof (ac3_body_spec xi xj q st Hn Hnb) as H; rewrite E in H.
  destruct H as (H1 & H2 & [(E' & _)|[(E' & Hr)|(E' & Hr & Hnz)]]); try discriminate.
  - destruct (cell_eq_dec c xi) as [->|Hcx]; [|rewrite H1; auto].
    rewrite H2, revises_false_same by exact Hr; auto.
  - destruct (cell_eq_dec c xi) as [->|Hcx]; [auto|rewrite H1; auto].
Qed.

(** A valuation that gives neighbours different values and lies in the
    domains stays in them: [revise] only removes unsupported values. *)
Lemma ac3_body_keeps (g : cell -> Z) (xi xj : cell) (q : list arc) (st : state) :
  (forall a b, In b (initialize_neighbors a) -> g a <> g b) ->
  arcs_ok ((xi, xj) :: q) -> neighbors st = initialize_neighbors ->
  (forall c, In c cells -> In (g c) (domains st c)) ->
  forall c, In c cells -> In (g c) (domains (snd (ac3_body diff_iter xi xj q st)) c).
Proof.
  intros Hg Hq Hnb Hin c Hc.
  assert (Hn : In xj (initialize_neighbors xi)) by (apply (Hq (xi, xj)); left; auto).
  pose proof (ac3_body_spec xi xj q st Hn Hnb) as H.
  destruct (ac3_body diff_iter xi xj q st) as [r st']; cbn [snd].
  destruct H as (H1 & H2 & _).
  destruct (cell_eq_dec c xi) as [->|Hcx]; [|rewrite H1; auto].
  rewrite H2; apply filter_In; split; [auto|].
  apply supported_spec; exists (g xj); split; [apply Hin, (nb_in_cells _ _ Hn)|].
  apply Hg; exact Hn.
Qed.

Lemma ac3_run_keeps (g : cell -> Z) (st : state) :
  (forall a b, In b (initialize_neighbors a) -> g a <> g b) ->
  neighbors st = initialize_neighbors ->
  (forall c, In c cells -> In (g c) (domains st c)) ->
  forall c, In c cells -> In (g c) (domains (snd (ac3 set_iter diff_iter st)) c).
Proof.
  intros Hg Hnb Hin.
  apply (ac3_inv_run (fun st => forall c, In c cells -> In (g c) (domains st c))); auto.
  intros; apply ac3_body_keeps; auto.
Qed.

(** Such a valuation makes the run succeed. *)
Lemma ac3_run_true (g : cell -> Z) (st : state) :
  (forall a b, In b (initialize_neighbors a) -> g a <> g b) ->
  neighbors st = initialize_neighbors ->
  (forall c, In c cells -> In (g c) (domains st c)) ->
  fst (fst (ac3 set_iter diff_iter st)) = true.
Proof.
  intros Hg Hnb Hin.
  destruct (fst (fst (ac3 set_iter diff_iter st))) eqn:E; [reflexivity|].
  destruct (ac3_false_empty st Hnb E) as [c [Hc He]].
  pose proof (ac3_run_keeps g st Hg Hnb Hin c Hc) as H; rewrite He in H; destruct H.
Qed.

(** *** The iterations of the loop *)

Lemma ac3_iter_nil (n : nat) (s : state) : ac3_iter diff_iter n [] s = ([], s).
Proof. destruct n; reflexivity. Qed.

Lemma ac3_iter_add (m k : nat) (q : list arc) (s : state) :
  ac3_iter diff_iter (m + k) q s =
  ac3_iter diff_iter k (fst (ac3_iter diff_iter m q s)) (snd (ac3_iter diff_iter m q s)).
Proof.
  revert q s; induction m as [|m IH]; intros q s; [reflexivity|].
  destruct q as [|[xi xj] q]; cbn [Nat.add ac3_iter].
  - rewrite ac3_iter_nil; reflexivity.
  - destruct (ac3_body diff_iter xi xj q s) as [[q'|] s']; [apply IH|].
    rewrite ac3_iter_nil; reflexivity.
Qed.

Lemma ac3_iter_frame (n : nat) (q : list arc) (s : state) :
  ac3_frame s (snd (ac3_iter diff_iter n q s)).
Proof.
  revert q s; induction n as [|n IH]; intros q s; [apply ac3_frame_refl|].
  destruct q as [|[xi xj] q]; [apply ac3_frame_refl|]; cbn [ac3_iter].
  pose proof (ac3_body_frame xi xj q s) as H.
  destruct (ac3_body diff_iter xi xj q s) as [[q'|] s']; cbn [snd] in *; [|exact H].
  eapply ac3_frame_trans; [exact H|apply IH].
Qed.

Lemma ac3_loop_iter (f : nat) (q : list arc) (s : state) :
  snd (ac3_loop diff_iter f q s) = snd (ac3_iter diff_iter f q s).
Proof.
  revert q s; induction f as [|f IH]; intros q s; [reflexivity|].
  destruct q as [|[xi xj] q]; [reflexivity|]; cbn [ac3_loop ac3_iter]; unfold bind.
  destruct (ac3_body diff_iter xi xj q s) as [[q'|] s']; [|reflexivity].
  rewrite <- IH; destruct (ac3_loop diff_iter f q' s'); reflexivity.
Qed.

(** ** The backtracking search *)

(** *** The assignment dictionary *)

Lemma asg_find_In (c : cell) (a : assignment) (v : Z) :
  asg_find c a = Some v -> In (c, v) a.
Proof.
  induction a as [|[k w] a IH]; simpl; [discriminate|].
  destruct (cell_eqb_spec k c); [intros E; injection E as <-; subst; auto|auto].
Qed.

Lemma asg_mem_spec (c : cell) (a : assignment) :
  asg_mem c a = true <-> In c (map fst a).
Proof.
  unfold asg_mem; induction a as [|[k w] a IH]; simpl; [split; [discriminate|tauto]|].
  destruct (cell_eqb_spec k c); [split; auto|].
  rewrite IH; split; [auto|intros [E|H]; [congruence|auto]].
Qed.

Lemma asg_find_complete (c : cell) (v : Z) (a : assignment) :
  NoDup (map fst a) -> In (c, v) a -> asg_find c a = Some v.
Proof.
  induction a as [|[k w] a IH]; simpl; [tauto|].
  intros Hnd H; inversion Hnd as [|? ? Hk Hnd']; subst.
  destruct (cell_eqb_spec k c) as [->|Hkc].
  - destruct H as [E|H]; [injection E as ->; reflexivity|].
    exfalso; apply Hk; apply in_map_iff; exists (c, v); auto.
  - destruct H as [E|H]; [injection E as -> ->; congruence|auto].
Qed.

Lemma asg_get_find (c : cell) (a : assignment) (v : Z) :
  asg_find c a = Some v -> asg_get c a 0 = v.
Proof. unfold asg_get; intros ->; reflexivity. Qed.

(** Keys are distinct cells of the grid. *)
Definition keys_ok (a : assignment) : Prop :=
  NoDup (map fst a) /\ forall c, In c (map fst a) -> In c cells.

Lemma keys_ok_length (a : assignment) : keys_ok a -> length a <= 81.
Proof.
  intros [Hnd Hin]; rewrite <- (length_map fst), <- cells_length.
  apply NoDup_incl_length; auto.
Qed.

Lemma keys_ok_full (a : assignment) :
  keys_ok a -> length a = 81 -> forall c, In c cells -> In c (map fst a).
Proof.
  intros [Hnd Hin] Hl.
  apply (NoDup_length_incl Hnd); [rewrite length_map, Hl, cells_length; auto|exact Hin].
Qed.

Lemma keys_ok_cons (a : assignment) (c : cell) (v : Z) :
  keys_ok a -> In c cells -> asg_mem c a = false -> keys_ok ((c, v) :: a).
Proof.
  intros [Hnd Hin] Hc Hm; split; cbn [map fst].
  - constructor; auto. rewrite <- asg_mem_spec, Hm; discriminate.
  - intros c' [<-|H]; auto.
Qed.

(** *** The heuristics *)

Lemma py_min_by_in (f : cell -> nat) (best : cell) (l : list cell) :
  In (py_min_by f best l) (best :: l).
Proof.
  revert best; induction l as [|x l IH]; intros best; simpl; [auto|].
  destruct (f x <? f best).
  - destruct (IH x) as [E|E]; auto.
  - destruct (IH best) as [E|E]; auto.
Qed.

Lemma select_spec (a : assignment) (s : state) :
  snd (select_unassigned_variable a s) = s /\
  match fst (select_unassigned_variable a s) with
  | Some v => In v cells /\ asg_mem v a = false
  | None => forall c, In c cells -> asg_mem c a = true
  end.
Proof.
  unfold select_unassigned_variable, bind, gets.
  destruct (filter (fun v => negb (asg_mem v a)) cells) as [|v vs] eqn:E;
    unfold ret; cbn [fst snd]; split; auto.
  - intros c Hc; destruct (asg_mem c a) eqn:Em; auto.
    assert (H : In c (filter (fun v => negb (asg_mem v a)) cells))
      by (apply filter_In; rewrite Em; auto).
    rewrite E in H; destruct H.
  - assert (H : In (py_min_by (fun var => length (domains s var)) v vs)
                   (filter (fun v => negb (asg_mem v a)) cells))
      by (rewrite E; apply py_min_by_in).
    apply filter_In in H as [H1 H2]; split; auto; destruct (asg_mem _ a); auto.
Qed.

Lemma is_consistent_state (var : cell) (value : Z) (a : assignment) (s : state) :
  snd (is_consistent set_iter var value a s) = s.
Proof. reflexivity. Qed.

Lemma is_consistent_spec (var : cell) (value : Z) (a : assignment) (s : state) :
  snd (is_consistent set_iter var value a s) = s /\
  (fst (is_consistent set_iter var value a s) = true <->
   forall n w, In n (neighbors s var) -> asg_find n a = Some w -> w <> value).
Proof.
  unfold is_consistent, bind, gets, ret; cbn [fst snd]; split; [reflexivity|].
  rewrite forallb_forall; split.
  - intros H n w Hn Hw; specialize (H n).
    rewrite Hw in H; apply (Permutation_in _ (Permutation_sym (set_iter_perm _))) in Hn.
    specialize (H Hn); destruct (Z.eqb_spec w value); simpl in H; congruence.
  - intros H n Hn; apply (Permutation_in _ (set_iter_perm _)) in Hn.
    destruct (asg_find n a) as [w|] eqn:Hw; auto.
    specialize (H n w Hn Hw); destruct (Z.eqb_spec w value); simpl; congruence.
Qed.

Lemma insert_by_perm {A} (k : A -> nat) (x : A) (l : list A) :
  Permutation (insert_by k x l) (x :: l).
Proof.
  induction l as [|y l IH]; simpl; [auto|].
  destruct (k x <? k y); [auto|].
  eapply perm_trans; [apply perm_skip, IH|apply perm_swap].
Qed.

Lemma sort_by_key_perm {A} (k : A -> nat) (l : list A) :
  Permutation (sort_by_key k l) l.
Proof.
  unfold sort_by_key.
  assert (H : forall acc, Permutation (fold_left (fun acc x => insert_by k x acc) l acc)
                                      (l ++ acc)).
  { induction l as [|x l IH]; intros acc; simpl; [auto|].
    eapply perm_trans; [apply IH|].
    eapply perm_trans; [apply Permutation_app_head, insert_by_perm|].
    apply Permutation_sym, Permutation_middle. }
  rewrite <- app_nil_r; apply H.
Qed.

Lemma lcv_spec (var : cell) (a : assignment) (s : state) :
  snd (least_constraining_values set_iter var a s) = s /\
  Permutation (fst (least_constraining_values set_iter var a s)) (domains s var).
Proof.
  unfold least_constraining_values, bind, gets, ret; cbn [fst snd].
  split; [reflexivity|apply sort_by_key_perm].
Qed.

(** *** The loop over the candidate values *)

Lemma bind_eq {A B} (m : M A) (k : A -> M B) (s : state) :
  bind m k s = k (fst (m s)) (snd (m s)).
Proof. unfold bind; destruct (m s); reflexivity. Qed.

(** The solver's fields are untouched (only events are logged). *)
Definition bt_frame (s s' : state) : Prop :=
  puzzle s' = puzzle s /\ domains s' = domains s /\ neighbors s' = neighbors s.

Lemma bt_frame_refl (s : state) : bt_frame s s.
Proof. repeat split. Qed.

Lemma bt_frame_trans (s1 s2 s3 : state) :
  bt_frame s1 s2 -> bt_frame s2 s3 -> bt_frame s1 s3.
Proof. intros (A1 & A2 & A3) (B1 & B2 & B3); repeat split; congruence. Qed.

Lemma bt_frame_emit (s : state) (e : event) : bt_frame s (snd (emit e s)).
Proof. repeat split. Qed.

Lemma is_consistent_nb (var : cell) (value : Z) (a : assignment) (s s' : state) :
  neighbors s' = neighbors s ->
  fst (is_consistent set_iter var value a s') = fst (is_consistent set_iter var value a s).
Proof. intros H; unfold is_consistent, bind, gets, ret; cbn [fst snd]; rewrite H; reflexivity. Qed.

Section Try_values.

Variable bt : assignment -> M (option assignment).
Variable var : cell.
Variable a : assignment.

(** A relation between states kept by the logging and by the recursive
    calls is kept by the loop. *)
Lemma try_values_rel (Q : state -> state -> Prop) (vs : list Z) :
  (forall s, Q s s) -> (forall s1 s2 s3, Q s1 s2 -> Q s2 s3 -> Q s1 s3) ->
  (forall s v, Q s (snd (emit (Assign var v) s))) ->
  (forall s, Q s (snd (emit (Unassign var) s))) ->
  (forall v s, In v vs -> Q s (snd (bt ((var, v) :: a) s))) ->
  forall s, Q s (snd (try_values set_iter bt var a vs s)).
Proof.
  intros Hr Ht Ha Hu Hb; induction vs as [|v vs IH]; intros s; [apply Hr|].
  cbn [try_values]; rewrite bind_eq.
  rewrite is_consistent_state.
  destruct (fst (is_consistent set_iter var v a s)); [|apply IH; intros; apply Hb; right; auto].
  rewrite !bind_eq.
  set (s1 := snd (emit (Assign var v) s)).
  assert (H1 : Q s (snd (bt ((var, v) :: a) s1))) by (eapply Ht; [apply Ha|apply Hb; left; auto]).
  destruct (fst (bt ((var, v) :: a) s1)); [exact H1|].
  rewrite bind_eq; eapply Ht; [eapply Ht; [exact H1|apply Hu]|].
  apply IH; intros; apply Hb; right; auto.
Qed.

Hypothesis bt_fr : forall a' s, bt_frame s (snd (bt a' s)).

Lemma try_values_frame (vs : list Z) (s : state) :
  bt_frame s (snd (try_values set_iter bt var a vs s)).
Proof.
  apply try_values_rel; [apply bt_frame_refl|apply bt_frame_trans|intros; apply bt_frame_emit..|].
  intros; apply bt_fr.
Qed.

(** A result comes from a consistent candidate whose recursive call
    returned it. *)
Lemma try_values_some (vs : list Z) (s : state) (r : assignment) :
  fst (try_values set_iter bt var a vs s) = Some r ->
  exists v s', In v vs /\ fst (is_consistent set_iter var v a s) = true /\
    bt_frame s s' /\ fst (bt ((var, v) :: a) s') = Some r.
Proof.
  revert s; induction vs as [|v vs IH]; intros s; [discriminate|].
  cbn [try_values]; rewrite bind_eq.
  rewrite is_consistent_state.
  destruct (fst (is_consistent set_iter var v a s)) eqn:Ec.
  - rewrite !bind_eq.
    set (s1 := snd (emit (Assign var v) s)).
    destruct (fst (bt ((var, v) :: a) s1)) as [r'|] eqn:Eb.
    + unfold ret; cbn [fst]; intros E; injection E as <-.
      exists v, s1; split; [left; auto|split; [auto|split; [apply bt_frame_emit|auto]]].
    + rewrite bind_eq; intros H.
      set (s3 := snd (emit (Unassign var) (snd (bt ((var, v) :: a) s1)))) in H.
      assert (Hf : bt_frame s s3).
      { eapply bt_frame_trans; [eapply bt_frame_trans; [apply bt_frame_emit|apply bt_fr]|].
        apply bt_frame_emit. }
      destruct (IH s3 H) as (v' & s' & Hv & Hc & Hf' & Hr).
      exists v', s'; split; [right; auto|split; [|split; [eapply bt_frame_trans; eauto|auto]]].
      rewrite <- Hc; symmetry; apply is_consistent_nb; apply Hf.
  - intros H; destruct (IH s H) as (v' & s' & Hv & Hc & Hf' & Hr).
    exists v', s'; split; [right; auto|auto].
Qed.

(** A consistent candidate whose recursive call succeeds from every state
    with the same fields makes the loop succeed. *)
Lemma try_values_none (vs : list Z) (v : Z) (s : state) :
  In v vs -> fst (is_consistent set_iter var v a s) = true ->
  (forall s', bt_frame s s' -> fst (bt ((var, v) :: a) s') <> None) ->
  fst (try_values set_iter bt var a vs s) <> None.
Proof.
  revert s; induction vs as [|v0 vs IH]; intros s Hv Hc Hb; [destruct Hv|].
  cbn [try_values]; rewrite bind_eq.
  rewrite is_consistent_state.
  assert (Hnext : forall s', bt_frame s s' -> In v vs ->
             fst (try_values set_iter bt var a vs s') <> None).
  { intros s' Hf Hin; apply IH; auto.
    - rewrite <- Hc; apply is_consistent_nb; apply Hf.
    - intros s'' Hf'; apply Hb; eapply bt_frame_trans; eauto. }
  destruct (fst (is_consistent set_iter var v0 a s)) eqn:Ec.
  - rewrite !bind_eq.
    set (s1 := snd (emit (Assign var v0) s)).
    destruct (fst (bt ((var, v0) :: a) s1)) as [r'|] eqn:Eb; [unfold ret; discriminate|].
    rewrite bind_eq.
    destruct Hv as [<-|Hv].
    + exfalso; apply (Hb s1); [apply bt_frame_emit|exact Eb].
    + apply Hnext; auto.
      eapply bt_frame_trans; [eapply bt_frame_trans; [apply bt_frame_emit|apply bt_fr]|].
      apply bt_frame_emit.
  - destruct Hv as [<-|Hv]; [congruence|].
    apply Hnext; auto using bt_frame_refl.
Qed.

(** When every consistent candidate fails, the loop returns [None]. *)
Lemma try_values_exhausted (vs : list Z) (s : state) :
  (forall v s', In v vs -> bt_frame s s' -> fst (is_consistent set_iter var v a s') = true ->
     fst (bt ((var, v) :: a) s') = None) ->
  fst (try_values set_iter bt var a vs s) = None.
Proof.
  revert s; induction vs as [|v vs IH]; intros s Hb; [reflexivity|].
  cbn [try_values]; rewrite bind_eq.
  rewrite is_consistent_state.
  destruct (fst (is_consistent set_iter var v a s)) eqn:Ec.
  - rewrite !bind_eq.
    set (s1 := snd (emit (Assign var v) s)).
    assert (Hf1 : bt_frame s s1) by apply bt_frame_emit.
    rewrite (Hb v s1); [|left; auto|exact Hf1|].
    2: { rewrite <- Ec; apply is_consistent_nb; apply Hf1. }
    rewrite bind_eq; apply IH; intros v' s' Hv' Hf' Hc'; apply Hb; [right; auto| |auto].
    eapply bt_frame_trans; [|exact Hf'].
    eapply bt_frame_trans; [eapply bt_frame_trans; [exact Hf1|apply bt_fr]|].
    apply bt_frame_emit.
  - apply IH; intros v' s' Hv' Hf' Hc'; apply Hb; [right|..]; auto.
Qed.

End Try_values.

(** *** [backtrack] *)

Lemma backtrack_frame_gen (fuel : nat) :
  forall a s, bt_frame s (snd (backtrack set_iter fuel a s)).
Proof.
  induction fuel as [|f IH]; intros a s; cbn [backtrack]; rewrite bind_eq; cbv beta;
    set (s1 := snd (emit (Backtrack_call (length a)) s));
    apply (bt_frame_trans _ s1); try apply bt_frame_emit;
    destruct (length a =? 81); try apply bt_frame_refl.
  rewrite bind_eq.
  destruct (select_spec a s1) as [Hs _]; rewrite Hs.
  destruct (fst (select_unassigned_variable a s1)) as [var|]; [|apply bt_frame_refl].
  rewrite bind_eq; cbv beta.
  set (s2 := snd (emit (Select var) s1)).
  apply (bt_frame_trans _ s2); [apply bt_frame_emit|].
  rewrite bind_eq; destruct (lcv_spec var a s2) as [Hl _]; rewrite Hl.
  apply try_values_frame; exact IH.
Qed.

(** A partial solution: distinct cells of the grid, values from their
    domains, different values on neighbours. *)
Definition asg_ok (d : store) (a : assignment) : Prop :=
  keys_ok a /\ (forall c v, In (c, v) a -> In v (d c)) /\
  (forall c v c' v', In (c, v) a -> In (c', v') a -> In c' (initialize_neighbors c) -> v <> v').

Lemma asg_ok_nil (d : store) : asg_ok d [].
Proof.
  split; [split; [constructor|intros _ []]|split; [intros _ _ []|intros _ _ _ _ []]].
Qed.

Lemma asg_ok_cons (d : store) (a : assignment) (var : cell) (v : Z) :
  asg_ok d a -> In var cells -> asg_mem var a = false -> In v (d var) ->
  (forall n w, In n (initialize_neighbors var) -> asg_find n a = Some w -> w <> v) ->
  asg_ok d ((var, v) :: a).
Proof.
  intros (Hk & Hv & Hc) Hvar Hm Hd Hcons.
  split; [apply keys_ok_cons; auto|split].
  - intros c w [E|H]; [injection E as -> ->; auto|auto].
  - intros c w c' w' [E|H] [E'|H'] Hn.
    + injection E as -> ->; injection E' as -> ->.
      exfalso; exact (nb_irrefl _ _ Hn eq_refl).
    + injection E as -> ->.
      intros ->; apply (Hcons c' w'); auto.
      apply asg_find_complete; [apply Hk|auto].
    + injection E' as -> ->.
      apply (Hcons c w); [apply nb_sym; auto|].
      apply asg_find_complete; [apply Hk|auto].
    + apply (Hc c w c' w'); auto.
Qed.

(** A result of [backtrack] from a partial solution is a solution with 81
    entries. *)
Lemma backtrack_sound (fuel : nat) :
  forall a s r, neighbors s = initialize_neighbors -> asg_ok (domains s) a ->
  fst (backtrack set_iter fuel a s) = Some r -> length r = 81 /\ asg_ok (domains s) r.
Proof.
  induction fuel as [|f IH]; intros a s r Hnb Ha; cbn [backtrack]; rewrite bind_eq; cbv beta;
    set (s1 := snd (emit (Backtrack_call (length a)) s));
    destruct (length a =? 81) eqn:El;
    try (unfold ret; cbn [fst]; intros E; injection E as <-; split; auto;
         apply Nat.eqb_eq; exact El);
    try (unfold ret; discriminate).
  rewrite bind_eq.
  destruct (select_spec a s1) as [Hs Hsel]; rewrite Hs.
  destruct (fst (select_unassigned_variable a s1)) as [var|]; [|unfold ret; discriminate].
  destruct Hsel as [Hvar Hm].
  rewrite bind_eq; cbv beta.
  set (s2 := snd (emit (Select var) s1)).
  rewrite bind_eq; destruct (lcv_spec var a s2) as [Hl Hp]; rewrite Hl.
  intros H.
  destruct (try_values_some (backtrack set_iter f) var a (backtrack_frame_gen f) _ s2 r H)
    as (v & s' & Hv & Hc & (Hf1 & Hf2 & Hf3) & Hr).
  assert (Hd : domains s' = domains s) by (rewrite Hf2; reflexivity).
  rewrite <- Hd; apply (IH ((var, v) :: a) s' r); [rewrite Hf3; exact Hnb| |exact Hr].
  rewrite Hd; apply asg_ok_cons; auto.
  - apply (Permutation_in _ Hp) in Hv; exact Hv.
  - intros n w Hn Hw; apply (proj1 (proj2 (is_consistent_spec var v a s2)) Hc n w); auto.
    cbn [s2 s1 emit snd neighbors]; rewrite Hnb; exact Hn.
Qed.

Lemma backtrack_length (fuel : nat) :
  forall a s r, fst (backtrack set_iter fuel a s) = Some r -> length r = 81.
Proof.
  induction fuel as [|f IH]; intros a s r; cbn [backtrack]; rewrite bind_eq; cbv beta;
    set (s1 := snd (emit (Backtrack_call (length a)) s));
    destruct (length a =? 81) eqn:El;
    try (unfold ret; cbn [fst]; intros E; injection E as <-; apply Nat.eqb_eq; exact El);
    try (unfold ret; discriminate).
  rewrite bind_eq.
  destruct (fst (select_unassigned_variable a s1)) as [var|]; [|unfold ret; discriminate].
  rewrite bind_eq; cbv beta; rewrite bind_eq; intros H.
  destruct (try_values_some (backtrack set_iter f) var a (backtrack_frame_gen f) _ _ r H)
    as (v & s' & _ & _ & _ & Hr).
  exact (IH _ _ _ Hr).
Qed.

(** [backtrack] finds a solution when one extends the assignment. *)
Lemma backtrack_complete (g : cell -> Z) (fuel : nat) :
  forall a s, neighbors s = initialize_neighbors ->
  (forall x y, In y (initialize_neighbors x) -> g x <> g y) ->
  (forall c, In c cells -> In (g c) (domains s c)) ->
  keys_ok a -> (forall c v, In (c, v) a -> g c = v) -> 81 <= fuel + length a ->
  fst (backtrack set_iter fuel a s) <> None.
Proof.
  induction fuel as [|f IH]; intros a s Hnb Hg Hin Hk Ha Hf; cbn [backtrack]; rewrite bind_eq;
    cbv beta; set (s1 := snd (emit (Backtrack_call (length a)) s));
    destruct (length a =? 81) eqn:El; try (unfold ret; discriminate);
    pose proof (keys_ok_length a Hk) as Hle; apply Nat.eqb_neq in El; [lia|].
  rewrite bind_eq.
  destruct (select_spec a s1) as [Hs Hsel]; rewrite Hs.
  destruct (fst (select_unassigned_variable a s1)) as [var|].
  2: { exfalso. assert (H : length cells <= length (map fst a)).
       { apply NoDup_incl_length; [apply cells_nodup|].
         intros c Hc; apply asg_mem_spec, Hsel, Hc. }
       rewrite cells_length, length_map in H; lia. }
  destruct Hsel as [Hvar Hm].
  rewrite bind_eq; cbv beta.
  set (s2 := snd (emit (Select var) s1)).
  rewrite bind_eq; destruct (lcv_spec var a s2) as [Hl Hp]; rewrite Hl.
  apply (try_values_none (backtrack set_iter f) var a (backtrack_frame_gen f) _ (g var)).
  - apply (Permutation_in _ (Permutation_sym Hp)); apply Hin; exact Hvar.
  - apply (proj2 (proj2 (is_consistent_spec var (g var) a s2))).
    intros n w Hn Hw; apply asg_find_In in Hw.
    rewrite <- (Ha _ _ Hw); apply not_eq_sym, Hg.
    cbn [s2 s1 emit snd neighbors] in Hn; rewrite Hnb in Hn; exact Hn.
  - intros s' (Hf1 & Hf2 & Hf3); apply IH.
    + rewrite Hf3; exact Hnb.
    + exact Hg.
    + rewrite Hf2; exact Hin.
    + apply keys_ok_cons; auto.
    + intros c v [E|H]; [injection E as -> ->; reflexivity|auto].
    + cbn [length]; lia.
Qed.

(** Every call of [backtrack] made from an assignment of distinct cells
    logs an assignment size of at most 81. *)
Definition depth_ok (l : list event) : Prop :=
  forall n, In (Backtrack_call n) l -> n <= 81.

Definition bt_depth (s s' : state) : Prop :=
  exists l, log s' = l ++ log s /\ depth_ok l.

Lemma bt_depth_refl (s : state) : bt_depth s s.
Proof. exists []; split; [reflexivity|intros n []]. Qed.

Lemma bt_depth_trans (s1 s2 s3 : state) : bt_depth s1 s2 -> bt_depth s2 s3 -> bt_depth s1 s3.
Proof.
  intros (l1 & A1 & B1) (l2 & A2 & B2); exists (l2 ++ l1); split.
  - rewrite A2, A1, app_assoc; reflexivity.
  - intros n Hn; apply in_app_or in Hn as [Hn|Hn]; auto.
Qed.

Lemma bt_depth_emit (s : state) (e : event) :
  (forall n, e = Backtrack_call n -> n <= 81) -> bt_depth s (snd (emit e s)).
Proof.
  intros He; exists [e]; split; [reflexivity|].
  intros n [E|[]]; apply He; auto.
Qed.

Lemma backtrack_depth (fuel : nat) :
  forall a s, keys_ok a -> bt_depth s (snd (backtrack set_iter fuel a s)).
Proof.
  induction fuel as [|f IH]; intros a s Hk; cbn [backtrack]; rewrite bind_eq; cbv beta;
    set (s1 := snd (emit (Backtrack_call (length a)) s));
    apply (bt_depth_trans _ s1);
    try (apply bt_depth_emit; intros n E; injection E as <-; apply keys_ok_length; exact Hk);
    destruct (length a =? 81); try apply bt_depth_refl.
  rewrite bind_eq.
  destruct (select_spec a s1) as [Hs Hsel]; rewrite Hs.
  destruct (fst (select_unassigned_variable a s1)) as [var|]; [|apply bt_depth_refl].
  destruct Hsel as [Hvar Hm].
  rewrite bind_eq; cbv beta.
  set (s2 := snd (emit (Select var) s1)).
  apply (bt_depth_trans _ s2); [apply bt_depth_emit; discriminate|].
  rewrite bind_eq; destruct (lcv_spec var a s2) as [Hl _]; rewrite Hl.
  apply try_values_rel.
  - apply bt_depth_refl.
  - apply bt_depth_trans.
  - intros; apply bt_depth_emit; discriminate.
  - intros; apply bt_depth_emit; discriminate.
  - intros v s' _; apply IH, keys_ok_cons; auto.
Qed.

(** ** Solved grids *)

Lemma full_domain_nodup : NoDup full_domain.
Proof. unfold full_domain; repeat constructor; simpl; lia. Qed.

Lemma full_domain_spec (v : Z) : In v full_domain <-> (1 <= v <= 9)%Z.
Proof. unfold full_domain; simpl; split; intros H; lia. Qed.

Lemma each_once_perm (l : list Z) :
  each_once l -> length l = 9 -> Permutation full_domain l.
Proof.
  intros H Hl; apply NoDup_Permutation_bis; [apply full_domain_nodup|rewrite Hl; auto|].
  intros v Hv; apply full_domain_spec in Hv.
  apply (count_occ_In Z.eq_dec); rewrite H; auto.
Qed.

Lemma perm_each_once (l : list Z) : Permutation full_domain l -> each_once l.
Proof.
  intros Hp v Hv; rewrite <- (proj1 (Permutation_count_occ Z.eq_dec _ _) Hp).
  assert (E : v = 1%Z \/ v = 2%Z \/ v = 3%Z \/ v = 4%Z \/ v = 5%Z \/ v = 6%Z \/
              v = 7%Z \/ v = 8%Z \/ v = 9%Z) by lia.
  repeat destruct E as [->|E]; try reflexivity; subst; reflexivity.
Qed.

Lemma NoDup_map_on (f : cell -> Z) (l : list cell) :
  NoDup l -> (forall a b, In a l -> In b l -> f a = f b -> a = b) -> NoDup (map f l).
Proof.
  induction l as [|x l IH]; intros Hnd Hinj; cbn [map]; [constructor|].
  inversion Hnd as [|? ? Hx Hnd']; subst; constructor.
  - intros H; apply in_map_iff in H as [y [Hy Hin]].
    assert (y = x) by (apply Hinj; [right|left|]; auto); subst; contradiction.
  - apply IH; auto; intros a b Ha Hb; apply Hinj; right; auto.
Qed.

Lemma NoDup_map_inj_on (f : cell -> Z) (l : list cell) (a b : cell) :
  NoDup (map f l) -> In a l -> In b l -> f a = f b -> a = b.
Proof.
  induction l as [|x l IH]; cbn [map In]; [tauto|].
  intros Hnd Ha Hb E; inversion Hnd as [|? ? Hx Hnd']; subst.
  destruct Ha as [<-|Ha], Hb as [<-|Hb]; auto.
  - exfalso; apply Hx; rewrite E; apply in_map; auto.
  - exfalso; apply Hx; rewrite <- E; apply in_map; auto.
Qed.

Lemma unit_facts (u : list cell) : In u units ->
  length u = 9 /\ NoDup u /\ (forall a, In a u -> In a cells) /\
  (forall a b, In a u -> In b u -> a <> b -> In b (initialize_neighbors a)).
Proof.
  intros Hu; pose proof units_all as H; rewrite forallb_forall in H.
  specialize (H u Hu); unfold unit_check in H.
  apply andb_prop in H as [H H3]; apply andb_prop in H as [H1 H2].
  rewrite forallb_forall in H3.
  split; [apply Nat.eqb_eq; auto|split; [apply nodupb_spec; auto|split]].
  - intros a Ha; specialize (H3 a Ha); apply andb_prop in H3 as [H3 _].
    apply set_mem_spec; auto.
  - intros a b Ha Hb Hab; specialize (H3 a Ha); apply andb_prop in H3 as [_ H3].
    rewrite forallb_forall in H3; specialize (H3 b Hb).
    destruct (cell_eqb_spec a b); [congruence|apply set_mem_spec; auto].
Qed.

Lemma nb_share_unit (a b : cell) : In b (initialize_neighbors a) ->
  exists u, In u units /\ In a u /\ In b u.
Proof.
  intros H.
  assert (A : forallb nb_unit cells = true) by (vm_compute; reflexivity).
  rewrite forallb_forall in A; specialize (A a (nb_src_cells _ _ H)).
  unfold nb_unit in A; rewrite forallb_forall in A; specialize (A b H).
  apply existsb_exists in A as [u [Hu A]]; apply andb_prop in A as [A1 A2].
  exists u; split; [auto|split; apply set_mem_spec; auto].
Qed.

Lemma cell_in_unit (c : cell) : In c cells -> exists u, In u units /\ In c u.
Proof.
  intros H.
  assert (A : forallb in_some_unit cells = true) by (vm_compute; reflexivity).
  rewrite forallb_forall in A; specialize (A c H).
  apply existsb_exists in A as [u [Hu A]]; exists u; split; [auto|apply set_mem_spec; auto].
Qed.

Lemma grid_of_val (f : cell -> Z) (c : cell) : In c cells -> cell_val (grid_of f) c = f c.
Proof.
  destruct c as [i j]; intros H; apply in_cells in H as [Hi Hj].
  unfold cell_val, grid_of; cbn [fst snd].
  rewrite (nth_indep _ [] (map (fun j => f (0, j)) (seq 0 9)))
    by (rewrite length_map, length_seq; lia).
  rewrite (map_nth (fun i => map (fun j => f (i, j)) (seq 0 9))), seq_nth by lia.
  rewrite (nth_indep _ 0%Z (f (0 + i, 0))) by (rewrite length_map, length_seq; lia).
  rewrite (map_nth (fun j => f (0 + i, j))), seq_nth by lia.
  reflexivity.
Qed.

Lemma grid_of_9x9 (f : cell -> Z) : is_9x9 (grid_of f).
Proof.
  unfold grid_of; split; [rewrite length_map, length_seq; reflexivity|].
  apply Forall_forall; intros row Hr; apply in_map_iff in Hr as [i [<- _]].
  rewrite length_map, length_seq; reflexivity.
Qed.

(** Values 1-9 that differ on neighbours make a solved grid. *)
Lemma grid_of_solved (f : cell -> Z) :
  (forall c, In c cells -> In (f c) full_domain) ->
  (forall a b, In b (initialize_neighbors a) -> f a <> f b) ->
  sudoku_solved (grid_of f).
Proof.
  intros Hv Hn; split; [apply grid_of_9x9|]; intros u Hu.
  destruct (unit_facts u Hu) as (Hl & Hnd & Hc & Hnb).
  rewrite (map_ext_in _ f u) by (intros c Hcu; apply grid_of_val; auto).
  apply perm_each_once, Permutation_sym, NoDup_Permutation_bis.
  - apply NoDup_map_on; auto.
    intros a b Ha Hb E; destruct (cell_eq_dec a b); auto.
    exfalso; exact (Hn a b (Hnb a b Ha Hb n) E).
  - rewrite length_map, Hl; auto.
  - intros v Hin; apply in_map_iff in Hin as [c [<- Hcu]]; auto.
Qed.

(** In a solved grid the cells hold 1-9 and neighbours differ. *)
Lemma solved_facts (g : list (list Z)) : sudoku_solved g ->
  (forall c, In c cells -> In (cell_val g c) full_domain) /\
  (forall a b, In b (initialize_neighbors a) -> cell_val g a <> cell_val g b).
Proof.
  intros [_ Hs]; split.
  - intros c Hc; destruct (cell_in_unit c Hc) as [u [Hu Hcu]].
    destruct (unit_facts u Hu) as (Hl & _).
    pose proof (each_once_perm _ (Hs u Hu) ltac:(rewrite length_map; auto)) as Hp.
    apply (Permutation_in _ (Permutation_sym Hp)), in_map; auto.
  - intros a b Hab E; destruct (nb_share_unit a b Hab) as [u [Hu [Ha Hb]]].
    destruct (unit_facts u Hu) as (Hl & _).
    pose proof (each_once_perm _ (Hs u Hu) ltac:(rewrite length_map; auto)) as Hp.
    pose proof (Permutation_NoDup Hp full_domain_nodup) as Hnd.
    exact (nb_irrefl _ _ Hab (eq_sym (NoDup_map_inj_on _ _ _ _ Hnd Ha Hb E))).
Qed.

Lemma grid_ext (g1 g2 : list (list Z)) : is_9x9 g1 -> is_9x9 g2 ->
  (forall i j, i < 9 -> j < 9 -> cell_val g1 (i, j) = cell_val g2 (i, j)) -> g1 = g2.
Proof.
  intros [L1 F1] [L2 F2] H; apply (nth_ext _ _ [] []); [congruence|].
  intros i Hi; rewrite L1 in Hi.
  rewrite Forall_forall in F1, F2.
  assert (R1 : length (nth i g1 []) = 9) by (apply F1, nth_In; lia).
  assert (R2 : length (nth i g2 []) = 9) by (apply F2, nth_In; lia).
  apply (nth_ext _ _ 0%Z 0%Z); [congruence|].
  intros j Hj; rewrite R1 in Hj; apply (H i j Hi Hj).
Qed.

(** ** The solver object built from a grid *)

Lemma init_doms_spec (p : grid) (cs : list cell) (d d' : store) :
  init_doms p cs d = Some d' ->
  forall c, (In c cs /\ exists v, py_get2 p (fst c) (snd c) = Some v /\
                         d' c = (if Z.eqb v 0 then full_domain else [v])) \/
            (~ In c cs /\ d' c = d c).
Proof.
  revert d; induction cs as [|[i j] cs IH]; intros d; cbn [init_doms].
  - intros E; injection E as <-; intros c; right; split; [intros []|reflexivity].
  - destruct (py_get2 p i j) as [v0|] eqn:Ep; [|discriminate].
    intros E c; destruct (IH _ E c) as [[Hc Hv]|[Hc Hd]].
    + left; split; [right; auto|auto].
    + rewrite Hd; unfold upd.
      destruct (cell_eqb_spec c (i, j)) as [->|Hne].
      * left; split; [left; auto|exists v0; split; auto].
      * right; split; [intros [E'|E']; [congruence|auto]|reflexivity].
Qed.

Lemma init_doms_some (p : grid) (cs : list cell) (d : store) :
  (forall i j, In (i, j) cs -> py_get2 p i j <> None) ->
  exists d', init_doms p cs d = Some d'.
Proof.
  revert d; induction cs as [|[i j] cs IH]; intros d H; cbn [init_doms]; [eauto|].
  destruct (py_get2 p i j) as [v0|] eqn:Ep.
  - apply IH; intros; apply H; right; auto.
  - exfalso; apply (H i j); [left|]; auto.
Qed.

Lemma py_get2_9x9 (p : grid) (i j : nat) :
  is_9x9 p -> i < 9 -> j < 9 -> py_get2 p i j = Some (cell_val p (i, j)).
Proof.
  intros [Hl Hf] Hi Hj; unfold py_get2, cell_val; cbn [fst snd].
  rewrite (nth_error_nth' p []) by lia.
  rewrite Forall_forall in Hf.
  apply nth_error_nth'; rewrite (Hf (nth i p [])); [lia|apply nth_In; lia].
Qed.

(** The object built by [SudokuCSP]: a domain per cell, [set(range(1, 10))]
    for a 0 and the singleton of a clue. *)
Lemma SudokuCSP_spec (p : grid) (st : state) : SudokuCSP p = Some st ->
  puzzle st = p /\ neighbors st = initialize_neighbors /\ log st = [] /\
  forall c, In c cells -> exists v, py_get2 p (fst c) (snd c) = Some v /\
    domains st c = (if Z.eqb v 0 then full_domain else [v]).
Proof.
  unfold SudokuCSP, initialize_domains.
  destruct (init_doms p cells (fun _ => [])) as [d|] eqn:E; [|discriminate].
  intros H; injection H as <-; cbn [puzzle neighbors log domains].
  split; [reflexivity|split; [reflexivity|split; [reflexivity|]]].
  intros c Hc; destruct (init_doms_spec _ _ _ _ E c) as [[_ H]|[H _]]; [exact H|contradiction].
Qed.

Lemma SudokuCSP_9x9 (p : grid) : is_9x9 p -> exists st, SudokuCSP p = Some st.
Proof.
  intros H; unfold SudokuCSP, initialize_domains.
  destruct (init_doms_some p cells (fun _ => [])) as [d E].
  - intros i j Hc; apply in_cells in Hc as [Hi Hj]; rewrite py_get2_9x9; auto; discriminate.
  - rewrite E; eauto.
Qed.

(** For a grid of 0s and clues 1-9. *)
Lemma SudokuCSP_wf (p : grid) (st : state) : well_formed p -> SudokuCSP p = Some st ->
  forall c, In c cells ->
    domains st c <> [] /\ incl (domains st c) full_domain /\
    (cell_val p c <> 0%Z -> domains st c = [cell_val p c]).
Proof.
  intros [H9 Hv] E c Hc; destruct (SudokuCSP_spec p st E) as (_ & _ & _ & H).
  destruct (H c Hc) as [v [Ev Ed]]; destruct c as [i j]; cbn [fst snd] in Ev.
  apply in_cells in Hc as [Hi Hj].
  rewrite py_get2_9x9 in Ev by auto; injection Ev as Ev; subst v.
  specialize (Hv i j Hi Hj).
  rewrite Ed; destruct (Z.eqb_spec (cell_val p (i, j)) 0) as [E0|E0].
  - split; [discriminate|split; [intros x; auto|intros; contradiction]].
  - split; [discriminate|split; [|auto]].
    intros x [<-|[]]; apply full_domain_spec; lia.
Qed.

(** Every domain of the built object is non-empty and holds no 0. *)
Lemma SudokuCSP_nonzero (p : grid) (st : state) : SudokuCSP p = Some st ->
  forall c, In c cells -> domains st c <> [] /\ ~ In 0%Z (domains st c) /\
    length (domains st c) <= 9.
Proof.
  intros E c Hc; destruct (SudokuCSP_spec p st E) as (_ & _ & _ & H).
  destruct (H c Hc) as [v [_ Ed]]; rewrite Ed.
  destruct (Z.eqb_spec v 0).
  - split; [discriminate|split; [rewrite full_domain_spec; lia|simpl; lia]].
  - split; [discriminate|split; [intros [E'|[]]; congruence|simpl; lia]].
Qed.

(** ** [solve_sudoku] *)

Lemma is_solved_eq (s : state) :
  is_solved s = (forallb (fun c => Nat.eqb (length (domains s c)) 1) cells, s).
Proof. reflexivity. Qed.

(** The three outcomes of [solve_sudoku]. *)
Lemma solve_outcome (p : grid) (r : option (list (list Z))) (ql : list nat) (lg : list event) :
  solve_sudoku set_iter diff_iter p = Some (r, ql, lg) ->
  exists st, SudokuCSP p = Some st /\
  let st1 := snd (ac3 set_iter diff_iter st) in
  ql = snd (fst (ac3 set_iter diff_iter st)) /\
  ((fst (fst (ac3 set_iter diff_iter st)) = false /\ r = None /\ lg = log st1) \/
   (fst (fst (ac3 set_iter diff_iter st)) = true /\ fst (is_solved st1) = true /\
    r = Some (grid_of (fun c => py_next (domains st1 c))) /\
    exists msg, lg = Out msg :: log st1) \/
   (fst (fst (ac3 set_iter diff_iter st)) = true /\ fst (is_solved st1) = false /\
    exists msg, let st2 := snd (emit (Out msg) st1) in
    r = match fst (backtracking_search set_iter st2) with
        | Some ((_ :: _) as sol) => Some (grid_of (fun c => asg_get c sol 0%Z))
        | _ => None
        end /\
    lg = log (snd (backtracking_search set_iter st2)))).
Proof.
  unfold solve_sudoku; destruct (SudokuCSP p) as [st|]; [|discriminate].
  intros E; exists st; split; [reflexivity|]; cbv zeta.
  revert E; unfold solve_m; rewrite bind_eq; cbv beta zeta.
  destruct (ac3 set_iter diff_iter st) as [[b ql0] st1]; cbn [fst snd].
  destruct b.
  - rewrite bind_eq, is_solved_eq; cbv beta; cbn [fst snd].
    destruct (forallb (fun c => Nat.eqb (length (domains st1 c)) 1) cells).
    + unfold print; rewrite bind_eq; cbv beta; rewrite bind_eq; cbv beta.
      unfold ret; cbn [fst snd].
      intros E; injection E as <- <- <-; split; [reflexivity|right; left].
      split; [reflexivity|split; [reflexivity|split; [reflexivity|]]].
      eexists; reflexivity.
    + unfold print; rewrite bind_eq; cbv beta; rewrite bind_eq; cbv beta.
      set (m := "Sudoku not fully solved by CSP....Running Backtrack algorithm"%string).
      intros E.
      assert (Hq : ql = ql0).
      { destruct (fst (backtracking_search set_iter _)) as [[|x l]|];
          unfold ret in E; injection E as _ <- _; reflexivity. }
      split; [exact Hq|right; right; split; [reflexivity|split; [reflexivity|]]].
      exists m; cbv zeta.
      destruct (backtracking_search set_iter (snd (emit (Out m) st1))) as [[[|x l]|] st2];
        unfold ret in E; cbn [fst snd] in E |- *; injection E as <- _ <-; auto.
  - unfold ret; intros E; injection E as <- <- <-.
    split; [reflexivity|left; auto].
Qed.

Lemma ac3_success_nonempty (st : state) :
  neighbors st = initialize_neighbors -> nonempty st ->
  fst (fst (ac3 set_iter diff_iter st)) = true -> nonempty (snd (ac3 set_iter diff_iter st)).
Proof.
  intros Hnb Hne; unfold ac3, bind, gets; rewrite Hnb.
  intros H.
  refine (proj2 (proj2 (ac3_loop_success
    (fun q s => arcs_ok q /\ neighbors s = initialize_neighbors /\ nonempty s) _ _ _ _ _ H))).
  - intros xi xj q s q' s' (Hq & Hn & He) E; split; [|split].
    + apply (ac3_body_arcs_ok xi xj q s Hq Hn); rewrite E; reflexivity.
    + pose proof (ac3_body_frame xi xj q s) as (_ & F & _); rewrite E in F; cbn [snd] in F; congruence.
    + exact (ac3_body_nonempty xi xj q q' s s' Hq Hn He E).
  - split; [apply initial_queue_arcs_ok|split; auto].
Qed.

Lemma ac3_run_incl (st : state) (c : cell) :
  incl (domains (snd (ac3 set_iter diff_iter st)) c) (domains st c).
Proof.
  destruct (ac3_frame_run st) as (_ & _ & H & _); apply filtered_from_incl, H.
Qed.

Lemma nb_same_row (i j1 j2 : nat) :
  i < 9 -> j1 < 9 -> j2 < 9 -> j1 <> j2 -> In (i, j2) (initialize_neighbors (i, j1)).
Proof.
  intros Hi H1 H2 Hne.
  pose proof (nbrs_exact_of (i, j1) ltac:(apply in_cells; auto)) as E.
  unfold nbrs_exact in E; rewrite forallb_forall in E.
  specialize (E (i, j2) ltac:(apply in_cells; auto)).
  apply Bool.eqb_prop in E; apply set_mem_spec; rewrite E.
  destruct (cell_eqb_spec (i, j2) (i, j1)) as [E'|_]; [injection E'; lia|].
  unfold shares_unitb; cbn [fst snd]; rewrite Nat.eqb_refl; reflexivity.
Qed.

(** A valuation from the final domains that differs on neighbours is a
    valid completion of a well-formed grid. *)
Lemma valid_of_fn (p : grid) (st : state) (d1 : store) (f : cell -> Z) :
  well_formed p -> SudokuCSP p = Some st ->
  (forall c, In c cells -> incl (d1 c) (domains st c)) ->
  (forall c, In c cells -> In (f c) (d1 c)) ->
  (forall a b, In b (initialize_neighbors a) -> f a <> f b) ->
  valid_completion p (grid_of f).
Proof.
  intros Hwf E Hinc Hin Hn.
  pose proof (SudokuCSP_wf p st Hwf E) as W.
  split.
  - apply grid_of_solved; auto.
    intros c Hc; destruct (W c Hc) as (_ & W2 & _); apply W2, Hinc, Hin; auto.
  - intros i j Hi Hj Hv.
    assert (Hc : In (i, j) cells) by (apply in_cells; auto).
    rewrite grid_of_val by auto.
    destruct (W _ Hc) as (_ & _ & W3).
    pose proof (Hinc _ Hc _ (Hin _ Hc)) as H; rewrite (W3 Hv) in H.
    destruct H as [H|[]]; auto.
Qed.

(** A complete result of [backtrack] as a valuation. *)
Lemma asg_full_fn (d : store) (sol : assignment) :
  asg_ok d sol -> length sol = 81 ->
  (forall c, In c cells -> exists v, asg_find c sol = Some v /\ In v (d c)) /\
  (forall a b, In b (initialize_neighbors a) -> asg_get a sol 0 <> asg_get b sol 0).
Proof.
  intros Ha Hl; destruct Ha as (Hk & Hv & Hc).
  assert (Hf : forall c, In c cells -> exists v, In (c, v) sol).
  { intros c Hcc; pose proof (keys_ok_full sol Hk Hl c Hcc) as H.
    apply in_map_iff in H as [[c' v] [E H]]; cbn [fst] in E; subst c'; eauto. }
  split.
  - intros c Hcc; destruct (Hf c Hcc) as [v Hin]; exists v; split; [|eauto].
    apply asg_find_complete; [apply Hk|auto].
  - intros a b Hab.
    destruct (Hf a (nb_src_cells _ _ Hab)) as [va Ha].
    destruct (Hf b (nb_in_cells _ _ Hab)) as [vb Hb].
    rewrite (asg_get_find a sol va), (asg_get_find b sol vb)
      by (apply asg_find_complete; [apply Hk|auto]).
    apply (Hc a va b vb); auto.
Qed.

(** Singleton final domains as a valuation. *)
Lemma singleton_fn (st1 : state) :
  ac_inv [] st1 -> fst (is_solved st1) = true ->
  (forall c, In c cells -> domains st1 c = [py_next (domains st1 c)]) /\
  (forall a b, In b (initialize_neighbors a) ->
     py_next (domains st1 a) <> py_next (domains st1 b)).
Proof.
  intros (_ & _ & Hac) Hs; rewrite is_solved_eq in Hs; cbn [fst] in Hs.
  rewrite forallb_forall in Hs.
  assert (H1 : forall c, In c cells -> domains st1 c = [py_next (domains st1 c)]).
  { intros c Hc; specialize (Hs c Hc); apply Nat.eqb_eq in Hs.
    destruct (domains st1 c) as [|x [|y l]]; try discriminate; reflexivity. }
  split; [exact H1|].
  intros a b Hab E.
  destruct (Hac a b Hab) as [[]|Hcons].
  assert (Ha : In (py_next (domains st1 a)) (domains st1 a))
    by (rewrite (H1 a (nb_src_cells _ _ Hab)) at 2; left; auto).
  apply Hcons, supported_spec in Ha as [y [Hy Hne]].
  rewrite (H1 b (nb_in_cells _ _ Hab)) in Hy; destruct Hy as [<-|[]]; auto.
Qed.

(** Every grid that [solve_sudoku] returns for a well-formed grid is a
    valid completion of it. *)
Lemma solve_valid (p : grid) (g : list (list Z)) (ql : list nat) (lg : list event) :
  well_formed p -> solve_sudoku set_iter diff_iter p = Some (Some g, ql, lg) ->
  valid_completion p g.
Proof.
  intros Hwf E; destruct (solve_outcome p _ _ _ E) as (st & Est & _ & Hc).
  destruct (SudokuCSP_spec p st Est) as (_ & Hnb & _ & _).
  pose proof (ac3_run_incl st) as Hinc.
  set (st1 := snd (ac3 set_iter diff_iter st)) in *.
  destruct Hc as [(_ & E' & _)|[(Hb & Hs & Eg & _)|(Hb & Hs & m & Eg & _)]]; [discriminate|..].
  - injection Eg as ->.
    destruct (singleton_fn st1 (ac3_success_consistent st Hnb Hb) Hs) as [H1 H2].
    apply (valid_of_fn p st (domains st1)); auto.
    intros c Hc; rewrite (H1 c Hc) at 2; left; auto.
  - cbv zeta in Eg.
    set (st2 := snd (emit (Out m) st1)) in Eg.
    destruct (fst (backtracking_search set_iter st2)) as [[|x l]|] eqn:Eb;
      try discriminate; injection Eg as ->.
    assert (Hnb2 : neighbors st2 = initialize_neighbors).
    { destruct (ac3_frame_run st) as (_ & F & _).
      unfold st2; cbn [emit snd neighbors]; unfold st1; rewrite F; exact Hnb. }
    destruct (backtrack_sound 82 [] st2 _ Hnb2 (asg_ok_nil _) Eb) as [Hl Ha].
    destruct (asg_full_fn _ _ Ha Hl) as [H1 H2].
    apply (valid_of_fn p st (domains st2)); [exact Hwf|exact Est|intros c _; apply Hinc| |exact H2].
    intros c Hc; destruct (H1 c Hc) as [v [Hf Hv]]; rewrite (asg_get_find _ _ v Hf); auto.
Qed.

(** A completion lies in the initial domains. *)
Lemma sol_in_init (p : grid) (st : state) (g : list (list Z)) :
  well_formed p -> SudokuCSP p = Some st -> valid_completion p g ->
  forall c, In c cells -> In (cell_val g c) (domains st c).
Proof.
  intros [H9 _] E [Hs Hk] c Hc.
  destruct (SudokuCSP_spec p st E) as (_ & _ & _ & H).
  destruct (H c Hc) as [v [Ev Ed]]; rewrite Ed.
  destruct c as [i j]; cbn [fst snd] in Ev; apply in_cells in Hc as Hij.
  rewrite py_get2_9x9 in Ev by tauto; injection Ev as Ev.
  destruct (Z.eqb_spec v 0).
  - apply (proj1 (solved_facts g Hs)); auto.
  - rewrite (Hk i j) by (tauto || congruence); left; auto.
Qed.

(** A well-formed grid with a unique valid completion is solved to it. *)
Lemma solve_complete (p g : list (list Z)) :
  well_formed p -> valid_completion p g -> (forall g', valid_completion p g' -> g' = g) ->
  exists ql lg, solve_sudoku set_iter diff_iter p = Some (Some g, ql, lg).
Proof.
  intros Hwf Hv Hu.
  destruct (SudokuCSP_9x9 p (proj1 Hwf)) as [st Est].
  destruct (solve_sudoku set_iter diff_iter p) as [[[r ql] lg]|] eqn:Es.
  2: { unfold solve_sudoku in Es; rewrite Est in Es; destruct (solve_m _ _ st); discriminate. }
  exists ql, lg.
  destruct (solved_facts g (proj1 Hv)) as [Hg1 Hg2].
  assert (Hr : r <> None).
  { destruct (solve_outcome p _ _ _ Es) as (st' & Est' & _ & Hc).
    rewrite Est in Est'; injection Est' as <-.
    destruct (SudokuCSP_spec p st Est) as (_ & Hnb & _ & _).
    pose proof (sol_in_init p st g Hwf Est Hv) as Hin.
    set (st1 := snd (ac3 set_iter diff_iter st)) in *.
    destruct Hc as [(Hb & _)|[(_ & _ & -> & _)|(Hb & Hs & m & Eg & _)]]; [|discriminate|].
    - rewrite (ac3_run_true (cell_val g) st Hg2 Hnb Hin) in Hb; discriminate.
    - cbv zeta in Eg; set (st2 := snd (emit (Out m) st1)) in Eg.
      assert (Hnb2 : neighbors st2 = initialize_neighbors).
      { destruct (ac3_frame_run st) as (_ & F & _).
        unfold st2; cbn [emit snd neighbors]; unfold st1; rewrite F; exact Hnb. }
      pose proof (backtrack_complete (cell_val g) 82 [] st2 Hnb2 Hg2) as Hbt.
      assert (Hin2 : forall c, In c cells -> In (cell_val g c) (domains st2 c))
        by (intros c Hc; apply (ac3_run_keeps (cell_val g) st Hg2 Hnb Hin c Hc)).
      specialize (Hbt Hin2 ltac:(split; [constructor|intros _ []]) ltac:(intros _ _ []) ltac:(simpl; lia)).
      unfold backtracking_search in Eg.
      destruct (fst (backtrack set_iter 82 [] st2)) as [sol|] eqn:Eb; [|contradiction].
      pose proof (backtrack_length 82 [] st2 sol Eb) as Hl.
      destruct sol as [|x l]; [discriminate|]; rewrite Eg; discriminate. }
  destruct r as [g'|]; [|contradiction].
  rewrite (Hu g' (solve_valid p g' ql lg Hwf Es)); reflexivity.
Qed.

(** *** The size of the worklist *)

(** The total size of the domains. *)
Definition dsum (d : store) : nat := sum_cells (fun c => length (d c)) cells.

Lemma sum_cells_lower (f : cell -> nat) (l : list cell) (lo : nat) :
  (forall c, In c l -> lo <= f c) -> lo * length l <= sum_cells f l.
Proof.
  induction l as [|c l IH]; intros H; cbn [sum_cells length]; [lia|].
  specialize (IH (fun c' Hc' => H c' (or_intror Hc'))).
  specialize (H c (or_introl eq_refl)); nia.
Qed.

Lemma sum_cells_upper (f : cell -> nat) (l : list cell) (hi : nat) :
  (forall c, In c l -> f c <= hi) -> sum_cells f l <= hi * length l.
Proof.
  induction l as [|c l IH]; intros H; cbn [sum_cells length]; [lia|].
  specialize (IH (fun c' Hc' => H c' (or_intror Hc'))).
  specialize (H c (or_introl eq_refl)); nia.
Qed.

Lemma initial_queue_length_gen (l : list cell) :
  length (flat_map (fun xi => map (fun xj => (xi, xj)) (set_iter (initialize_neighbors xi))) l) =
  sum_cells (fun c => length (initialize_neighbors c)) l.
Proof.
  induction l as [|c l IH]; [reflexivity|].
  cbn [flat_map sum_cells]; rewrite length_app, length_map, IH.
  rewrite (Permutation_length (set_iter_perm _)); reflexivity.
Qed.

Lemma initial_queue_length : length (initial_queue set_iter initialize_neighbors) = 1620.
Proof.
  unfold initial_queue; rewrite initial_queue_length_gen.
  rewrite (sum_cells_ext _ (fun _ => 20)) by (intros c Hc; apply nb_length; auto).
  reflexivity.
Qed.

(** An iteration pops one arc; when it pushes at most 19 arcs it has
    removed a value. *)
Lemma ac3_body_count (xi xj : cell) (q q' : list arc) (st st' : state) :
  arcs_ok ((xi, xj) :: q) -> neighbors st = initialize_neighbors ->
  ac3_body diff_iter xi xj q st = (Some q', st') ->
  length q' + 19 * dsum (domains st') <= length ((xi, xj) :: q) + 19 * dsum (domains st).
Proof.
  intros Hq Hnb E.
  assert (Hn : In xj (initialize_neighbors xi)) by (apply (Hq (xi, xj)); left; auto).
  assert (Hxi : In xi cells) by (apply (nb_src_cells _ _ Hn)).
  pose proof (ac3_body_spec xi xj q st Hn Hnb) as H; rewrite E in H.
  destruct H as (H1 & H2 & [(E' & _)|[(E' & Hr)|(E' & Hr & _)]]); try discriminate;
    injection E' as E'; subst q'; unfold dsum;
    change (length ((xi, xj) :: q)) with (S (length q)).
  - rewrite (sum_cells_ext (fun c => length (domains st' c)) (fun c => length (domains st c)));
      [lia|].
    intros c _; destruct (cell_eq_dec c xi) as [->|Hc]; [|rewrite H1; auto].
    rewrite H2, revises_false_same; auto.
  - rewrite length_app, length_map, (Permutation_length (diff_iter_perm _ _)).
    assert (Hf : length (filter (fun c => negb (cell_eqb c xj)) (initialize_neighbors xi)) < 20).
    { rewrite <- (nb_length xi Hxi); apply filter_length_lt.
      apply existsb_exists; exists xj; split; [auto|rewrite cell_eqb_refl; reflexivity]. }
    assert (Hlt : length (domains st' xi) < length (domains st xi))
      by (rewrite H2; apply filter_length_lt; exact Hr).
    pose proof (sum_cells_change (fun c => length (domains st c)) (fun c => length (domains st' c))
                  cells xi cells_nodup Hxi) as Hs.
    assert (Hfg : forall c, c <> xi -> length (domains st c) = length (domains st' c))
      by (intros c Hc; rewrite H1; auto).
    specialize (Hs Hfg); cbv beta in Hs; lia.
Qed.

(** Every length in the trace of a run from domains of at most 9 values,
    none empty, is at most [1620 + 19 * (729 - 81)]. *)
Lemma ac3_trace_bound (st : state) :
  neighbors st = initialize_neighbors -> nonempty st ->
  (forall c, In c cells -> length (domains st c) <= 9) ->
  forall n, In n (snd (fst (ac3 set_iter diff_iter st))) -> n <= 1620 + 19 * 648.
Proof.
  intros Hnb Hne H9 n; unfold ac3, bind, gets; rewrite Hnb.
  set (B := 1620 + 19 * dsum (domains st)).
  intros Hn.
  destruct (ac3_loop_trace
    (fun q s => ac_inv q s /\ nonempty s /\ length q + 19 * dsum (domains s) <= B))
    with (3 := Hn) as (q' & s' & (Hi & He & Hb) & ->).
  - intros xi xj q s q1 s1 (Hi & He & Hb) E.
    pose proof Hi as (Hn1 & Hq & _).
    split; [apply (ac3_body_ac_inv xi xj q q1 s s1 Hi E)|split].
    + apply (ac3_body_nonempty xi xj q q1 s s1 Hq Hn1 He E).
    + exact (Nat.le_trans _ _ _ (ac3_body_count xi xj q q1 s s1 Hq Hn1 E) Hb).
  - split; [apply initial_queue_ac_inv; auto|split; [auto|]].
    rewrite initial_queue_length; unfold B; lia.
  - assert (L1 : 1 * 81 <= dsum (domains s')).
    { rewrite <- cells_length; apply sum_cells_lower.
      intros c Hc; specialize (He c Hc); destruct (domains s' c); [congruence|simpl; lia]. }
    assert (L2 : dsum (domains st) <= 9 * 81).
    { rewrite <- cells_length; apply sum_cells_upper; auto. }
    unfold B in Hb; lia.
Qed.

(** *** Outcomes of [solve_sudoku] *)

Lemma only_out_no_bt (l : list event) (n : nat) : only_out l -> ~ In (Backtrack_call n) l.
Proof. unfold only_out; rewrite Forall_forall; intros H Hin; exact (H _ Hin). Qed.

(** An AC-3 run only prints. *)
Lemma ac3_log_out (st : state) : log st = [] -> only_out (log (snd (ac3 set_iter diff_iter st))).
Proof.
  intros H; destruct (ac3_frame_run st) as (_ & _ & _ & l & E & Ho).
  rewrite E, H, app_nil_r; exact Ho.
Qed.

Lemma solve_some (p : grid) (st : state) : SudokuCSP p = Some st ->
  exists r ql lg, solve_sudoku set_iter diff_iter p = Some (r, ql, lg).
Proof.
  intros E; unfold solve_sudoku; rewrite E.
  destruct (solve_m set_iter diff_iter st) as [[r ql] st']; eauto.
Qed.

(** After a failed AC-3 run the result is [None] and only printing happened. *)
Lemma solve_ac3_fail (p : grid) (st : state) (r : option (list (list Z))) (ql : list nat)
    (lg : list event) :
  SudokuCSP p = Some st -> fst (fst (ac3 set_iter diff_iter st)) = false ->
  solve_sudoku set_iter diff_iter p = Some (r, ql, lg) ->
  r = None /\ ql = snd (fst (ac3 set_iter diff_iter st)) /\ only_out lg.
Proof.
  intros Est Hf Es; destruct (solve_outcome p _ _ _ Es) as (st' & Est' & Hq & Hc).
  rewrite Est in Est'; injection Est' as <-.
  destruct (SudokuCSP_spec p st Est) as (_ & _ & Hlog & _).
  destruct Hc as [(_ & -> & ->)|[(Hb & _)|(Hb & _)]]; [|congruence|congruence].
  split; [reflexivity|split; [exact Hq|apply ac3_log_out; exact Hlog]].
Qed.

(** Two equal clues in a row make AC-3 fail. *)
Lemma row_dup_fail (p : grid) (i j1 j2 : nat) :
  is_9x9 p -> i < 9 -> j1 < 9 -> j2 < 9 -> j1 <> j2 ->
  cell_val p (i, j1) <> 0%Z -> cell_val p (i, j1) = cell_val p (i, j2) ->
  exists st, SudokuCSP p = Some st /\ fst (fst (ac3 set_iter diff_iter st)) = false.
Proof.
  intros H9 Hi H1 H2 Hne Hv Heq.
  destruct (SudokuCSP_9x9 p H9) as [st Est]; exists st; split; [exact Est|].
  destruct (SudokuCSP_spec p st Est) as (_ & Hnb & _ & Hd).
  assert (Hs : forall j, j < 9 -> cell_val p (i, j) <> 0%Z ->
                 domains st (i, j) = [cell_val p (i, j)]).
  { intros j Hj Hz; destruct (Hd (i, j) ltac:(apply in_cells; auto)) as [v [Ev Ed]].
    cbn [fst snd] in Ev; rewrite py_get2_9x9 in Ev by auto; injection Ev as Ev; subst v.
    rewrite Ed; destruct (Z.eqb_spec (cell_val p (i, j)) 0); [contradiction|reflexivity]. }
  destruct (fst (fst (ac3 set_iter diff_iter st))) eqn:Eb; [exfalso|reflexivity].
  assert (Hne0 : nonempty st) by (intros c Hc; apply (SudokuCSP_nonzero p st Est c Hc)).
  pose proof (ac3_success_nonempty st Hnb Hne0 Eb (i, j1) ltac:(apply in_cells; auto)) as Hn1.
  destruct (ac3_success_consistent st Hnb Eb) as (_ & _ & Hac).
  pose proof (ac3_run_incl st (i, j1)) as I1; pose proof (ac3_run_incl st (i, j2)) as I2.
  destruct (Hac (i, j1) (i, j2) (nb_same_row i j1 j2 Hi H1 H2 Hne)) as [[]|Hc].
  clear Hac.
  revert Hn1 I1 I2 Hc; generalize (domains (snd (ac3 set_iter diff_iter st))); intros d1 Hn1 I1 I2 Hc.
  destruct (d1 (i, j1)) as [|x l] eqn:Ex; [contradiction|].
  specialize (Hc x ltac:(rewrite Ex; left; reflexivity)).
  apply supported_spec in Hc as [y [Hy Hxy]].
  specialize (I1 x ltac:(left; reflexivity)); specialize (I2 y Hy).
  rewrite Hs in I1 by auto; rewrite Hs in I2 by congruence.
  destruct I1 as [<-|[]]; destruct I2 as [<-|[]]; congruence.
Qed.

(** The bounds of a whole run: every recorded worklist length, and the
    size of the assignment at every entry of [backtrack]. *)
Lemma solve_bounds (p : grid) (r : option (list (list Z))) (ql : list nat) (lg : list event) :
  solve_sudoku set_iter diff_iter p = Some (r, ql, lg) ->
  (forall n, In n ql -> n <= 1620 + 19 * 648) /\
  (forall n, In (Backtrack_call n) lg -> n <= 81).
Proof.
  intros Es; destruct (solve_outcome p _ _ _ Es) as (st & Est & Hq & Hc).
  destruct (SudokuCSP_spec p st Est) as (_ & Hnb & Hlog & _).
  pose proof (ac3_log_out st Hlog) as Ho.
  split.
  - rewrite Hq; apply ac3_trace_bound; auto;
      intros c Hc0; apply (SudokuCSP_nonzero p st Est c Hc0).
  - revert Ho Hc; generalize (snd (ac3 set_iter diff_iter st)); intros st1 Ho Hc.
    destruct Hc as [(_ & _ & ->)|[(_ & _ & _ & m & ->)|(_ & _ & m & _ & ->)]]; intros n Hn.
    + destruct (only_out_no_bt _ n Ho Hn).
    + destruct Hn as [E|Hn]; [discriminate|destruct (only_out_no_bt _ n Ho Hn)].
    + destruct (backtrack_depth 82 [] (snd (emit (Out m) st1))
                  ltac:(split; [constructor|intros _ []])) as (l & El & Hl).
      unfold backtracking_search in Hn; rewrite El in Hn.
      apply in_app_or in Hn as [Hn|Hn]; [apply Hl, Hn|].
      cbn [emit snd log] in Hn; destruct Hn as [E|Hn]; [discriminate|].
      destruct (only_out_no_bt _ n Ho Hn).
Qed.

(** The domains after a successful run are a fixed point of AC-3. *)
Lemma ac3_fixpoint (st : state) :
  neighbors st = initialize_neighbors -> fst (fst (ac3 set_iter diff_iter st)) = true ->
  forall c, domains (snd (ac3 set_iter diff_iter (snd (ac3 set_iter diff_iter st)))) c =
            domains (snd (ac3 set_iter diff_iter st)) c.
Proof.
  intros Hnb Hb.
  destruct (ac3_success_consistent st Hnb Hb) as (Hnb1 & _ & Hac).
  revert Hnb1 Hac; generalize (snd (ac3 set_iter diff_iter st)); intros st1 Hnb1 Hac.
  apply (ac3_inv_run (fun s => forall c, domains s c = domains st1 c)); auto.
  intros xi xj q s Hq Hn HQ.
  assert (Hx : In xj (initialize_neighbors xi)) by (apply (Hq (xi, xj)); left; auto).
  pose proof (ac3_body_spec xi xj q s Hx Hn) as H.
  destruct (ac3_body diff_iter xi xj q s) as [r s']; cbn [snd].
  destruct H as (H1 & H2 & _); intros c.
  destruct (cell_eq_dec c xi) as [->|Hc]; [|rewrite H1; auto].
  rewrite H2, HQ; apply filter_all_true; intros x Hin.
  destruct (Hac xi xj Hx) as [[]|Hc]; rewrite (supported_ext (domains st1) (domains s)) by apply HQ.
  apply Hc, Hin.
Qed.

(** The domains after [n] iterations are contained in those after [m <= n]. *)
Lemma ac3_iter_mono (q : list arc) (st : state) (m n : nat) (c : cell) :
  m <= n ->
  incl (domains (snd (ac3_iter diff_iter n q st)) c) (domains (snd (ac3_iter diff_iter m q st)) c) /\
  length (domains (snd (ac3_iter diff_iter n q st)) c) <=
  length (domains (snd (ac3_iter diff_iter m q st)) c).
Proof.
  intros Hmn; replace n with (m + (n - m)) by lia; rewrite ac3_iter_add.
  destruct (ac3_iter_frame (n - m) (fst (ac3_iter diff_iter m q st)) (snd (ac3_iter diff_iter m q st)))
    as (_ & _ & H & _).
  split; [apply filtered_from_incl, H|apply filtered_from_length, H].
Qed.

Lemma ac3_as_iter (st : state) :
  snd (ac3 set_iter diff_iter st) =
  snd (ac3_iter diff_iter
         (S (ac3_measure (neighbors st) (domains st) (initial_queue set_iter (neighbors st))))
         (initial_queue set_iter (neighbors st)) st).
Proof. unfold ac3, bind, gets; apply ac3_loop_iter. Qed.

(** [backtrack] on a full assignment returns it. *)
Lemma backtrack_done (fuel : nat) (a : assignment) (s : state) :
  length a = 81 -> fst (backtrack set_iter fuel a s) = Some a.
Proof.
  intros Hl; destruct fuel; cbn [backtrack]; rewrite bind_eq; cbv beta;
    rewrite Hl; reflexivity.
Qed.

(** [backtrack] fails when every candidate of the selected cell is
    inconsistent or fails in the recursive call. *)
Lemma backtrack_none (fuel : nat) (a : assignment) (s : state) :
  length a <> 81 ->
  (forall var, fst (select_unassigned_variable a s) = Some var ->
     forall v s', In v (domains s var) -> bt_frame s s' ->
     fst (is_consistent set_iter var v a s') = true ->
     fst (backtrack set_iter fuel ((var, v) :: a) s') = None) ->
  fst (backtrack set_iter (S fuel) a s) = None.
Proof.
  intros Hl H; cbn [backtrack]; rewrite bind_eq; cbv beta.
  set (s1 := snd (emit (Backtrack_call (length a)) s)).
  destruct (Nat.eqb_spec (length a) 81) as [|_]; [contradiction|].
  rewrite bind_eq.
  destruct (select_spec a s1) as [Hs _]; rewrite Hs.
  assert (Esel : fst (select_unassigned_variable a s1) = fst (select_unassigned_variable a s))
    by (unfold select_unassigned_variable, bind, gets, s1; cbn [emit snd fst domains];
        destruct (filter _ cells); reflexivity).
  rewrite Esel; destruct (fst (select_unassigned_variable a s)) as [var|] eqn:Ev; [|reflexivity].
  rewrite bind_eq; cbv beta.
  set (s2 := snd (emit (Select var) s1)).
  rewrite bind_eq; destruct (lcv_spec var a s2) as [Hl2 Hp]; rewrite Hl2.
  apply try_values_exhausted; [intros; apply backtrack_frame_gen|].
  intros v s' Hv Hfr Hc; apply (H var eq_refl); [| |exact Hc].
  - apply (Permutation_in _ Hp) in Hv; exact Hv.
  - apply (bt_frame_trans _ s2); [|exact Hfr].
    apply (bt_frame_trans _ s1); apply bt_frame_emit.
Qed.

(** [backtracking_search] returns an assignment of every cell. *)
Lemma search_covers (s : state) (r : assignment) :
  neighbors s = initialize_neighbors -> fst (backtracking_search set_iter s) = Some r ->
  length r = 81 /\ forall c, In c cells -> In c (map fst r).
Proof.
  intros Hnb E; destruct (backtrack_sound 82 [] s r Hnb (asg_ok_nil _) E) as [Hl [Hk _]].
  split; [exact Hl|apply keys_ok_full; auto].
Qed.

(** A grid returned by [solve_sudoku] is 9x9 with no empty cell. *)
Lemma solve_full_grid (p : grid) (g : list (list Z)) (ql : list nat) (lg : list event) :
  solve_sudoku set_iter diff_iter p = Some (Some g, ql, lg) ->
  is_9x9 g /\ forall i j, i < 9 -> j < 9 -> cell_val g (i, j) <> 0%Z.
Proof.
  intros E; destruct (solve_outcome p _ _ _ E) as (st & Est & _ & Hc).
  destruct (SudokuCSP_spec p st Est) as (_ & Hnb & _ & _).
  assert (Hne0 : nonempty st) by (intros c Hc'; apply (SudokuCSP_nonzero p st Est c Hc')).
  assert (Hz : forall c v, In c cells -> In v (domains (snd (ac3 set_iter diff_iter st)) c) -> v <> 0%Z).
  { intros c v Hc' Hv ->; apply (SudokuCSP_nonzero p st Est c Hc'), (ac3_run_incl st c), Hv. }
  pose proof (ac3_success_nonempty st Hnb Hne0) as Hne1.
  destruct (ac3_frame_run st) as (_ & Hnb1 & _).
  revert Hz Hne1 Hnb1 Hc; generalize (snd (ac3 set_iter diff_iter st)); intros st1 Hz Hne1 Hnb1 Hc.
  destruct Hc as [(_ & E' & _)|[(Hb & Hs & Eg & _)|(Hb & Hs & m & Eg & _)]]; [discriminate|..].
  - injection Eg as ->; split; [apply grid_of_9x9|intros i j Hi Hj].
    assert (Hc' : In (i, j) cells) by (apply in_cells; auto).
    rewrite grid_of_val by exact Hc'.
    specialize (Hne1 Hb _ Hc'); apply (Hz _ _ Hc').
    unfold py_next; destruct (domains st1 (i, j)); [contradiction|left; reflexivity].
  - cbv zeta in Eg.
    set (st2 := snd (emit (Out m) st1)) in Eg.
    destruct (fst (backtracking_search set_iter st2)) as [[|x l]|] eqn:Eb;
      try discriminate; injection Eg as ->.
    assert (Hnb2 : neighbors st2 = initialize_neighbors) by (unfold st2; cbn; congruence).
    destruct (backtrack_sound 82 [] st2 _ Hnb2 (asg_ok_nil _) Eb) as [Hl Ha].
    destruct (asg_full_fn _ _ Ha Hl) as [H1 _].
    split; [apply grid_of_9x9|intros i j Hi Hj].
    assert (Hc' : In (i, j) cells) by (apply in_cells; auto).
    rewrite grid_of_val by exact Hc'.
    destruct (H1 _ Hc') as [v [Hf Hv]]; rewrite (asg_get_find _ _ v Hf).
    apply (Hz _ _ Hc'), Hv.
Qed.

End Proofs.

(** ** Independence of the search from the iteration order of sets *)

Lemma forallb_perm {A} (f : A -> bool) (l l' : list A) :
  Permutation l l' -> forallb f l = forallb f l'.
Proof.
  intros Hp; apply Bool.eq_true_iff_eq; rewrite !forallb_forall.
  split; intros H x Hx; apply H.
  - apply (Permutation_in _ (Permutation_sym Hp)), Hx.
  - apply (Permutation_in _ Hp), Hx.
Qed.

Lemma fold_left_perm {A B} (f : B -> A -> B) :
  (forall b x y, f (f b x) y = f (f b y) x) ->
  forall l l', Permutation l l' -> forall b, fold_left f l b = fold_left f l' b.
Proof.
  intros Hc l l' Hp; induction Hp as [|x l l' _ IH|x y l|l l' l'' _ IH1 _ IH2];
    intros b; cbn [fold_left]; auto.
  - rewrite Hc; reflexivity.
  - rewrite IH1; apply IH2.
Qed.

Lemma insert_by_ext {A} (k1 k2 : A -> nat) (x : A) (l : list A) :
  (forall y, k1 y = k2 y) -> insert_by k1 x l = insert_by k2 x l.
Proof.
  intros H; induction l as [|y l IH]; cbn [insert_by]; [reflexivity|].
  rewrite !H, IH; reflexivity.
Qed.

Lemma sort_by_key_ext {A} (k1 k2 : A -> nat) (l : list A) :
  (forall y, k1 y = k2 y) -> sort_by_key k1 l = sort_by_key k2 l.
Proof.
  intros H; unfold sort_by_key; generalize (@nil A).
  induction l as [|x l IH]; intros acc; cbn [fold_left]; [reflexivity|].
  rewrite (insert_by_ext k1 k2 x acc H); apply IH.
Qed.

Section Order.

Variables si1 si2 : list cell -> list cell.
Hypothesis si1_perm : forall l, Permutation (si1 l) l.
Hypothesis si2_perm : forall l, Permutation (si2 l) l.

Lemma si_perm12 (l : list cell) : Permutation (si1 l) (si2 l).
Proof. apply (perm_trans (si1_perm l)), Permutation_sym, si2_perm. Qed.

Lemma is_consistent_order (var : cell) (v : Z) (a : assignment) (s : state) :
  is_consistent si1 var v a s = is_consistent si2 var v a s.
Proof.
  unfold is_consistent, bind, gets, ret; f_equal.
  apply forallb_perm, si_perm12.
Qed.

Lemma count_constraints_order (var : cell) (v : Z) (a : assignment) (s : state) :
  count_constraints si1 var v a s = count_constraints si2 var v a s.
Proof.
  unfold count_constraints, bind, gets, ret; f_equal.
  apply fold_left_perm; [|apply si_perm12].
  intros b x y; destruct (asg_mem x a), (asg_mem y a); lia.
Qed.

Lemma lcv_order (var : cell) (a : assignment) (s : state) :
  least_constraining_values si1 var a s = least_constraining_values si2 var a s.
Proof.
  unfold least_constraining_values, bind, gets, ret; f_equal.
  apply sort_by_key_ext; intros v; rewrite count_constraints_order; reflexivity.
Qed.

Lemma try_values_order (bt1 bt2 : assignment -> M (option assignment)) (var : cell)
    (a : assignment) (vs : list Z) (s : state) :
  (forall a' s', bt1 a' s' = bt2 a' s') ->
  try_values si1 bt1 var a vs s = try_values si2 bt2 var a vs s.
Proof.
  intros Hb; revert s; induction vs as [|v vs IH]; intros s; cbn [try_values]; [reflexivity|].
  rewrite !bind_eq, is_consistent_order; cbv beta.
  destruct (fst (is_consistent si2 var v a s)); [|apply IH].
  rewrite !bind_eq; cbv beta; rewrite Hb.
  destruct (fst (bt2 ((var, v) :: a) _)); [reflexivity|].
  rewrite !bind_eq; apply IH.
Qed.

Lemma backtrack_order (fuel : nat) :
  forall a s, backtrack si1 fuel a s = backtrack si2 fuel a s.
Proof.
  induction fuel as [|f IH]; intros a s; [reflexivity|]; cbn [backtrack].
  rewrite !bind_eq; cbv beta.
  destruct (length a =? 81); [reflexivity|].
  rewrite !bind_eq; cbv beta.
  destruct (fst (select_unassigned_variable a _)); [|reflexivity].
  rewrite !bind_eq; cbv beta; rewrite lcv_order.
  apply try_values_order, IH.
Qed.

End Order.

(** ** Concrete iteration orders and grids *)

(** Iteration in insertion order, and [s - {x}] in the same order. *)
Definition insertion_order (l : list cell) : list cell := l.

Definition insertion_diff (l : list cell) (x : cell) : list cell :=
  filter (fun c => negb (cell_eqb c x)) l.

Lemma insertion_order_perm (l : list cell) : Permutation (insertion_order l) l.
Proof. apply Permutation_refl. Qed.

Lemma insertion_diff_perm (l : list cell) (x : cell) :
  Permutation (insertion_diff l x) (filter (fun c => negb (cell_eqb c x)) l).
Proof. apply Permutation_refl. Qed.

Lemma rev_perm (l : list cell) : Permutation (rev l) l.
Proof. apply Permutation_sym, Permutation_rev. Qed.

Definition solved_grid : grid :=
  [[5;3;4;6;7;8;9;1;2];
   [6;7;2;1;9;5;3;4;8];
   [1;9;8;3;4;2;5;6;7];
   [8;5;9;7;6;1;4;2;3];
   [4;2;6;8;5;3;7;9;1];
   [7;1;3;9;2;4;8;5;6];
   [9;6;1;5;3;7;2;8;4];
   [2;8;7;4;1;9;6;3;5];
   [3;4;5;2;8;6;1;7;9]]%Z.

(** [solved_grid] with its first cell emptied. *)
Definition one_blank : grid :=
  [[0;3;4;6;7;8;9;1;2];
   [6;7;2;1;9;5;3;4;8];
   [1;9;8;3;4;2;5;6;7];
   [8;5;9;7;6;1;4;2;3];
   [4;2;6;8;5;3;7;9;1];
   [7;1;3;9;2;4;8;5;6];
   [9;6;1;5;3;7;2;8;4];
   [2;8;7;4;1;9;6;3;5];
   [3;4;5;2;8;6;1;7;9]]%Z.

(** Two 5s in row 0. *)
Definition dup_row : grid :=
  [5;5;0;0;0;0;0;0;0]%Z :: repeat (repeat 0%Z 9) 8.

(** The sample [puzzle] of the program. *)
Definition puzzle0 : grid :=
  [[0;0;0;0;0;0;2;0;0];
   [0;0;0;6;0;0;0;0;3];
   [0;7;4;0;8;0;0;0;0];
   [0;0;0;0;0;3;0;0;2];
   [0;8;0;0;4;0;0;1;0];
   [6;0;0;5;0;0;0;0;0];
   [0;0;0;0;1;0;7;8;0];
   [5;0;0;0;0;9;0;0;0];
   [0;0;8;0;0;0;0;0;0]]%Z.

Definition state_of (p : grid) : state :=
  match SudokuCSP p with
  | Some st => st
  | None => mk_state p (fun _ => []) initialize_neighbors []
  end.

Definition nine_by_nine (g : list (list Z)) : bool :=
  Nat.eqb (length g) 9 && forallb (fun row => Nat.eqb (length row) 9) g.

Definition wf_check (p : grid) : bool :=
  nine_by_nine p &&
  forallb (fun c => (0 <=? cell_val p c)%Z && (cell_val p c <=? 9)%Z) cells.

Definition solved_check (g : list (list Z)) : bool :=
  nine_by_nine g &&
  forallb (fun u => forallb (fun v => Nat.eqb (count_occ Z.eq_dec (map (cell_val g) u) v) 1)
                            full_domain) units.

Lemma nine_by_nine_ok (g : list (list Z)) : nine_by_nine g = true -> is_9x9 g.
Proof.
  unfold nine_by_nine; rewrite andb_true_iff, Nat.eqb_eq, forallb_forall.
  intros [Hl Hf]; split; [exact Hl|apply Forall_forall; intros r Hr; apply Nat.eqb_eq, Hf, Hr].
Qed.

Lemma wf_check_ok (p : grid) : wf_check p = true -> well_formed p.
Proof.
  unfold wf_check; rewrite andb_true_iff, forallb_forall; intros [H9 H].
  split; [apply nine_by_nine_ok, H9|intros i j Hi Hj].
  specialize (H (i, j) ltac:(apply in_cells; auto)); rewrite andb_true_iff, !Z.leb_le in H.
  exact H.
Qed.

Lemma solved_check_ok (g : list (list Z)) : solved_check g = true -> sudoku_solved g.
Proof.
  unfold solved_check; rewrite andb_true_iff, forallb_forall; intros [H9 H].
  split; [apply nine_by_nine_ok, H9|intros u Hu v Hv].
  specialize (H u Hu); rewrite forallb_forall in H.
  apply Nat.eqb_eq, H, full_domain_spec, Hv.
Qed.

Lemma state_of_ok (p : grid) : nine_by_nine p = true ->
  SudokuCSP p = Some (state_of p) /\ neighbors (state_of p) = initialize_neighbors.
Proof.
  intros H; destruct (SudokuCSP_9x9 p (nine_by_nine_ok p H)) as [st E].
  unfold state_of; rewrite E; split; [reflexivity|].
  apply (SudokuCSP_spec p st E).
Qed.

Lemma one_blank_state :
  SudokuCSP one_blank = Some (state_of one_blank) /\
  neighbors (state_of one_blank) = initialize_neighbors.
Proof. apply state_of_ok; vm_compute; reflexivity. Qed.

Lemma dup_row_state :
  SudokuCSP dup_row = Some (state_of dup_row) /\
  neighbors (state_of dup_row) = initialize_neighbors.
Proof. apply state_of_ok; vm_compute; reflexivity. Qed.

Lemma puzzle0_state :
  SudokuCSP puzzle0 = Some (state_of puzzle0) /\
  neighbors (state_of puzzle0) = initialize_neighbors.
Proof. apply state_of_ok; vm_compute; reflexivity. Qed.

(** A grid whose every cell holds a clue has no other completion. *)
Lemma full_clues_unique (p : grid) :
  is_9x9 p -> (forall i j, i < 9 -> j < 9 -> cell_val p (i, j) <> 0%Z) ->
  forall g, valid_completion p g -> g = p.
Proof.
  intros H9 Hnz g [[Hg _] Hk]; apply grid_ext; [exact Hg|exact H9|].
  intros i j Hi Hj; apply Hk; auto.
Qed.

(** ** The claims *)

(** The iteration orders of CPython's sets of cells are only known to
    enumerate the set: every claim below holds for all such orders. *)

(** C1: a grid returned by [solve_sudoku] for a 9x9 grid of 0s and clues
    1-9 has each of 1-9 exactly once in every row, column and 3x3 block, and
    keeps every clue. *)
Theorem solve_sudoku_sound (set_iter : list cell -> list cell)
    (diff_iter : list cell -> cell -> list cell)
    (Hs : forall l, Permutation (set_iter l) l)
    (Hd : forall l x, Permutation (diff_iter l x) (filter (fun c => negb (cell_eqb c x)) l))
    (p g : list (list Z)) (ql : list nat) (lg : list event) :
  well_formed p -> solve_sudoku set_iter diff_iter p = Some (Some g, ql, lg) ->
  valid_completion p g.
Proof. apply (solve_valid set_iter diff_iter Hs Hd). Qed.

Lemma solve_sudoku_sound_witness :
  well_formed one_blank /\ valid_completion one_blank solved_grid.
Proof.
  split; [apply wf_check_ok; vm_compute; reflexivity|].
  assert (E0 : option_map (fun x => fst (fst x))
                 (solve_sudoku insertion_order insertion_diff one_blank) = Some (Some solved_grid))
    by (vm_compute; reflexivity).
  destruct (solve_sudoku insertion_order insertion_diff one_blank) as [[[r ql] lg]|] eqn:E;
    [|discriminate].
  cbn [option_map fst] in E0; injection E0 as ->.
  apply (solve_sudoku_sound insertion_order insertion_diff insertion_order_perm
           insertion_diff_perm one_blank solved_grid ql lg); [|exact E].
  apply wf_check_ok; vm_compute; reflexivity.
Defined.

(** C2: for a 9x9 grid of 0s and clues 1-9 with exactly one valid
    completion, [solve_sudoku] returns that completion. *)
Theorem solve_sudoku_unique_found (set_iter : list cell -> list cell)
    (diff_iter : list cell -> cell -> list cell)
    (Hs : forall l, Permutation (set_iter l) l)
    (Hd : forall l x, Permutation (diff_iter l x) (filter (fun c => negb (cell_eqb c x)) l))
    (p g : list (list Z)) :
  well_formed p -> valid_completion p g -> (forall g', valid_completion p g' -> g' = g) ->
  exists ql lg, solve_sudoku set_iter diff_iter p = Some (Some g, ql, lg).
Proof. apply (solve_complete set_iter diff_iter Hs Hd). Qed.

Lemma solve_sudoku_unique_found_witness :
  well_formed solved_grid /\ valid_completion solved_grid solved_grid /\
  exists ql lg, solve_sudoku insertion_order insertion_diff solved_grid =
                Some (Some solved_grid, ql, lg).
Proof.
  assert (Hw : well_formed solved_grid) by (apply wf_check_ok; vm_compute; reflexivity).
  assert (Hv : valid_completion solved_grid solved_grid)
    by (split; [apply solved_check_ok; vm_compute; reflexivity|intros i j _ _ _; reflexivity]).
  split; [exact Hw|split; [exact Hv|]].
  apply (solve_sudoku_unique_found insertion_order insertion_diff insertion_order_perm
           insertion_diff_perm); [exact Hw|exact Hv|].
  apply full_clues_unique; [exact (proj1 Hw)|].
  intros i j Hi Hj; rewrite <- (grid_of_val (cell_val solved_grid)) by (apply in_cells; auto).
  revert i j Hi Hj.
  assert (H : forallb (fun c => negb (Z.eqb (cell_val solved_grid c) 0)) cells = true)
    by (vm_compute; reflexivity).
  intros i j Hi Hj; rewrite grid_of_val by (apply in_cells; auto).
  rewrite forallb_forall in H; specialize (H (i, j) ltac:(apply in_cells; auto)).
  intros E; rewrite E in H; discriminate.
Defined.

(** C3: an iteration whose [revise] empties the domain of [xi] ends the
    loop with [False] right after the print, leaving the rest of the
    worklist untouched (the trace gets no further entry); when AC-3 returns
    [False], [solve_sudoku] returns [None] and [backtrack] is never entered;
    and two equal clues in a row make AC-3 return [False]. *)
Theorem ac3_failure_stops (set_iter : list cell -> list cell)
    (diff_iter : list cell -> cell -> list cell)
    (Hs : forall l, Permutation (set_iter l) l)
    (Hd : forall l x, Permutation (diff_iter l x) (filter (fun c => negb (cell_eqb c x)) l)) :
  (forall f xi xj q st,
     fst (revise xi xj st) = true -> domains (snd (revise xi xj st)) xi = [] ->
     ac3_loop diff_iter (S f) ((xi, xj) :: q) st =
     ((false, [S (length q)]), snd (print "Puzzle has no solution"%string (snd (revise xi xj st))))) /\
  (forall p st, SudokuCSP p = Some st -> fst (fst (ac3 set_iter diff_iter st)) = false ->
     exists ql lg, solve_sudoku set_iter diff_iter p = Some (None, ql, lg) /\
       ql = snd (fst (ac3 set_iter diff_iter st)) /\ forall n, ~ In (Backtrack_call n) lg) /\
  (forall p i j1 j2, is_9x9 p -> i < 9 -> j1 < 9 -> j2 < 9 -> j1 <> j2 ->
     cell_val p (i, j1) <> 0%Z -> cell_val p (i, j1) = cell_val p (i, j2) ->
     exists st, SudokuCSP p = Some st /\ fst (fst (ac3 set_iter diff_iter st)) = false /\
     exists ql lg, solve_sudoku set_iter diff_iter p = Some (None, ql, lg) /\
       forall n, ~ In (Backtrack_call n) lg).
Proof.
  assert (Hfail : forall p st, SudokuCSP p = Some st -> fst (fst (ac3 set_iter diff_iter st)) = false ->
     exists ql lg, solve_sudoku set_iter diff_iter p = Some (None, ql, lg) /\
       ql = snd (fst (ac3 set_iter diff_iter st)) /\ forall n, ~ In (Backtrack_call n) lg).
  { intros p st Est Hf.
    destruct (solve_some set_iter diff_iter p st Est) as (r & ql & lg & E).
    destruct (solve_ac3_fail set_iter diff_iter p st r ql lg Est Hf E) as (-> & Hq & Ho).
    exists ql, lg; split; [exact E|split; [exact Hq|intros n; apply only_out_no_bt, Ho]]. }
  split; [|split; [exact Hfail|]].
  - intros f xi xj q st Hr He; cbn [ac3_loop]; unfold ac3_body.
    rewrite !bind_eq; cbv beta; rewrite Hr, bind_eq; cbv beta.
    unfold gets at 1; cbn [fst snd]; rewrite He.
    rewrite !bind_eq; unfold ret, gets; cbn [fst snd length]; rewrite He, bind_eq; reflexivity.
  - intros p i j1 j2 H9 Hi H1 H2 Hne Hv Heq.
    destruct (row_dup_fail set_iter diff_iter Hs Hd p i j1 j2 H9 Hi H1 H2 Hne Hv Heq) as [st [Est Hf]].
    exists st; split; [exact Est|split; [exact Hf|]].
    destruct (Hfail p st Est Hf) as (ql & lg & E & _ & Hn); eauto.
Qed.

Lemma ac3_failure_stops_witness :
  is_9x9 dup_row /\ cell_val dup_row (0, 0) = 5%Z /\ cell_val dup_row (0, 1) = 5%Z /\
  exists ql lg, solve_sudoku insertion_order insertion_diff dup_row = Some (None, ql, lg) /\
    forall n, ~ In (Backtrack_call n) lg.
Proof.
  assert (H9 : is_9x9 dup_row) by (apply nine_by_nine_ok; vm_compute; reflexivity).
  split; [exact H9|split; [reflexivity|split; [reflexivity|]]].
  destruct (proj2 (proj2 (ac3_failure_stops insertion_order insertion_diff insertion_order_perm
              insertion_diff_perm)) dup_row 0 0 1 H9 ltac:(lia) ltac:(lia) ltac:(lia) ltac:(lia)
              ltac:(vm_compute; discriminate) ltac:(vm_compute; reflexivity))
    as (st & _ & _ & H).
  exact H.
Defined.

(** C4 (as the code behaves): every worklist length recorded by an AC-3 run
    of [solve_sudoku] is at most [1620 + 19 * 648 = 13932] (a pushing
    iteration adds at most 19 arcs and removes a value, of at most
    [729 - 81] removable ones), and [backtrack] is entered with an
    assignment of at most 81 cells, so its recursion depth is at most 81.
    The bound 1620 itself does not hold: see [ac3_queue_exceeds_1620]. *)
Theorem solve_sudoku_resource_bounds (set_iter : list cell -> list cell)
    (diff_iter : list cell -> cell -> list cell)
    (Hs : forall l, Permutation (set_iter l) l)
    (Hd : forall l x, Permutation (diff_iter l x) (filter (fun c => negb (cell_eqb c x)) l))
    (p : grid) (r : option (list (list Z))) (ql : list nat) (lg : list event) :
  solve_sudoku set_iter diff_iter p = Some (r, ql, lg) ->
  (forall n, In n ql -> n <= 1620 + 19 * 648) /\
  (forall n, In (Backtrack_call n) lg -> n <= 81).
Proof. apply (solve_bounds set_iter diff_iter Hs Hd). Qed.

Lemma solve_sudoku_resource_bounds_witness :
  exists r ql lg, solve_sudoku insertion_order insertion_diff one_blank = Some (r, ql, lg) /\
    forall n, In n ql -> n <= 1620 + 19 * 648.
Proof.
  destruct (solve_sudoku insertion_order insertion_diff one_blank) as [[[r ql] lg]|] eqn:E.
  - exists r, ql, lg; split; [reflexivity|].
    exact (proj1 (solve_sudoku_resource_bounds insertion_order insertion_diff insertion_order_perm
                    insertion_diff_perm one_blank r ql lg E)).
  - vm_compute in E; discriminate.
Defined.

(** C4 fails at the solved grid with its first cell emptied: the first arc
    [((0,0), x)] removes the value of [x] from the domain of [(0,0)] and
    pushes 19 arcs, so the second recorded length is 1619 + 19 = 1638. *)
Lemma ac3_queue_exceeds_1620 :
  exists r ql lg n, solve_sudoku insertion_order insertion_diff one_blank = Some (r, ql, lg) /\
    In n ql /\ 1620 < n.
Proof.
  assert (H : match solve_sudoku insertion_order insertion_diff one_blank with
              | Some (_, ql, _) => nth 1 ql 0 =? 1638
              | None => false
              end = true) by (vm_compute; reflexivity).
  destruct (solve_sudoku insertion_order insertion_diff one_blank) as [[[r ql] lg]|];
    [|discriminate].
  apply Nat.eqb_eq in H.
  exists r, ql, lg, 1638; split; [reflexivity|split; [|lia]].
  rewrite <- H; apply nth_In.
  destruct ql as [|x [|y l]]; cbn [nth] in H; try discriminate; cbn [length]; lia.
Qed.

(** C5: a cell's domain after [n] iterations of the AC-3 loop is contained
    in its domain after any [m <= n] iterations, and is no longer; the run of
    [ac3] ends in the state reached after its iterations. *)
Theorem ac3_domains_shrink (set_iter : list cell -> list cell)
    (diff_iter : list cell -> cell -> list cell) (st : state) :
  let q0 := initial_queue set_iter (neighbors st) in
  snd (ac3 set_iter diff_iter st) =
    snd (ac3_iter diff_iter (S (ac3_measure (neighbors st) (domains st) q0)) q0 st) /\
  forall m n c, m <= n ->
    incl (domains (snd (ac3_iter diff_iter n q0 st)) c)
         (domains (snd (ac3_iter diff_iter m q0 st)) c) /\
    length (domains (snd (ac3_iter diff_iter n q0 st)) c) <=
    length (domains (snd (ac3_iter diff_iter m q0 st)) c).
Proof.
  cbv zeta; split; [apply ac3_as_iter|].
  intros m n c Hmn; apply ac3_iter_mono, Hmn.
Qed.

(** C6: after a successful AC-3 run, a second run changes no domain. *)
Theorem ac3_fixed_point (set_iter : list cell -> list cell)
    (diff_iter : list cell -> cell -> list cell)
    (Hs : forall l, Permutation (set_iter l) l)
    (Hd : forall l x, Permutation (diff_iter l x) (filter (fun c => negb (cell_eqb c x)) l))
    (st : state) :
  neighbors st = initialize_neighbors -> fst (fst (ac3 set_iter diff_iter st)) = true ->
  forall c, domains (snd (ac3 set_iter diff_iter (snd (ac3 set_iter diff_iter st)))) c =
            domains (snd (ac3 set_iter diff_iter st)) c.
Proof. apply (ac3_fixpoint set_iter diff_iter Hs Hd). Qed.

Lemma ac3_fixed_point_witness :
  neighbors (state_of one_blank) = initialize_neighbors /\
  fst (fst (ac3 insertion_order insertion_diff (state_of one_blank))) = true /\
  domains (snd (ac3 insertion_order insertion_diff
                 (snd (ac3 insertion_order insertion_diff (state_of one_blank))))) (0, 0) =
  domains (snd (ac3 insertion_order insertion_diff (state_of one_blank))) (0, 0).
Proof.
  assert (Hn : neighbors (state_of one_blank) = initialize_neighbors)
    by exact (proj2 one_blank_state).
  assert (Hb : fst (fst (ac3 insertion_order insertion_diff (state_of one_blank))) = true)
    by (vm_compute; reflexivity).
  split; [exact Hn|split; [exact Hb|]].
  apply (ac3_fixed_point insertion_order insertion_diff insertion_order_perm insertion_diff_perm
           _ Hn Hb).
Defined.

(** C7: [solve_sudoku] is a function of the grid and of the iteration
    orders (two runs give the same grid or [None], the same trace of
    worklist lengths and the same events), and the backtracking search,
    with its events (selected cells, assigned and withdrawn values), is the
    same for any two iteration orders of the neighbour sets. *)
Theorem solve_sudoku_deterministic (set_iter set_iter' : list cell -> list cell)
    (diff_iter : list cell -> cell -> list cell)
    (Hs : forall l, Permutation (set_iter l) l)
    (Hs' : forall l, Permutation (set_iter' l) l)
    (p : grid) :
  (forall o1 o2, solve_sudoku set_iter diff_iter p = Some o1 ->
     solve_sudoku set_iter diff_iter p = Some o2 -> o1 = o2) /\
  (forall s, backtracking_search set_iter s = backtracking_search set_iter' s).
Proof.
  split; [intros o1 o2 E1 E2; rewrite E1 in E2; injection E2 as E2; exact E2|].
  intros s; apply (backtrack_order set_iter set_iter' Hs Hs').
Qed.

Lemma solve_sudoku_deterministic_witness :
  backtracking_search insertion_order (state_of one_blank) =
  backtracking_search (@rev cell) (state_of one_blank).
Proof.
  exact (proj2 (solve_sudoku_deterministic insertion_order (@rev cell) insertion_diff
                  insertion_order_perm rev_perm one_blank) (state_of one_blank)).
Defined.

(** From an assignment of distinct cells of the grid that is not full,
    [select_unassigned_variable] selects a cell: [min] is never applied to
    an empty sequence. *)
Lemma select_some_keys (a : assignment) (s : state) :
  keys_ok a -> length a <> 81 -> exists var, fst (select_unassigned_variable a s) = Some var.
Proof.
  intros Hk Hl; destruct (select_spec a s) as [_ Hsel].
  destruct (fst (select_unassigned_variable a s)) as [var|]; [eauto|exfalso].
  assert (H : length cells <= length (map fst a)).
  { apply NoDup_incl_length; [apply cells_nodup|].
    intros c Hc; apply asg_mem_spec, Hsel, Hc. }
  pose proof (keys_ok_length a Hk) as Hle.
  rewrite cells_length, length_map in H; lia.
Qed.

(** C8: [backtrack] returns either an assignment of 81 cells or [None]; it
    returns its assignment when that has 81 cells; from an assignment of
    distinct cells of the grid that is not full it selects a cell (no
    [ValueError]) and returns [None] when every candidate of that cell is
    inconsistent or fails; an assignment from [backtracking_search] assigns
    every cell; and a grid returned by [solve_sudoku] is 9x9 without empty
    cell. *)
Theorem backtrack_full_or_none (set_iter : list cell -> list cell)
    (diff_iter : list cell -> cell -> list cell)
    (Hs : forall l, Permutation (set_iter l) l)
    (Hd : forall l x, Permutation (diff_iter l x) (filter (fun c => negb (cell_eqb c x)) l)) :
  (forall fuel a s r, fst (backtrack set_iter fuel a s) = Some r -> length r = 81) /\
  (forall fuel a s, length a = 81 -> fst (backtrack set_iter fuel a s) = Some a) /\
  (forall fuel a s, keys_ok a -> length a <> 81 ->
     (exists var, fst (select_unassigned_variable a s) = Some var) /\
     ((forall var, fst (select_unassigned_variable a s) = Some var ->
         forall v s', In v (domains s var) -> bt_frame s s' ->
         fst (is_consistent set_iter var v a s') = true ->
         fst (backtrack set_iter fuel ((var, v) :: a) s') = None) ->
      fst (backtrack set_iter (S fuel) a s) = None)) /\
  (forall s r, neighbors s = initialize_neighbors ->
     fst (backtracking_search set_iter s) = Some r ->
     length r = 81 /\ forall c, In c cells -> In c (map fst r)) /\
  (forall p g ql lg, solve_sudoku set_iter diff_iter p = Some (Some g, ql, lg) ->
     is_9x9 g /\ forall i j, i < 9 -> j < 9 -> cell_val g (i, j) <> 0%Z).
Proof.
  split; [apply backtrack_length|split; [apply backtrack_done|split; [|split]]].
  - intros fuel a s Hk Hl; split; [apply select_some_keys; auto|].
    apply backtrack_none, Hl.
  - apply (search_covers set_iter Hs).
  - apply (solve_full_grid set_iter diff_iter Hs Hd).
Qed.

Lemma backtrack_full_or_none_witness :
  length (map (fun c => (c, 1%Z)) cells) = 81 /\
  fst (backtrack insertion_order 0 (map (fun c => (c, 1%Z)) cells) (state_of one_blank)) =
  Some (map (fun c => (c, 1%Z)) cells).
Proof.
  assert (Hl : length (map (fun c => (c, 1%Z)) cells) = 81) by reflexivity.
  split; [exact Hl|].
  exact (proj1 (proj2 (backtrack_full_or_none insertion_order insertion_diff insertion_order_perm
                         insertion_diff_perm)) 0 _ (state_of one_blank) Hl).
Defined.

(** C10: [backtrack] and [backtracking_search] leave the puzzle, the
    domains and the neighbour relation of the solver unchanged. *)
Theorem backtracking_search_frame (set_iter : list cell -> list cell) :
  (forall fuel a s, puzzle (snd (backtrack set_iter fuel a s)) = puzzle s /\
     domains (snd (backtrack set_iter fuel a s)) = domains s /\
     neighbors (snd (backtrack set_iter fuel a s)) = neighbors s) /\
  (forall s, puzzle (snd (backtracking_search set_iter s)) = puzzle s /\
     domains (snd (backtracking_search set_iter s)) = domains s /\
     neighbors (snd (backtracking_search set_iter s)) = neighbors s).
Proof.
  split; [intros fuel a s|intros s; unfold backtracking_search];
    apply backtrack_frame_gen.
Qed.

(** ** Further properties of the code *)

(** [SudokuCSP(puzzle)] raises [IndexError] exactly when some index
    [puzzle[i][j]] with [i, j < 9] is out of range. *)
Theorem SudokuCSP_error_iff (p : grid) :
  SudokuCSP p = None <-> exists i j, i < 9 /\ j < 9 /\ py_get2 p i j = None.
Proof.
  split.
  + intros E.
    destruct (existsb (fun c => match py_get2 p (fst c) (snd c) with None => true | Some _ => false end)
                cells) eqn:Ex.
    * apply existsb_exists in Ex as [[i j] [Hc Hn]]; apply in_cells in Hc.
      exists i, j; split; [tauto|split; [tauto|]].
      cbn [fst snd] in Hn; destruct (py_get2 p i j); [discriminate|reflexivity].
    * exfalso.
      destruct (init_doms_some p cells (fun _ => [])) as [d Ed].
      -- intros i j Hc Hn.
         assert (H : existsb (fun c => match py_get2 p (fst c) (snd c) with
                                       | None => true | Some _ => false end) cells = true)
           by (apply existsb_exists; exists (i, j); split; [exact Hc|cbn [fst snd]; rewrite Hn; reflexivity]).
         congruence.
      -- unfold SudokuCSP, initialize_domains in E; rewrite Ed in E; discriminate.
  + intros (i & j & Hi & Hj & Hn).
    destruct (SudokuCSP p) as [st|] eqn:E; [exfalso|reflexivity].
    destruct (SudokuCSP_spec p st E) as (_ & _ & _ & H).
    destruct (H (i, j) ltac:(apply in_cells; auto)) as [v [Ev _]].
    cbn [fst snd] in Ev; congruence.
Qed.

(** On a 9x9 grid, [SudokuCSP] stores the puzzle, gives an empty cell the
    domain [{1, ..., 9}] and a clue [v] the domain [{v}], and builds the
    neighbour relation of [initialize_neighbors]. *)
Theorem SudokuCSP_domains (p : grid) :
  is_9x9 p ->
  exists st, SudokuCSP p = Some st /\ puzzle st = p /\
    neighbors st = initialize_neighbors /\ log st = [] /\
    forall i j, i < 9 -> j < 9 ->
      domains st (i, j) = if Z.eqb (cell_val p (i, j)) 0 then full_domain else [cell_val p (i, j)].
Proof.
  intros H9; destruct (SudokuCSP_9x9 p H9) as [st E]; exists st; split; [exact E|].
  destruct (SudokuCSP_spec p st E) as (H1 & H2 & H3 & H).
  split; [exact H1|split; [exact H2|split; [exact H3|]]].
  intros i j Hi Hj; destruct (H (i, j) ltac:(apply in_cells; auto)) as [v [Ev Ed]].
  cbn [fst snd] in Ev; rewrite py_get2_9x9 in Ev by auto; injection Ev as Ev; subst v.
  exact Ed.
Qed.

Lemma SudokuCSP_domains_witness :
  is_9x9 dup_row /\ exists st, SudokuCSP dup_row = Some st /\ domains st (0, 1) = [5%Z].
Proof.
  assert (H9 : is_9x9 dup_row) by (apply nine_by_nine_ok; vm_compute; reflexivity).
  split; [exact H9|].
  destruct (SudokuCSP_domains dup_row H9) as (st & E & _ & _ & _ & H).
  exists st; split; [exact E|].
  rewrite (H 0 1 ltac:(lia) ltac:(lia)); reflexivity.
Defined.

(** [revise(xi, xj)] removes from the domain of [xi] exactly the values
    without a different value in the domain of [xj], returns whether it
    removed one, and changes nothing else. *)
Theorem revise_semantics (xi xj : cell) (st : state) :
  xi <> xj ->
  let '(r, st') := revise xi xj st in
  (r = true <-> exists x, In x (domains st xi) /\ forall y, In y (domains st xj) -> x = y) /\
  (forall x, In x (domains st' xi) <->
     In x (domains st xi) /\ exists y, In y (domains st xj) /\ x <> y) /\
  (forall c, c <> xi -> domains st' c = domains st c) /\
  puzzle st' = puzzle st /\ neighbors st' = neighbors st /\ log st' = log st.
Proof.
  intros Hne; pose proof (revise_spec xi xj st Hne) as H.
  destruct (revise xi xj st) as [r st'].
  destruct H as (Hr & Hp & Hn & Hl & Ho & Hd).
  split; [|split; [|split; [exact Ho|auto]]].
  - rewrite Hr, existsb_exists; split; intros [x [Hx H]]; exists x; split; auto.
    + intros y Hy; destruct (Z.eq_dec x y) as [|Hxy]; [auto|].
      assert (Hs : supported (domains st) xj x = true) by (apply supported_spec; eauto).
      rewrite Hs in H; discriminate.
    + destruct (supported (domains st) xj x) eqn:Hs; [|reflexivity].
      apply supported_spec in Hs as [y [Hy Hxy]]; exfalso; apply Hxy, H, Hy.
  - intros x; rewrite Hd, filter_In, supported_spec; reflexivity.
Qed.

(** Against a singleton domain [{y}] of [xj], [revise] removes [y] from
    the domain of [xi] and reports whether [y] was there; against a domain
    with two different values it removes nothing. *)
Theorem revise_singleton (xi xj : cell) (st : state) :
  xi <> xj ->
  (forall y, domains st xj = [y] ->
     let '(r, st') := revise xi xj st in
     (r = true <-> In y (domains st xi)) /\
     domains st' xi = filter (fun x => negb (Z.eqb x y)) (domains st xi)) /\
  (forall y1 y2, In y1 (domains st xj) -> In y2 (domains st xj) -> y1 <> y2 ->
     fst (revise xi xj st) = false /\ domains (snd (revise xi xj st)) xi = domains st xi).
Proof.
  intros Hne; pose proof (revise_spec xi xj st Hne) as H.
  destruct (revise xi xj st) as [r st']; cbn [fst snd].
  destruct H as (Hr & _ & _ & _ & _ & Hd).
  assert (Hsup : forall x, (exists y', In y' (domains st xj) /\ x <> y') ->
                 supported (domains st) xj x = true) by (intros x Hx; apply supported_spec, Hx).
  split.
  - intros y Hy.
    assert (Hf : forall x, supported (domains st) xj x = negb (Z.eqb x y))
      by (intros x; unfold supported, constraint_satisfied; rewrite Hy; cbn [existsb];
          rewrite orb_false_r; reflexivity).
    split.
    + rewrite Hr, existsb_exists; split.
      * intros [x [Hx Hn]]; rewrite Hf in Hn; destruct (Z.eqb_spec x y); [subst; exact Hx|discriminate].
      * intros Hin; exists y; split; [exact Hin|rewrite Hf, Z.eqb_refl; reflexivity].
    + rewrite Hd; apply filter_ext; exact Hf.
  - intros y1 y2 H1 H2 H12.
    assert (Ha : forall x, supported (domains st) xj x = true).
    { intros x; apply Hsup; destruct (Z.eq_dec x y1) as [->|Hx]; [exists y2|exists y1]; auto. }
    split.
    + rewrite Hr; apply Bool.not_true_iff_false; rewrite existsb_exists.
      intros [x [_ Hx]]; rewrite Ha in Hx; discriminate.
    + rewrite Hd; apply filter_all_true; intros x _; apply Ha.
Qed.

Lemma revise_semantics_witness :
  (0, 0) <> (0, 1) /\
  fst (revise (0, 0) (0, 1) (state_of dup_row)) = true.
Proof.
  split; [discriminate|].
  pose proof (revise_semantics (0, 0) (0, 1) (state_of dup_row) ltac:(discriminate)) as H.
  destruct (revise (0, 0) (0, 1) (state_of dup_row)) as [r st'].
  apply (proj2 (proj1 H)); exists 5%Z; split; [vm_compute; left; reflexivity|].
  intros y Hy; vm_compute in Hy; destruct Hy as [<-|[]]; reflexivity.
Defined.

Lemma revise_singleton_witness :
  (1, 0) <> (0, 0) /\ domains (state_of dup_row) (0, 0) = [5%Z] /\
  domains (snd (revise (1, 0) (0, 0) (state_of dup_row))) (1, 0) = [1; 2; 3; 4; 6; 7; 8; 9]%Z.
Proof.
  assert (Hd : domains (state_of dup_row) (0, 0) = [5%Z]) by reflexivity.
  split; [discriminate|split; [exact Hd|]].
  pose proof (proj1 (revise_singleton (1, 0) (0, 0) (state_of dup_row) ltac:(discriminate)) 5%Z Hd) as H.
  destruct (revise (1, 0) (0, 0) (state_of dup_row)) as [r st'].
  cbn [snd]; rewrite (proj2 H); reflexivity.
Defined.

(** ** AC-3 *)

(** A valuation that gives neighbours different values and lies in the
    domains is never pruned by [ac3], and [ac3] then returns [True]. *)
Theorem ac3_keeps_solutions (set_iter : list cell -> list cell)
    (diff_iter : list cell -> cell -> list cell)
    (Hs : forall l, Permutation (set_iter l) l)
    (Hd : forall l x, Permutation (diff_iter l x) (filter (fun c => negb (cell_eqb c x)) l))
    (g : cell -> Z) (st : state) :
  (forall a b, In b (initialize_neighbors a) -> g a <> g b) ->
  neighbors st = initialize_neighbors ->
  (forall c, In c cells -> In (g c) (domains st c)) ->
  (forall c, In c cells -> In (g c) (domains (snd (ac3 set_iter diff_iter st)) c)) /\
  fst (fst (ac3 set_iter diff_iter st)) = true.
Proof.
  intros Hg Hnb Hin; split.
  - apply (ac3_run_keeps set_iter diff_iter Hs Hd g st Hg Hnb Hin).
  - apply (ac3_run_true set_iter diff_iter Hs Hd g st Hg Hnb Hin).
Qed.

Lemma solved_grid_distinct :
  forall a b, In b (initialize_neighbors a) -> cell_val solved_grid a <> cell_val solved_grid b.
Proof.
  apply (proj2 (solved_facts solved_grid ltac:(apply solved_check_ok; vm_compute; reflexivity))).
Qed.

Lemma solved_grid_in_one_blank :
  forall c, In c cells -> In (cell_val solved_grid c) (domains (state_of one_blank) c).
Proof.
  assert (H : forallb (fun c => existsb (Z.eqb (cell_val solved_grid c))
                                        (domains (state_of one_blank) c)) cells = true)
    by (vm_compute; reflexivity).
  rewrite forallb_forall in H; intros c Hc; specialize (H c Hc).
  apply existsb_exists in H as [x [Hx E]]; apply Z.eqb_eq in E; rewrite E; exact Hx.
Qed.

Lemma ac3_keeps_solutions_witness :
  In (cell_val solved_grid (0, 0))
     (domains (snd (ac3 insertion_order insertion_diff (state_of one_blank))) (0, 0)).
Proof.
  apply (proj1 (ac3_keeps_solutions insertion_order insertion_diff insertion_order_perm
                  insertion_diff_perm (cell_val solved_grid) (state_of one_blank)
                  solved_grid_distinct (proj2 one_blank_state) solved_grid_in_one_blank)).
  apply in_cells; lia.
Defined.

(** When [ac3] returns [False] on the object built from a grid of 0s and
    clues 1-9, the grid has no valid completion. *)
Theorem ac3_failure_unsolvable (set_iter : list cell -> list cell)
    (diff_iter : list cell -> cell -> list cell)
    (Hs : forall l, Permutation (set_iter l) l)
    (Hd : forall l x, Permutation (diff_iter l x) (filter (fun c => negb (cell_eqb c x)) l))
    (p : grid) (st : state) :
  well_formed p -> SudokuCSP p = Some st -> fst (fst (ac3 set_iter diff_iter st)) = false ->
  forall g, ~ valid_completion p g.
Proof.
  intros Hwf Est Hf g Hv.
  destruct (SudokuCSP_spec p st Est) as (_ & Hnb & _ & _).
  pose proof (sol_in_init p st g Hwf Est Hv) as Hin.
  rewrite (ac3_run_true set_iter diff_iter Hs Hd (cell_val g) st
             (proj2 (solved_facts g (proj1 Hv))) Hnb Hin) in Hf.
  discriminate.
Qed.

Lemma ac3_failure_unsolvable_witness :
  well_formed dup_row /\ fst (fst (ac3 insertion_order insertion_diff (state_of dup_row))) = false /\
  ~ valid_completion dup_row solved_grid.
Proof.
  assert (Hw : well_formed dup_row) by (apply wf_check_ok; vm_compute; reflexivity).
  assert (Hf : fst (fst (ac3 insertion_order insertion_diff (state_of dup_row))) = false)
    by (vm_compute; reflexivity).
  split; [exact Hw|split; [exact Hf|]].
  exact (ac3_failure_unsolvable insertion_order insertion_diff insertion_order_perm
           insertion_diff_perm dup_row (state_of dup_row) Hw (proj1 dup_row_state) Hf solved_grid).
Defined.

(** After [ac3] returns [True], every arc is consistent: each value of a
    cell has a different value in the domain of each neighbour. *)
Theorem ac3_arc_consistent (set_iter : list cell -> list cell)
    (diff_iter : list cell -> cell -> list cell)
    (Hs : forall l, Permutation (set_iter l) l)
    (Hd : forall l x, Permutation (diff_iter l x) (filter (fun c => negb (cell_eqb c x)) l))
    (st : state) :
  neighbors st = initialize_neighbors -> fst (fst (ac3 set_iter diff_iter st)) = true ->
  forall xi xj x, In xj (initialize_neighbors xi) ->
    In x (domains (snd (ac3 set_iter diff_iter st)) xi) ->
    exists y, In y (domains (snd (ac3 set_iter diff_iter st)) xj) /\ x <> y.
Proof.
  intros Hnb Hb xi xj x Hn Hx.
  destruct (ac3_success_consistent set_iter diff_iter Hs Hd st Hnb Hb) as (_ & _ & Hac).
  destruct (Hac xi xj Hn) as [[]|Hc]; apply supported_spec, Hc, Hx.
Qed.

Lemma ac3_arc_consistent_witness :
  neighbors (state_of one_blank) = initialize_neighbors /\
  fst (fst (ac3 insertion_order insertion_diff (state_of one_blank))) = true /\
  exists y, In y (domains (snd (ac3 insertion_order insertion_diff (state_of one_blank))) (0, 1)) /\
    5%Z <> y.
Proof.
  assert (Hb : fst (fst (ac3 insertion_order insertion_diff (state_of one_blank))) = true)
    by (vm_compute; reflexivity).
  assert (Hn : neighbors (state_of one_blank) = initialize_neighbors)
    by exact (proj2 one_blank_state).
  split; [exact Hn|split; [exact Hb|]].
  apply (ac3_arc_consistent insertion_order insertion_diff insertion_order_perm insertion_diff_perm
           (state_of one_blank) Hn Hb (0, 0) (0, 1)).
  - apply nb_same_row; lia.
  - vm_compute; left; reflexivity.
Defined.

(** From non-empty domains, [ac3] returns [False] exactly when it leaves
    some domain empty. *)
Theorem ac3_false_iff_empty (set_iter : list cell -> list cell)
    (diff_iter : list cell -> cell -> list cell)
    (Hs : forall l, Permutation (set_iter l) l)
    (Hd : forall l x, Permutation (diff_iter l x) (filter (fun c => negb (cell_eqb c x)) l))
    (st : state) :
  neighbors st = initialize_neighbors -> (forall c, In c cells -> domains st c <> []) ->
  (fst (fst (ac3 set_iter diff_iter st)) = false <->
   exists c, In c cells /\ domains (snd (ac3 set_iter diff_iter st)) c = []).
Proof.
  intros Hnb Hne; split.
  - apply (ac3_false_empty set_iter diff_iter Hs Hd st Hnb).
  - intros [c [Hc He]].
    destruct (fst (fst (ac3 set_iter diff_iter st))) eqn:Eb; [exfalso|reflexivity].
    apply (ac3_success_nonempty set_iter diff_iter Hs Hd st Hnb Hne Eb c Hc He).
Qed.

Lemma ac3_false_iff_empty_witness :
  neighbors (state_of dup_row) = initialize_neighbors /\
  (forall c, In c cells -> domains (state_of dup_row) c <> []) /\
  exists c, In c cells /\ domains (snd (ac3 insertion_order insertion_diff (state_of dup_row))) c = [].
Proof.
  assert (Hne : forall c, In c cells -> domains (state_of dup_row) c <> [])
    by (intros c Hc; apply (SudokuCSP_nonzero dup_row (state_of dup_row) (proj1 dup_row_state) c Hc)).
  split; [exact (proj2 dup_row_state)|split; [exact Hne|]].
  apply (ac3_false_iff_empty insertion_order insertion_diff insertion_order_perm insertion_diff_perm
           (state_of dup_row) (proj2 dup_row_state) Hne).
  vm_compute; reflexivity.
Defined.

(** [ac3] keeps the puzzle and the neighbour relation, leaves each domain a
    sub-list (in order) of its domain before the run, and only prints. *)
Theorem ac3_effects (set_iter : list cell -> list cell)
    (diff_iter : list cell -> cell -> list cell) (st : state) :
  puzzle (snd (ac3 set_iter diff_iter st)) = puzzle st /\
  neighbors (snd (ac3 set_iter diff_iter st)) = neighbors st /\
  (forall c, exists keep, domains (snd (ac3 set_iter diff_iter st)) c = filter keep (domains st c)) /\
  exists l, log (snd (ac3 set_iter diff_iter st)) = l ++ log st /\
    forall e, In e l -> exists m, e = Out m.
Proof.
  destruct (ac3_frame_run set_iter diff_iter st) as (H1 & H2 & H3 & l & H4 & H5).
  split; [exact H1|split; [exact H2|split; [exact H3|]]].
  exists l; split; [exact H4|].
  intros e He; unfold only_out in H5; rewrite Forall_forall in H5.
  specialize (H5 e He); destruct e; try contradiction; eauto.
Qed.

(** The first worklist length recorded by [ac3] on the object's neighbour
    relation is 81 * 20 = 1620. *)
Theorem ac3_first_length (set_iter : list cell -> list cell)
    (diff_iter : list cell -> cell -> list cell)
    (Hs : forall l, Permutation (set_iter l) l) (st : state) :
  neighbors st = initialize_neighbors ->
  exists rest, snd (fst (ac3 set_iter diff_iter st)) = 1620 :: rest.
Proof.
  intros Hnb; pose proof (initial_queue_length set_iter Hs) as HL.
  unfold ac3, bind, gets; rewrite Hnb.
  generalize (ac3_measure initialize_neighbors (domains st) (initial_queue set_iter initialize_neighbors)).
  intros m; revert HL; generalize (initial_queue set_iter initialize_neighbors).
  intros q HL; destruct q as [|[xi xj] q]; [discriminate|]; cbn [ac3_loop].
  unfold bind at 1; destruct (ac3_body diff_iter xi xj q st) as [[q'|] s1].
  - unfold bind, ret; destruct (ac3_loop diff_iter m q' s1) as [[b l] s2].
    cbn [fst snd]; rewrite HL; eauto.
  - unfold ret; cbn [fst snd]; rewrite HL; eauto.
Qed.

Lemma ac3_first_length_witness :
  neighbors (state_of puzzle0) = initialize_neighbors /\
  exists rest, snd (fst (ac3 insertion_order insertion_diff (state_of puzzle0))) = 1620 :: rest.
Proof.
  split; [exact (proj2 puzzle0_state)|].
  apply (ac3_first_length insertion_order insertion_diff insertion_order_perm), puzzle0_state.
Defined.

(** The fuel of [ac3_loop] is never exhausted: from a worklist of arcs
    between neighbours, any fuel above [ac3_measure] gives the same run, the
    run of the unbounded [while] loop; [ac3] uses such a fuel. *)
Theorem ac3_loop_enough_fuel (set_iter : list cell -> list cell)
    (diff_iter : list cell -> cell -> list cell)
    (Hs : forall l, Permutation (set_iter l) l)
    (Hd : forall l x, Permutation (diff_iter l x) (filter (fun c => negb (cell_eqb c x)) l)) :
  (forall f g q st, arcs_ok q -> neighbors st = initialize_neighbors ->
     ac3_measure initialize_neighbors (domains st) q < f -> f <= g ->
     ac3_loop diff_iter f q st = ac3_loop diff_iter g q st) /\
  (forall st g, neighbors st = initialize_neighbors ->
     ac3_measure initialize_neighbors (domains st) (initial_queue set_iter initialize_neighbors) < g ->
     ac3 set_iter diff_iter st = ac3_loop diff_iter g (initial_queue set_iter initialize_neighbors) st).
Proof.
  assert (Hloop : forall f g q st, arcs_ok q -> neighbors st = initialize_neighbors ->
     ac3_measure initialize_neighbors (domains st) q < f -> f <= g ->
     ac3_loop diff_iter f q st = ac3_loop diff_iter g q st).
  { induction f as [|f IH]; intros g q st Hq Hnb Hm Hfg; [lia|].
    destruct g as [|g]; [lia|].
    destruct q as [|[xi xj] q]; [reflexivity|]; cbn [ac3_loop]; unfold bind at 1 3.
    destruct (ac3_body diff_iter xi xj q st) as [[q'|] s1] eqn:E; [|reflexivity].
    pose proof (ac3_body_measure diff_iter Hd xi xj q q' st s1 Hq Hnb E) as Hm'.
    pose proof (ac3_body_arcs_ok diff_iter Hd xi xj q st Hq Hnb q') as Hq'.
    rewrite E in Hq'; specialize (Hq' eq_refl).
    pose proof (ac3_body_frame diff_iter xi xj q st) as (_ & Hn1 & _).
    rewrite E in Hn1; cbn [snd] in Hn1.
    assert (Hlt : ac3_measure initialize_neighbors (domains s1) q' < f).
    { eapply Nat.lt_le_trans; [exact Hm'|]; apply Nat.lt_succ_r; exact Hm. }
    unfold bind; rewrite (IH g q' s1 Hq' ltac:(congruence) Hlt ltac:(lia)); reflexivity. }
  split; [exact Hloop|].
  intros st g Hnb Hm; unfold ac3, bind, gets; rewrite Hnb.
  apply Hloop; [apply (initial_queue_arcs_ok set_iter Hs)|exact Hnb|rewrite <- Hnb; lia|lia].
Qed.

Lemma ac3_loop_enough_fuel_witness :
  neighbors (state_of one_blank) = initialize_neighbors /\
  ac3 insertion_order insertion_diff (state_of one_blank) =
  ac3_loop insertion_diff 4000 (initial_queue insertion_order initialize_neighbors)
    (state_of one_blank).
Proof.
  split; [exact (proj2 one_blank_state)|].
  apply (proj2 (ac3_loop_enough_fuel insertion_order insertion_diff insertion_order_perm
                  insertion_diff_perm)); [exact (proj2 one_blank_state)|].
  apply Nat.ltb_lt; vm_compute; reflexivity.
Defined.

(** ** The backtracking search *)

Lemma try_values_ext (set_iter : list cell -> list cell)
    (bt1 bt2 : assignment -> M (option assignment)) (var : cell) (a : assignment) (vs : list Z) :
  (forall v s, In v vs -> bt1 ((var, v) :: a) s = bt2 ((var, v) :: a) s) ->
  forall s, try_values set_iter bt1 var a vs s = try_values set_iter bt2 var a vs s.
Proof.
  induction vs as [|v vs IH]; intros Hb s; cbn [try_values]; [reflexivity|].
  rewrite !bind_eq; cbv beta.
  destruct (fst (is_consistent set_iter var v a s)); [|apply IH; intros; apply Hb; right; auto].
  rewrite !bind_eq; cbv beta; rewrite Hb by (left; reflexivity).
  destruct (fst (bt2 ((var, v) :: a) _)); [reflexivity|].
  rewrite !bind_eq; apply IH; intros; apply Hb; right; auto.
Qed.

(** The fuel of [backtrack] bounds its recursion depth and is never
    exhausted: from an assignment of distinct cells, any fuel of at least
    [81 - len(assignment)] gives the same run, and [backtracking_search]
    is the unbounded recursion from the empty assignment. *)
Theorem backtrack_enough_fuel (set_iter : list cell -> list cell) :
  (forall f g a s, keys_ok a -> 81 <= f + length a -> f <= g ->
     backtrack set_iter f a s = backtrack set_iter g a s) /\
  (forall g s, 81 <= g -> backtracking_search set_iter s = backtrack set_iter g [] s).
Proof.
  assert (H : forall f g a s, keys_ok a -> 81 <= f + length a -> f <= g ->
             backtrack set_iter f a s = backtrack set_iter g a s).
  { induction f as [|f IH]; intros g a s Hk Hf Hfg; pose proof (keys_ok_length a Hk) as Hle.
    - assert (El : length a = 81) by lia.
      destruct g as [|g]; [reflexivity|]; cbn [backtrack]; rewrite !bind_eq; cbv beta.
      rewrite El; reflexivity.
    - destruct g as [|g]; [lia|]; cbn [backtrack]; rewrite !bind_eq; cbv beta.
      destruct (Nat.eqb_spec (length a) 81) as [|Hne]; [reflexivity|].
      rewrite !bind_eq; cbv beta.
      set (s1 := snd (emit (Backtrack_call (length a)) s)).
      destruct (select_spec a s1) as [_ Hsel].
      destruct (fst (select_unassigned_variable a s1)) as [var|]; [|reflexivity].
      destruct Hsel as [Hvar Hm].
      rewrite !bind_eq; cbv beta.
      apply try_values_ext; intros v s' _; apply IH; [apply keys_ok_cons; auto|cbn [length]; lia|lia]. }
  split; [exact H|].
  intros g s Hg; unfold backtracking_search.
  assert (Hk : keys_ok []) by (split; [constructor|intros _ []]).
  transitivity (backtrack set_iter 81 [] s); [symmetry|]; apply H; auto; cbn [length]; lia.
Qed.

Lemma backtrack_enough_fuel_witness :
  keys_ok [] /\ 81 <= 81 + length (@nil (cell * Z)) /\ 81 <= 90 /\
  backtrack insertion_order 81 [] (state_of puzzle0) =
  backtrack insertion_order 90 [] (state_of puzzle0).
Proof.
  assert (Hk : keys_ok []) by (split; [constructor|intros _ []]).
  split; [exact Hk|split; [cbn; lia|split; [lia|]]].
  apply (proj1 (backtrack_enough_fuel insertion_order)); [exact Hk|cbn; lia|lia].
Defined.

(** [min(l, key=f)] returns an element of least key, and no element
    before it has the same key. *)
Lemma py_min_by_first (f : cell -> nat) (best : cell) (l : list cell) :
  (forall x, In x (best :: l) -> f (py_min_by f best l) <= f x) /\
  exists l1 l2, best :: l = l1 ++ py_min_by f best l :: l2 /\
    forall x, In x l1 -> f (py_min_by f best l) < f x.
Proof.
  revert best; induction l as [|x l IH]; intros best; cbn [py_min_by].
  - split; [intros y [<-|[]]; lia|].
    exists [], []; split; [reflexivity|intros _ []].
  - destruct (Nat.ltb_spec (f x) (f best)) as [Hlt|Hge].
    + destruct (IH x) as [Hmin [l1 [l2 [E Hl1]]]].
      specialize (Hmin x (or_introl eq_refl)) as Hx.
      split.
      * intros y [<-|Hy]; [lia|apply Hmin, Hy].
      * exists (best :: l1), l2; split; [rewrite E; reflexivity|].
        intros y [<-|Hy]; [lia|apply Hl1, Hy].
    + destruct (IH best) as [Hmin [l1 [l2 [E Hl1]]]].
      specialize (Hmin best (or_introl eq_refl)) as Hb.
      split.
      * intros y [<-|[<-|Hy]]; [exact Hb|lia|apply Hmin; right; exact Hy].
      * destruct l1 as [|b l1]; cbn [app] in E; injection E as E1 E2.
        -- exists [], (x :: l); split; [cbn [app]; rewrite <- E1; reflexivity|intros _ []].
        -- subst b; exists (best :: x :: l1), l2; split; [cbn [app]; do 2 f_equal; exact E2|].
           pose proof (Hl1 best (or_introl eq_refl)) as Hlb.
           intros y [<-|[<-|Hy]]; [exact Hlb|lia|apply Hl1; right; exact Hy].
Qed.

Lemma filter_split {A} (p : A -> bool) (L : list A) (m : A) (l2 : list A) :
  forall l1, filter p L = l1 ++ m :: l2 ->
  exists L1 L2, L = L1 ++ m :: L2 /\ filter p L1 = l1.
Proof.
  induction L as [|y L IH]; intros l1 E; cbn [filter] in E; [destruct l1; discriminate|].
  destruct (p y) eqn:Hp.
  - destruct l1 as [|z l1]; cbn [app] in E; injection E as E1 E2.
    + subst y; exists [], L; split; reflexivity.
    + destruct (IH l1 E2) as [L1 [L2 [-> Hf]]].
      exists (y :: L1), L2; split; [reflexivity|cbn [filter]; rewrite Hp, Hf; congruence].
  - destruct (IH l1 E) as [L1 [L2 [-> Hf]]].
    exists (y :: L1), L2; split; [reflexivity|cbn [filter]; rewrite Hp; exact Hf].
Qed.

(** [select_unassigned_variable] (minimum remaining values) returns, in
    the row-major order of the domain dictionary, the first unassigned cell
    whose domain is smallest among the unassigned cells; it fails ([min] of
    an empty sequence) exactly when every cell is assigned, and it changes
    no state. *)
Theorem select_unassigned_variable_mrv (a : assignment) (s : state) :
  snd (select_unassigned_variable a s) = s /\
  (fst (select_unassigned_variable a s) = None <-> forall c, In c cells -> asg_mem c a = true) /\
  (forall v, fst (select_unassigned_variable a s) = Some v ->
     asg_mem v a = false /\
     exists before after, cells = before ++ v :: after /\
       (forall c, In c cells -> asg_mem c a = false ->
          length (domains s v) <= length (domains s c)) /\
       (forall c, In c before -> asg_mem c a = false ->
          length (domains s v) < length (domains s c))).
Proof.
  assert (Hf : forall c, In c cells -> asg_mem c a = false ->
             In c (filter (fun v => negb (asg_mem v a)) cells))
    by (intros c Hc Hm; apply filter_In; rewrite Hm; auto).
  unfold select_unassigned_variable, bind, gets.
  destruct (filter (fun v => negb (asg_mem v a)) cells) as [|v0 vs] eqn:E;
    unfold ret; cbn [fst snd]; split; try reflexivity.
  - split; [split; [intros _ c Hc|reflexivity]|discriminate].
    destruct (asg_mem c a) eqn:Hm; [reflexivity|].
    specialize (Hf c Hc Hm); destruct Hf.
  - split.
    + split; [discriminate|intros H].
      assert (H0 : In v0 (filter (fun v => negb (asg_mem v a)) cells)) by (rewrite E; left; auto).
      apply filter_In in H0 as [H0 H1]; rewrite H in H1 by exact H0; discriminate.
    + intros v Hv; injection Hv as <-.
      destruct (py_min_by_first (fun var => length (domains s var)) v0 vs)
        as [Hmin [l1 [l2 [Es Hl1]]]].
      rewrite <- E in Es.
      destruct (filter_split _ _ _ _ _ Es) as [L1 [L2 [Ec Hf1]]].
      assert (Hin : In (py_min_by (fun var => length (domains s var)) v0 vs)
                       (filter (fun v => negb (asg_mem v a)) cells))
        by (rewrite Es; apply in_or_app; right; left; reflexivity).
      apply filter_In in Hin as [_ Hm]; apply negb_true_iff in Hm.
      split; [exact Hm|exists L1, L2; split; [exact Ec|split]].
      * intros c Hc Hmc; apply Hmin, Hf; auto.
      * intros c Hc Hmc; apply Hl1; rewrite <- Hf1; apply filter_In; rewrite Hmc; auto.
Qed.

Lemma select_unassigned_variable_mrv_witness :
  fst (select_unassigned_variable [] (state_of one_blank)) = Some (0, 1) /\
  asg_mem (0, 1) [] = false.
Proof.
  assert (E : fst (select_unassigned_variable [] (state_of one_blank)) = Some (0, 1))
    by (vm_compute; reflexivity).
  split; [exact E|].
  exact (proj1 (proj2 (proj2 (select_unassigned_variable_mrv [] (state_of one_blank))) _ E)).
Defined.

(** [is_consistent(var, value, assignment)] holds exactly when no
    neighbour of [var] is assigned [value], whatever the iteration order
    of the neighbour set; it changes no state. *)
Theorem is_consistent_iff (set_iter : list cell -> list cell)
    (Hs : forall l, Permutation (set_iter l) l)
    (var : cell) (value : Z) (a : assignment) (s : state) :
  neighbors s = initialize_neighbors ->
  snd (is_consistent set_iter var value a s) = s /\
  (fst (is_consistent set_iter var value a s) = true <->
   forall n, In n (initialize_neighbors var) -> asg_find n a <> Some value).
Proof.
  intros Hnb; destruct (is_consistent_spec set_iter Hs var value a s) as [H1 H2].
  split; [exact H1|rewrite H2, Hnb; split].
  - intros H n Hn E; exact (H n value Hn E eq_refl).
  - intros H n w Hn E ->; exact (H n Hn E).
Qed.

Lemma is_consistent_iff_witness :
  neighbors (state_of one_blank) = initialize_neighbors /\
  fst (is_consistent insertion_order (0, 0) 5%Z [((0, 1), 3%Z)] (state_of one_blank)) = true.
Proof.
  split; [exact (proj2 one_blank_state)|].
  apply (proj2 (proj2 (is_consistent_iff insertion_order insertion_order_perm (0, 0) 5%Z
                         [((0, 1), 3%Z)] (state_of one_blank) (proj2 one_blank_state)))).
  intros n _; cbn [asg_find]; destruct (cell_eqb (0, 1) n); [|discriminate].
  intros E; injection E; discriminate.
Defined.

Lemma length_filter_count (value : Z) (l : list Z) :
  length (filter (fun nv => negb (constraint_satisfied value nv)) l) = count_occ Z.eq_dec l value.
Proof.
  induction l as [|x l IH]; cbn [filter count_occ]; [reflexivity|].
  replace (negb (constraint_satisfied value x)) with (Z.eqb value x)
    by (unfold constraint_satisfied; rewrite negb_involutive; reflexivity).
  destruct (Z.eqb_spec value x), (Z.eq_dec x value); try congruence; cbn [length]; lia.
Qed.

Lemma fold_count (a : assignment) (value : Z) (d : store) (l : list cell) (acc : nat) :
  fold_left (fun count n =>
      if asg_mem n a then count
      else count + length (filter (fun nv => negb (constraint_satisfied value nv)) (d n))) l acc =
  acc + list_sum (map (fun n => if asg_mem n a then 0 else count_occ Z.eq_dec (d n) value) l).
Proof.
  revert acc; induction l as [|n l IH]; intros acc; cbn [fold_left map]; [cbn; lia|].
  rewrite IH, length_filter_count; change (list_sum (?x :: ?r)) with (x + list_sum r).
  destruct (asg_mem n a); lia.
Qed.

(** [count_constraints(var, value, assignment)] is the number of
    occurrences of [value] in the domains of the unassigned neighbours of
    [var], whatever the iteration order of the neighbour set; it changes no
    state. *)
Theorem count_constraints_sum (set_iter : list cell -> list cell)
    (Hs : forall l, Permutation (set_iter l) l)
    (var : cell) (value : Z) (a : assignment) (s : state) :
  snd (count_constraints set_iter var value a s) = s /\
  fst (count_constraints set_iter var value a s) =
  list_sum (map (fun n => if asg_mem n a then 0 else count_occ Z.eq_dec (domains s n) value)
                (neighbors s var)).
Proof.
  unfold count_constraints, bind, gets, ret; cbn [fst snd]; split; [reflexivity|].
  rewrite fold_count; cbn [Nat.add].
  apply Permutation_list_sum, Permutation_map, Hs.
Qed.

Lemma insert_by_hd {A} (k : A -> nat) (x y : A) (l : list A) :
  HdRel (fun u v => k u <= k v) y l -> k y <= k x ->
  HdRel (fun u v => k u <= k v) y (insert_by k x l).
Proof.
  intros H Hyx; destruct l as [|z l]; cbn [insert_by]; [constructor; exact Hyx|].
  destruct (k x <? k z); constructor; [exact Hyx|inversion H; assumption].
Qed.

Lemma insert_by_sorted {A} (k : A -> nat) (x : A) (l : list A) :
  Sorted (fun u v => k u <= k v) l -> Sorted (fun u v => k u <= k v) (insert_by k x l).
Proof.
  induction l as [|y l IH]; intros H; cbn [insert_by]; [repeat constructor|].
  destruct (Nat.ltb_spec (k x) (k y)).
  - constructor; [exact H|constructor; lia].
  - inversion H as [|? ? H1 H2]; subst.
    constructor; [apply IH, H1|apply insert_by_hd; [exact H2|lia]].
Qed.

Lemma sort_by_key_sorted {A} (k : A -> nat) (l : list A) :
  Sorted (fun u v => k u <= k v) (sort_by_key k l).
Proof.
  unfold sort_by_key.
  assert (H : forall acc, Sorted (fun u v => k u <= k v) acc ->
             Sorted (fun u v => k u <= k v) (fold_left (fun acc x => insert_by k x acc) l acc)).
  { induction l as [|x l IH]; intros acc Hacc; cbn [fold_left]; [exact Hacc|].
    apply IH, insert_by_sorted, Hacc. }
  apply H; constructor.
Qed.

(** [least_constraining_values(var, assignment)] returns the values of
    the domain of [var], each once, ordered by non-decreasing
    [count_constraints]; it changes no state. *)
Theorem least_constraining_values_sorted (set_iter : list cell -> list cell)
    (var : cell) (a : assignment) (s : state) :
  snd (least_constraining_values set_iter var a s) = s /\
  Permutation (fst (least_constraining_values set_iter var a s)) (domains s var) /\
  Sorted (fun x y => fst (count_constraints set_iter var x a s) <=
                     fst (count_constraints set_iter var y a s))
         (fst (least_constraining_values set_iter var a s)).
Proof.
  destruct (lcv_spec set_iter var a s) as [H1 H2].
  split; [exact H1|split; [exact H2|]].
  unfold least_constraining_values, bind, gets, ret; cbn [fst snd].
  apply sort_by_key_sorted.
Qed.

Lemma count_constraints_sum_witness :
  fst (count_constraints insertion_order (0, 0) 3%Z [] (state_of one_blank)) = 2.
Proof.
  rewrite (proj2 (count_constraints_sum insertion_order insertion_order_perm (0, 0) 3%Z []
                    (state_of one_blank))).
  vm_compute; reflexivity.
Defined.

(** A result of [backtracking_search] from the object's neighbour relation
    assigns each of the 81 cells exactly once, a value of its domain, and
    different values to neighbours. *)
Theorem backtracking_search_sound (set_iter : list cell -> list cell)
    (Hs : forall l, Permutation (set_iter l) l) (s : state) (r : assignment) :
  neighbors s = initialize_neighbors -> fst (backtracking_search set_iter s) = Some r ->
  length r = 81 /\ NoDup (map fst r) /\ (forall c, In c (map fst r) <-> In c cells) /\
  (forall c v, In (c, v) r -> In v (domains s c)) /\
  (forall c v c' v', In (c, v) r -> In (c', v') r -> In c' (initialize_neighbors c) -> v <> v').
Proof.
  intros Hnb E.
  destruct (backtrack_sound set_iter Hs 82 [] s r Hnb (asg_ok_nil _) E) as [Hl [[Hnd Hk] [Hd Hc]]].
  split; [exact Hl|split; [exact Hnd|split; [|split; [exact Hd|exact Hc]]]].
  intros c; split; [apply Hk|apply keys_ok_full; [split; assumption|exact Hl]].
Qed.

Lemma solved_grid_state :
  SudokuCSP solved_grid = Some (state_of solved_grid) /\
  neighbors (state_of solved_grid) = initialize_neighbors.
Proof. apply state_of_ok; vm_compute; reflexivity. Qed.

Lemma backtracking_search_sound_witness :
  neighbors (state_of solved_grid) = initialize_neighbors /\
  fst (backtracking_search insertion_order (state_of solved_grid)) =
    Some (rev (map (fun c => (c, cell_val solved_grid c)) cells)) /\
  length (rev (map (fun c => (c, cell_val solved_grid c)) cells)) = 81.
Proof.
  assert (E : fst (backtracking_search insertion_order (state_of solved_grid)) =
                Some (rev (map (fun c => (c, cell_val solved_grid c)) cells)))
    by (vm_compute; reflexivity).
  split; [exact (proj2 solved_grid_state)|split; [exact E|]].
  exact (proj1 (backtracking_search_sound insertion_order insertion_order_perm
                  (state_of solved_grid) _ (proj2 solved_grid_state) E)).
Defined.

(** [backtracking_search] finds an assignment whenever some valuation
    lies in the domains and gives neighbours different values. *)
Theorem backtracking_search_complete (set_iter : list cell -> list cell)
    (Hs : forall l, Permutation (set_iter l) l) (g : cell -> Z) (s : state) :
  neighbors s = initialize_neighbors ->
  (forall x y, In y (initialize_neighbors x) -> g x <> g y) ->
  (forall c, In c cells -> In (g c) (domains s c)) ->
  exists r, fst (backtracking_search set_iter s) = Some r.
Proof.
  intros Hnb Hg Hin.
  pose proof (backtrack_complete set_iter Hs g 82 [] s Hnb Hg Hin) as H.
  unfold backtracking_search; destruct (fst (backtrack set_iter 82 [] s)) as [r|]; [eauto|].
  exfalso; apply H; [split; [constructor|intros _ []]|intros _ _ []|cbn [length]; lia|reflexivity].
Qed.

Lemma backtracking_search_complete_witness :
  exists r, fst (backtracking_search insertion_order (state_of one_blank)) = Some r.
Proof.
  exact (backtracking_search_complete insertion_order insertion_order_perm (cell_val solved_grid)
           (state_of one_blank) (proj2 one_blank_state) solved_grid_distinct
           solved_grid_in_one_blank).
Defined.

(** [backtrack] only adds entries to the assignment it is given: a
    result is that assignment with entries put in front. *)
Theorem backtrack_extends (set_iter : list cell -> list cell) (fuel : nat) :
  forall a s r, fst (backtrack set_iter fuel a s) = Some r -> exists b, r = b ++ a.
Proof.
  induction fuel as [|f IH]; intros a s r; cbn [backtrack]; rewrite bind_eq; cbv beta;
    set (s1 := snd (emit (Backtrack_call (length a)) s));
    destruct (length a =? 81);
    try (unfold ret; cbn [fst]; intros E; injection E as <-; exists []; reflexivity);
    try (unfold ret; discriminate).
  rewrite bind_eq.
  destruct (fst (select_unassigned_variable a s1)) as [var|]; [|unfold ret; discriminate].
  rewrite bind_eq; cbv beta; rewrite bind_eq; intros H.
  destruct (try_values_some set_iter (backtrack set_iter f) var a (backtrack_frame_gen set_iter f)
              _ _ r H) as (v & s' & _ & _ & _ & Hr).
  destruct (IH _ _ _ Hr) as [b ->].
  exists (b ++ [(var, v)]); rewrite <- app_assoc; reflexivity.
Qed.

Definition solved_but_first : assignment :=
  map (fun c => (c, cell_val solved_grid c)) (tl cells).

Lemma backtrack_extends_witness :
  fst (backtrack insertion_order 1 solved_but_first (state_of one_blank)) =
    Some (((0, 0), 5%Z) :: solved_but_first) /\
  exists b, ((0, 0), 5%Z) :: solved_but_first = b ++ solved_but_first.
Proof.
  assert (E : fst (backtrack insertion_order 1 solved_but_first (state_of one_blank)) =
                Some (((0, 0), 5%Z) :: solved_but_first)) by (vm_compute; reflexivity).
  split; [exact E|exact (backtrack_extends insertion_order 1 _ _ _ E)].
Defined.

(** ** [solve_sudoku] *)

(** When AC-3 succeeds and leaves one value in every domain,
    [solve_sudoku] returns the 9x9 grid of these values with the AC-3
    trace, and only prints: the backtracking search is not run. *)
Theorem solve_sudoku_by_ac3 (set_iter : list cell -> list cell)
    (diff_iter : list cell -> cell -> list cell) (p : grid) (st : state) :
  SudokuCSP p = Some st -> fst (fst (ac3 set_iter diff_iter st)) = true ->
  (forall c, In c cells -> length (domains (snd (ac3 set_iter diff_iter st)) c) = 1) ->
  exists g lg, solve_sudoku set_iter diff_iter p = Some (Some g, snd (fst (ac3 set_iter diff_iter st)), lg) /\
    is_9x9 g /\
    (forall i j x, i < 9 -> j < 9 -> domains (snd (ac3 set_iter diff_iter st)) (i, j) = [x] ->
       cell_val g (i, j) = x) /\
    (forall e, In e lg -> exists m, e = Out m).
Proof.
  intros Est Hb Hall.
  destruct (SudokuCSP_spec p st Est) as (_ & _ & Hlog & _).
  pose proof (ac3_log_out set_iter diff_iter st Hlog) as Hout.
  assert (Hsolved : fst (is_solved (snd (ac3 set_iter diff_iter st))) = true).
  { rewrite is_solved_eq; cbn [fst]; apply forallb_forall; intros c Hc; apply Nat.eqb_eq, Hall, Hc. }
  destruct (solve_some set_iter diff_iter p st Est) as (r & ql & lg & E).
  destruct (solve_outcome set_iter diff_iter p r ql lg E) as (st' & Est' & Hql & Hc).
  rewrite Est in Est'; injection Est' as <-.
  destruct Hc as [(Hf & _)|[(_ & _ & Er & m & El)|(_ & Hf & _)]]; try congruence.
  subst r ql; exists (grid_of (fun c => py_next (domains (snd (ac3 set_iter diff_iter st)) c))), lg.
  split; [exact E|split; [apply grid_of_9x9|split]].
  - intros i j x Hi Hj Hx; rewrite grid_of_val by (apply in_cells; auto); rewrite Hx; reflexivity.
  - intros e He; rewrite El in He; destruct He as [<-|He]; [eauto|].
    unfold only_out in Hout; rewrite Forall_forall in Hout.
    specialize (Hout e He); destruct e; try contradiction; eauto.
Qed.

Lemma solve_sudoku_by_ac3_witness :
  SudokuCSP one_blank = Some (state_of one_blank) /\
  fst (fst (ac3 insertion_order insertion_diff (state_of one_blank))) = true /\
  (forall c, In c cells ->
     length (domains (snd (ac3 insertion_order insertion_diff (state_of one_blank))) c) = 1) /\
  exists g lg, solve_sudoku insertion_order insertion_diff one_blank =
    Some (Some g, snd (fst (ac3 insertion_order insertion_diff (state_of one_blank))), lg).
Proof.
  assert (Hb : fst (fst (ac3 insertion_order insertion_diff (state_of one_blank))) = true)
    by (vm_compute; reflexivity).
  assert (Hall : forall c, In c cells ->
            length (domains (snd (ac3 insertion_order insertion_diff (state_of one_blank))) c) = 1).
  { assert (H : (let d := domains (snd (ac3 insertion_order insertion_diff (state_of one_blank))) in
                 forallb (fun c => Nat.eqb (length (d c)) 1) cells) = true)
      by (vm_compute; reflexivity).
    cbv zeta in H; rewrite forallb_forall in H; intros c Hc; apply Nat.eqb_eq, H, Hc. }
  split; [exact (proj1 one_blank_state)|split; [exact Hb|split; [exact Hall|]]].
  destruct (solve_sudoku_by_ac3 insertion_order insertion_diff one_blank (state_of one_blank)
              (proj1 one_blank_state) Hb Hall) as (g & lg & E & _).
  exists g, lg; exact E.
Defined.

(** After a successful [ac3], the domain of a clue cell is still exactly
    the clue. *)
Theorem ac3_keeps_clues (set_iter : list cell -> list cell)
    (diff_iter : list cell -> cell -> list cell)
    (Hs : forall l, Permutation (set_iter l) l)
    (Hd : forall l x, Permutation (diff_iter l x) (filter (fun c => negb (cell_eqb c x)) l))
    (p : grid) (st : state) :
  SudokuCSP p = Some st -> fst (fst (ac3 set_iter diff_iter st)) = true ->
  forall i j v, i < 9 -> j < 9 -> py_get2 p i j = Some v -> v <> 0%Z ->
  domains (snd (ac3 set_iter diff_iter st)) (i, j) = [v].
Proof.
  intros Est Hb i j v Hi Hj Hg Hv.
  assert (Hc : In (i, j) cells) by (apply in_cells; auto).
  destruct (SudokuCSP_spec p st Est) as (_ & Hnb & _ & Hdom).
  destruct (Hdom (i, j) Hc) as [v' [Ev Ed]]; cbn [fst snd] in Ev; rewrite Hg in Ev.
  injection Ev as <-; rewrite (proj2 (Z.eqb_neq v 0) Hv) in Ed.
  assert (Hne : nonempty st) by (intros c Hc'; apply (SudokuCSP_nonzero p st Est c Hc')).
  pose proof (ac3_success_nonempty set_iter diff_iter Hs Hd st Hnb Hne Hb (i, j) Hc) as Hn1.
  destruct (ac3_frame_run set_iter diff_iter st) as (_ & _ & Hf & _).
  destruct (Hf (i, j)) as [P EP]; rewrite EP in Hn1 |- *; rewrite Ed in Hn1 |- *.
  cbn [filter] in Hn1 |- *; destruct (P v); [reflexivity|contradiction].
Qed.

Lemma ac3_keeps_clues_witness :
  SudokuCSP one_blank = Some (state_of one_blank) /\
  fst (fst (ac3 insertion_order insertion_diff (state_of one_blank))) = true /\
  py_get2 one_blank 4 4 = Some 5%Z /\
  domains (snd (ac3 insertion_order insertion_diff (state_of one_blank))) (4, 4) = [5%Z].
Proof.
  assert (Hb : fst (fst (ac3 insertion_order insertion_diff (state_of one_blank))) = true)
    by (vm_compute; reflexivity).
  split; [exact (proj1 one_blank_state)|split; [exact Hb|split; [reflexivity|]]].
  apply (ac3_keeps_clues insertion_order insertion_diff insertion_order_perm insertion_diff_perm
           one_blank (state_of one_blank) (proj1 one_blank_state) Hb 4 4 5%Z); try lia; reflexivity.
Defined.

(** ** The stored puzzle is never read *)

(** Two solver objects that differ at most in their [puzzle] field. *)
Definition same_fields (s s' : state) : Prop :=
  domains s = domains s' /\ neighbors s = neighbors s' /\ log s = log s'.

(** A computation that does not read [self.puzzle]: from objects that differ
    only there it gives the same result and objects that differ only
    there. *)
Definition puzzle_free {A} (m : M A) : Prop :=
  forall s s', same_fields s s' -> fst (m s) = fst (m s') /\ same_fields (snd (m s)) (snd (m s')).

Lemma pf_ret {A} (x : A) : puzzle_free (ret x).
Proof. intros s s' H; split; [reflexivity|exact H]. Qed.

Lemma pf_bind {A B} (m : M A) (k : A -> M B) :
  puzzle_free m -> (forall x, puzzle_free (k x)) -> puzzle_free (bind m k).
Proof.
  intros Hm Hk s s' H; rewrite !bind_eq.
  destruct (Hm s s' H) as [E1 H1]; rewrite E1; apply Hk, H1.
Qed.

Lemma pf_gets {A} (f : state -> A) :
  (forall s s', same_fields s s' -> f s = f s') -> puzzle_free (gets f).
Proof. intros Hf s s' H; split; [apply Hf, H|exact H]. Qed.

Lemma pf_domains : puzzle_free (gets domains).
Proof. apply pf_gets; intros s s' H; apply H. Qed.

Lemma pf_neighbors : puzzle_free (gets neighbors).
Proof. apply pf_gets; intros s s' H; apply H. Qed.

Lemma pf_modify (f : store -> store) : puzzle_free (modify_domains f).
Proof.
  intros s s' (H1 & H2 & H3); split; [reflexivity|].
  unfold same_fields; cbn; rewrite H1, H2, H3; auto.
Qed.

Lemma pf_emit (e : event) : puzzle_free (emit e).
Proof.
  intros s s' (H1 & H2 & H3); split; [reflexivity|].
  unfold same_fields; cbn; rewrite H1, H2, H3; auto.
Qed.

Lemma pf_revise_loop (xi xj : cell) (xs : list Z) (revised : bool) :
  puzzle_free (revise_loop xi xj xs revised).
Proof.
  revert revised; induction xs as [|x xs IH]; intros revised; cbn [revise_loop]; [apply pf_ret|].
  apply pf_bind; [apply pf_domains|intros d].
  destruct (negb _); [apply pf_bind; [apply pf_modify|intros _; apply IH]|apply IH].
Qed.

Lemma pf_revise (xi xj : cell) : puzzle_free (revise xi xj).
Proof. unfold revise; apply pf_bind; [apply pf_domains|intros d; apply pf_revise_loop]. Qed.

Lemma pf_ac3_loop (diff_iter : list cell -> cell -> list cell) (fuel : nat) (q : list arc) :
  puzzle_free (ac3_loop diff_iter fuel q).
Proof.
  revert q; induction fuel as [|f IH]; intros q; cbn [ac3_loop]; [apply pf_ret|].
  destruct q as [|[xi xj] q]; [apply pf_ret|].
  apply pf_bind; [|intros [q'|]; [apply pf_bind; [apply IH|intros; apply pf_ret]|apply pf_ret]].
  unfold ac3_body; apply pf_bind; [apply pf_revise|intros [|]; [|apply pf_ret]].
  apply pf_bind; [apply pf_domains|intros d; destruct (d xi)].
  - apply pf_bind; [apply pf_emit|intros; apply pf_ret].
  - apply pf_bind; [apply pf_neighbors|intros; apply pf_ret].
Qed.

Lemma pf_ac3 (set_iter : list cell -> list cell) (diff_iter : list cell -> cell -> list cell) :
  puzzle_free (ac3 set_iter diff_iter).
Proof.
  unfold ac3; apply pf_bind; [apply pf_neighbors|intros nb].
  apply pf_bind; [apply pf_domains|intros d; apply pf_ac3_loop].
Qed.

Lemma pf_count_constraints (set_iter : list cell -> list cell) (var : cell) (value : Z)
    (a : assignment) : puzzle_free (count_constraints set_iter var value a).
Proof.
  unfold count_constraints; apply pf_bind; [apply pf_neighbors|intros nb].
  apply pf_bind; [apply pf_domains|intros d; apply pf_ret].
Qed.

Lemma pf_lcv (set_iter : list cell -> list cell) (var : cell) (a : assignment) :
  puzzle_free (least_constraining_values set_iter var a).
Proof.
  intros s s' H; split; [|exact H].
  unfold least_constraining_values, bind, gets, ret; cbn [fst].
  pose proof H as [Hd _]; rewrite Hd; apply sort_by_key_ext; intros v.
  apply (pf_count_constraints set_iter var v a s s' H).
Qed.

Lemma pf_try_values (set_iter : list cell -> list cell) (bt : assignment -> M (option assignment))
    (var : cell) (a : assignment) (vs : list Z) :
  (forall a', puzzle_free (bt a')) -> puzzle_free (try_values set_iter bt var a vs).
Proof.
  intros Hb; induction vs as [|v vs IH]; cbn [try_values]; [apply pf_ret|].
  apply pf_bind; [unfold is_consistent; apply pf_bind; [apply pf_neighbors|intros; apply pf_ret]|].
  intros [|]; [|exact IH].
  apply pf_bind; [apply pf_emit|intros _].
  apply pf_bind; [apply Hb|intros [r|]; [apply pf_ret|]].
  apply pf_bind; [apply pf_emit|intros _; exact IH].
Qed.

Lemma pf_backtrack (set_iter : list cell -> list cell) (fuel : nat) (a : assignment) :
  puzzle_free (backtrack set_iter fuel a).
Proof.
  revert a; induction fuel as [|f IH]; intros a; cbn [backtrack];
    (apply pf_bind; [apply pf_emit|intros _]); destruct (length a =? 81); try apply pf_ret.
  apply pf_bind; [|intros [var|]; [|apply pf_ret]].
  - unfold select_unassigned_variable; apply pf_bind; [apply pf_domains|intros d].
    destruct (filter _ cells); apply pf_ret.
  - apply pf_bind; [apply pf_emit|intros _].
    apply pf_bind; [apply pf_lcv|intros vals; apply pf_try_values, IH].
Qed.

Lemma pf_solve_m (set_iter : list cell -> list cell) (diff_iter : list cell -> cell -> list cell) :
  puzzle_free (solve_m set_iter diff_iter).
Proof.
  unfold solve_m; apply pf_bind; [apply pf_ac3|intros res; cbv zeta].
  destruct (fst res); [|apply pf_ret].
  apply pf_bind; [unfold is_solved; apply pf_bind; [apply pf_domains|intros; apply pf_ret]|].
  intros [|].
  - apply pf_bind; [apply pf_emit|intros _].
    apply pf_bind; [unfold get_solution; apply pf_bind; [apply pf_domains|intros; apply pf_ret]|].
    intros; apply pf_ret.
  - apply pf_bind; [apply pf_emit|intros _].
    apply pf_bind; [apply pf_backtrack|intros [[|x l]|]; apply pf_ret].
Qed.

Lemma init_doms_agree (p p' : grid) (cs : list cell) (d : store) :
  (forall c, In c cs -> py_get2 p (fst c) (snd c) = py_get2 p' (fst c) (snd c)) ->
  init_doms p cs d = init_doms p' cs d.
Proof.
  revert d; induction cs as [|[i j] cs IH]; intros d H; cbn [init_doms]; [reflexivity|].
  pose proof (H (i, j) (or_introl eq_refl)) as Hij; cbn [fst snd] in Hij; rewrite Hij.
  destruct (py_get2 p' i j); [apply IH; intros c Hc; apply H; right; exact Hc|reflexivity].
Qed.

(** [solve_sudoku] reads the grid only at [puzzle[i][j]] for [i, j < 9]
    (extra rows and columns are ignored), and the solver never reads the
    [puzzle] it stores: its result and output do not depend on it. *)
Theorem solve_sudoku_reads_9x9 (set_iter : list cell -> list cell)
    (diff_iter : list cell -> cell -> list cell) :
  (forall p p', (forall i j, i < 9 -> j < 9 -> py_get2 p i j = py_get2 p' i j) ->
     solve_sudoku set_iter diff_iter p = solve_sudoku set_iter diff_iter p') /\
  (forall st q, let st' := mk_state q (domains st) (neighbors st) (log st) in
     fst (solve_m set_iter diff_iter st') = fst (solve_m set_iter diff_iter st) /\
     log (snd (solve_m set_iter diff_iter st')) = log (snd (solve_m set_iter diff_iter st))).
Proof.
  split.
  - intros p p' H; unfold solve_sudoku, SudokuCSP, initialize_domains.
    rewrite (init_doms_agree p p' cells (fun _ => []))
      by (intros [i j] Hc; apply in_cells in Hc as [Hi Hj]; apply H; auto).
    destruct (init_doms p' cells (fun _ => [])) as [d|]; [|reflexivity].
    destruct (pf_solve_m set_iter diff_iter (mk_state p d initialize_neighbors [])
                (mk_state p' d initialize_neighbors []) ltac:(repeat split)) as [E1 (_ & _ & E2)].
    destruct (solve_m set_iter diff_iter (mk_state p d initialize_neighbors [])) as [r s1].
    destruct (solve_m set_iter diff_iter (mk_state p' d initialize_neighbors [])) as [r' s1'].
    cbn [fst snd] in E1, E2; subst r'; rewrite E2; reflexivity.
  - intros st q; cbv zeta.
    destruct (pf_solve_m set_iter diff_iter (mk_state q (domains st) (neighbors st) (log st)) st
                ltac:(repeat split)) as [E1 (_ & _ & E2)].
    split; [exact E1|exact E2].
Qed.

(** [one_blank] with a tenth column and a tenth row. *)
Definition one_blank_wide : grid :=
  map (fun row => row ++ [7%Z]) one_blank ++ [repeat 1%Z 10].

Lemma solve_sudoku_reads_9x9_witness :
  (forall i j, i < 9 -> j < 9 -> py_get2 one_blank i j = py_get2 one_blank_wide i j) /\
  solve_sudoku insertion_order insertion_diff one_blank =
  solve_sudoku insertion_order insertion_diff one_blank_wide.
Proof.
  assert (H : forall i j, i < 9 -> j < 9 -> py_get2 one_blank i j = py_get2 one_blank_wide i j).
  { assert (B : forallb (fun c => match py_get2 one_blank (fst c) (snd c),
                                        py_get2 one_blank_wide (fst c) (snd c) with
                                  | Some x, Some y => Z.eqb x y
                                  | None, None => true
                                  | _, _ => false
                                  end) cells = true) by (vm_compute; reflexivity).
    rewrite forallb_forall in B; intros i j Hi Hj.
    specialize (B (i, j) (proj2 (in_cells i j) (conj Hi Hj))); cbn [fst snd] in B.
    destruct (py_get2 one_blank i j), (py_get2 one_blank_wide i j); try discriminate;
      [apply Z.eqb_eq in B; congruence|reflexivity]. }
  split; [exact H|].
  exact (proj1 (solve_sudoku_reads_9x9 insertion_order insertion_diff) _ _ H).
Defined.
